(** * st-converter: the batch image conversion pipeline

    A shallow embedding of [src/image_converter.py]:
    - [ImageProcessor] (process_heic, process_image, process_images_parallel),
    - [ImageConverter] (convert_to_buffer, create_zip),
    - the Streamlit page [render_image_converter] with its session state.

    Python strings are byte strings ([string], the UTF-8 bytes of the
    text), byte buffers are [list byte], the session dictionary
    [zip_cache] is a [gmap], the libraries the page calls (Pillow,
    pillow_heif, and what [st.image] asks of Pillow) are an interface
    ([Imaging]) with a small executable instance used for the examples.
    [zipfile] is the module of CPython 3.11 on a POSIX system. *)

From Stdlib Require Import ZArith NArith Ascii String List Permutation.
From Stdlib.Strings Require Import Byte.
From stdpp Require Import base option list strings gmap pretty.

Local Open Scope string_scope.
Local Open Scope list_scope.

(** ** Python values *)

Abbreviation bytes := (list byte).

#[global] Instance byte_eq_dec : EqDecision byte := Byte.byte_eq_dec.

(** A call either returns a value or raises a Python exception. *)
Inductive result (E A : Type) : Type :=
| Ok (a : A)
| Raise (e : E).
Arguments Ok {E A} a.
Arguments Raise {E A} e.

Definition is_ok {E A} (r : result E A) : bool :=
  match r with Ok _ => true | Raise _ => false end.

Definition and_then {E A B} (r : result E A) (k : A → result E B) : result E B :=
  match r with Ok a => k a | Raise e => Raise e end.

(** What reading the outcomes in order gives: the values when every
    task returned, otherwise the first exception by index. *)
Fixpoint gather {E B} (rs : list (result E B)) : result E (list B) :=
  match rs with
  | [] => Ok []
  | Ok v :: rs' =>
      match gather rs' with Ok vs => Ok (v :: vs) | Raise e => Raise e end
  | Raise e :: _ => Raise e
  end.

(** ** str methods used by the module *)

Module Str.

(** One character of [str.lower()]: the ASCII capitals move down, every
    other byte (digits, punctuation, the bytes of a UTF-8 sequence) is
    left alone.  On ASCII text, the format labels among it, this is
    Python's [lower].  Python also lowers letters outside ASCII; none
    of them becomes "h", "e", "i" or "c", so the suffix test of
    [process_image] is the same on every name. *)
Definition lower_char (c : ascii) : ascii :=
  let n := nat_of_ascii c in
  if (65 <=? n)%nat && (n <=? 90)%nat then ascii_of_nat (n + 32) else c.

Fixpoint lower (s : string) : string :=
  match s with
  | EmptyString => EmptyString
  | String c s' => String (lower_char c) (lower s')
  end.

(** [s.endswith(suffix)] *)
Definition endswith (s suffix : string) : bool :=
  let n := String.length s in
  let k := String.length suffix in
  (k <=? n)%nat && String.eqb (substring (n - k) k s) suffix.

(** [s.startswith(prefix)] *)
Fixpoint startswith (s prefix : string) {struct prefix} : bool :=
  match prefix with
  | EmptyString => true
  | String a prefix' =>
      match s with
      | EmptyString => false
      | String b s' => Ascii.eqb a b && startswith s' prefix'
      end
  end.

(** [s.split(sep)] for a one-character separator. *)
Fixpoint split (sep : ascii) (s : string) : list string :=
  match s with
  | EmptyString => [EmptyString]
  | String c s' =>
      if Ascii.eqb c sep then EmptyString :: split sep s'
      else match split sep s' with
           | h :: t => String c h :: t
           | [] => [String c EmptyString]
           end
  end.

(** [s.rfind(c)]: the index of the last occurrence, [None] for -1. *)
Fixpoint rfind (c : ascii) (s : string) : option nat :=
  match s with
  | EmptyString => None
  | String a s' =>
      match rfind c s' with
      | Some i => Some (S i)
      | None => if Ascii.eqb a c then Some 0%nat else None
      end
  end.

End Str.

(** ** pathlib: [Path(p).stem] (POSIX flavour) *)

Module Path.

(** The parts of a path: split on the separator, the empty and the "."
    components dropped. *)
Definition parts (p : string) : list string :=
  filter (λ c, c ≠ EmptyString ∧ c ≠ ".") (Str.split "/" p).

(** [Path(p).name]: the final component, empty when there is none. *)
Definition name (p : string) : string := List.last (parts p) EmptyString.

(** [Path(p).stem]: the final component without its last suffix; the
    dot must be neither the first nor the last character of it. *)
Definition stem (p : string) : string :=
  let nm := name p in
  match Str.rfind "." nm with
  | Some i =>
      if (0 <? i)%nat && (i <? String.length nm - 1)%nat
      then substring 0 i nm else nm
  | None => nm
  end.

End Path.

(** ** loguru *)

Inductive Level := DEBUG | INFO | SUCCESS | ERROR.

#[global] Instance Level_eq_dec : EqDecision Level.
Proof. solve_decision. Defined.

Abbreviation LogRecord := (Level * string)%type.

(** ** Uploaded files and the imaging libraries *)

(** A file of [st.file_uploader]: a name and the bytes behind it. *)
Record UploadedFile := { name : string; content : bytes }.

#[global] Instance UploadedFile_eq_dec : EqDecision UploadedFile.
Proof. solve_decision. Defined.

(** What [pillow_heif.read_heif] returns, as far as the module reads it. *)
Record HeifFile := {
  heif_mode : string;
  heif_size : Z * Z;
  heif_data : bytes;
  heif_stride : Z }.

(** Pillow and pillow_heif.  Each entry is the library call of the same
    name in the source; a call that fails raises an exception of the
    library ([Exn]), whose text is [exn_str].  [Image.open] is lazy: it
    identifies the file and reads the pixel data only when the image is
    saved or shown, so an image that opened can still fail there. *)
Class Imaging := {
  Image : Type;
  Exn : Type;
  exn_str : Exn → string;
  (** [pillow_heif.read_heif(file)] *)
  read_heif : UploadedFile → result Exn HeifFile;
  (** [Image.frombytes(mode, size, data, decoder_name, *args)] with
      [args = (raw mode, stride)] *)
  Image_frombytes : string → Z * Z → bytes → string → string * Z → result Exn Image;
  (** [Image.open(file)] *)
  Image_open : UploadedFile → result Exn Image;
  (** [image.save(buffer, format=...)] on a fresh [BytesIO], then
      [buffer.getvalue()] *)
  Image_save : Image → string → result Exn bytes;
  (** What [st.image(image, ...)] does with the image before it draws
      it: Streamlit encodes it for the browser, which reads the pixel
      data of a lazily opened file. *)
  st_image_encode : Image → result Exn unit }.

(** ** Computations that log and may raise *)

Section Py.
Context {lib : Imaging}.

(** The records a call emitted and how it ended. *)
Definition Py (A : Type) : Type := list LogRecord * result Exn A.

Definition ret {A} (a : A) : Py A := ([], Ok a).
Definition raise {A} (e : Exn) : Py A := ([], Raise e).
Definition call {A} (r : result Exn A) : Py A := ([], r).
Definition logger (lvl : Level) (msg : string) : Py unit := ([(lvl, msg)], Ok tt).

(** A block that cannot raise: its records and its value. *)
Definition logged {A} (block : list LogRecord * A) : Py A := (block.1, Ok block.2).

Definition bind {A B} (m : Py A) (k : A → Py B) : Py B :=
  match m with
  | (l, Ok a) => let '(l', r) := k a in (l ++ l', r)
  | (l, Raise e) => (l, Raise e)
  end.

(** [try: m  except Exception as e: h e] *)
Definition try_except {A} (m : Py A) (h : Exn → Py A) : Py A :=
  match m with
  | (l, Raise e) => let '(l', r) := h e in (l ++ l', r)
  | (l, Ok a) => (l, Ok a)
  end.

End Py.

#[global] Instance Py_ret `{Imaging} : MRet Py := @ret _.
#[global] Instance Py_bind `{Imaging} : MBind Py := λ A B k m, bind m k.

(** ** ImageProcessor *)

Record ProcessedImage `{Imaging} := {
  original_name : string;
  image : Image }.

Section ImageProcessor.
Context {lib : Imaging}.

Definition process_heic (file : UploadedFile) : Py Image :=
  logger DEBUG ("Processing HEIC file: " +:+ name file) ;;
  heif_file ← call (read_heif file) ;
  call (Image_frombytes (heif_mode heif_file) (heif_size heif_file)
          (heif_data heif_file) "raw" (heif_mode heif_file, heif_stride heif_file)).

Definition process_image (file : UploadedFile) : Py ProcessedImage :=
  logger INFO ("Processing image: " +:+ name file) ;;
  try_except
    (image ← (if Str.endswith (Str.lower (name file)) ".heic"
               then process_heic file
               else call (Image_open file)) ;
     logger SUCCESS ("Successfully processed: " +:+ name file) ;;
     ret {| original_name := name file; image := image |})
    (λ e,
       logger ERROR ("Error processing " +:+ name file +:+ ": " +:+ exn_str e) ;;
       raise e).

End ImageProcessor.

(** The suffix test in the words of the specification: the name ends
    in ".heic", each of the four letters in either case. *)
Definition ends_in_heic (nm : string) : Prop :=
  ∃ p h e i c,
    nm = p +:+ String "." (String h (String e (String i (String c EmptyString))))
    ∧ (h = "h" ∨ h = "H")%char ∧ (e = "e" ∨ e = "E")%char
    ∧ (i = "i" ∨ i = "I")%char ∧ (c = "c" ∨ c = "C")%char.

(** ** concurrent.futures: a thread pool

    [submit] queues one task per argument; each task owns the future at
    its index.  The workers finish tasks in an order the program does not
    control: a schedule lists the indices in completion order.  A task
    that finishes stores its outcome in its future and its log records
    reach the sink at that moment. *)

Section Executor.
Context {lib : Imaging} {A B : Type} (fn : A → Py B) (xs : list A).

Record Pool := {
  futures : list (option (result Exn B));
  sink : list LogRecord }.

(** [[executor.submit(fn, x) for x in xs]] *)
Definition submit_all : Pool :=
  {| futures := replicate (length xs) None; sink := [] |}.

(** The task of future [i] finishes (nothing happens for an index that
    names no future, or a future that is already done). *)
Definition complete (p : Pool) (i : nat) : Pool :=
  match xs !! i, futures p !! i with
  | Some x, Some None =>
      let '(l, r) := fn x in
      {| futures := <[i := Some r]> (futures p); sink := sink p ++ l |}
  | _, _ => p
  end.

Definition run_workers (p : Pool) (done : list nat) : Pool :=
  foldl complete p done.

(** [list(executor.map(fn, xs))]: the futures are read in submission
    order.  Before the main thread reads future [i] the workers finish
    the tasks of the next chunk of the schedule; reading a future that
    is still pending waits for its task.  The first exception met stops
    the iteration; leaving the [with] block waits for the tasks that
    are still running (the rest of the schedule). *)
Fixpoint result_iterator (fs : list nat) (sched : list (list nat)) (p : Pool)
  : Pool * result Exn (list B) :=
  match fs with
  | [] => (run_workers p (concat sched), Ok [])
  | i :: fs' =>
      let p1 := complete (run_workers p (hd [] sched)) i in
      match futures p1 !! i with
      | Some (Some (Ok v)) =>
          match result_iterator fs' (tl sched) p1 with
          | (p2, Ok vs) => (p2, Ok (v :: vs))
          | (p2, Raise e) => (p2, Raise e)
          end
      | Some (Some (Raise e)) => (run_workers p1 (concat (tl sched)), Raise e)
      | _ => result_iterator fs' (tl sched) p1  (* [i] names no future *)
      end
  end.

Definition executor_map (sched : list (list nat)) : Py (list B) :=
  let '(p, r) := result_iterator (seq 0 (length xs)) sched submit_all in
  (sink p, r).

(** Every finished future holds the outcome of its own task, whose
    records have reached the sink. *)
Definition pool_ok (p : Pool) : Prop :=
  length (futures p) = length xs ∧
  ∀ i r, futures p !! i = Some (Some r) →
    ∃ x, xs !! i = Some x ∧ (fn x).2 = r ∧ (fn x).1 ⊆ sink p.

(** The records of the tasks that have finished, in submission order. *)
Definition done_logs (p : Pool) : list LogRecord :=
  concat (zip_with (λ x f, match f with Some _ => (fn x).1 | None => [] end)
            xs (futures p)).

(** The sink holds the records of the finished tasks, and nothing else. *)
Definition sink_ok (p : Pool) : Prop :=
  length (futures p) = length xs ∧ sink p ≡ₚ done_logs p.

End Executor.

Section BatchDecoder.
Context {lib : Imaging}.

Definition process_images_parallel (files : list UploadedFile)
    (sched : list (list nat)) : Py (list ProcessedImage) :=
  logger INFO ("Starting parallel processing of "
               +:+ pretty (length files) +:+ " images") ;;
  executor_map process_image files sched.

End BatchDecoder.

(** ** zipfile: a [ZipFile] opened for writing on a [BytesIO]

    Members are stored (no compression), as [ZipFile(buffer, "w")] does
    by default; the data of a member stays below the ZIP64 limit.  The
    buffer is seekable, so the local header of a member carries its
    final CRC and sizes. *)

Module Zip.

Local Open Scope Z_scope.

Definition byte_of_Z (z : Z) : byte :=
  default x00 (Byte.of_N (Z.to_N (z mod 256))).

(** [struct.pack] of an unsigned little-endian field of [n] bytes. *)
Fixpoint le (n : nat) (z : Z) : bytes :=
  match n with
  | O => []
  | S n' => byte_of_Z z :: le n' (Z.shiftr z 8)
  end.

(** [zlib.crc32] *)
Definition crc_shift (c : Z) : Z :=
  if Z.testbit c 0 then Z.lxor (Z.shiftr c 1) 0xEDB88320 else Z.shiftr c 1.

Definition crc_update (crc : Z) (b : byte) : Z :=
  Nat.iter 8%nat crc_shift (Z.lxor crc (Z.of_N (Byte.to_N b))).

Definition crc32 (data : bytes) : Z :=
  Z.lxor (fold_left crc_update data 0xFFFFFFFF) 0xFFFFFFFF.

(** [time.localtime(time.time())[:6]] *)
Record DateTime := {
  year : Z; month : Z; day : Z; hour : Z; minute : Z; second : Z }.

(** The exceptions [writestr] raises, each with its text ([str(e)]). *)
Inductive Error :=
| ValueError (msg : string)
| IndexError (msg : string)
| struct_error (msg : string).

Definition Error_str (e : Error) : string :=
  match e with
  | ValueError msg => msg
  | IndexError msg => msg
  | struct_error msg => msg
  end.

(** [ZipInfo.__init__] keeps a name up to its first null byte. *)
Fixpoint cut_nul (s : string) : string :=
  match s with
  | EmptyString => EmptyString
  | String c s' =>
      if Ascii.eqb c "000"%char then EmptyString else String c (cut_nul s')
  end.

(** A value [struct.pack] accepts for the format "H". *)
Definition ushort (z : Z) : bool := (0 <=? z) && (z <=? 65535).

Definition dosdate (dt : DateTime) : Z :=
  Z.lor (Z.lor (Z.shiftl (year dt - 1980) 9) (Z.shiftl (month dt) 5)) (day dt).

Definition dostime (dt : DateTime) : Z :=
  Z.lor (Z.lor (Z.shiftl (hour dt) 11) (Z.shiftl (minute dt) 5)) (second dt / 2).

Record ZipInfo := {
  filename : string;
  date_time : DateTime;
  CRC : Z;
  file_size : Z;
  header_offset : Z }.

(** Bit 11 marks a name that is not plain ASCII (written as UTF-8). *)
Definition flag_bits (zi : ZipInfo) : Z :=
  if forallb (λ b, (Byte.to_N b <? 128)%N) (list_byte_of_string (filename zi))
  then 0 else 0x800.

(** The fields the local and the central header share:
    flags, method, time, date, CRC, compressed size, size. *)
Definition common_fields (zi : ZipInfo) : bytes :=
  le 2%nat (flag_bits zi) ++ le 2%nat 0 ++ le 2%nat (dostime (date_time zi))
  ++ le 2%nat (dosdate (date_time zi)) ++ le 4%nat (CRC zi)
  ++ le 4%nat (file_size zi) ++ le 4%nat (file_size zi).

Definition name_length (zi : ZipInfo) : Z :=
  Z.of_nat (String.length (filename zi)).

(** [ZipInfo.FileHeader()]: "PK\003\004", version 20, then the name. *)
Definition FileHeader (zi : ZipInfo) : bytes :=
  [x50; x4b; x03; x04] ++ [x14; x00] ++ common_fields zi
  ++ le 2%nat (name_length zi) ++ le 2%nat 0
  ++ list_byte_of_string (filename zi).

(** [zinfo.external_attr] as [writestr] sets it: a name that ends in
    "/" is marked as a directory (0o40775 and the MS-DOS directory
    flag), any other name as a file with permissions 0o600. *)
Definition external_attr (zi : ZipInfo) : Z :=
  if Str.endswith (filename zi) "/"
  then Z.lor (Z.shiftl 16893 16) 16
  else Z.shiftl 384 16.

(** One entry of the central directory: "PK\001\002", made by version
    20 on Unix. *)
Definition central_header (zi : ZipInfo) : bytes :=
  [x50; x4b; x01; x02] ++ [x14; x03; x14; x00] ++ common_fields zi
  ++ le 2%nat (name_length zi) ++ le 2%nat 0 ++ le 2%nat 0 ++ le 2%nat 0 ++ le 2%nat 0
  ++ le 4%nat (external_attr zi) ++ le 4%nat (header_offset zi)
  ++ list_byte_of_string (filename zi).

(** "PK\005\006" and the position of the central directory. *)
Definition end_record (count size offset : Z) : bytes :=
  [x50; x4b; x05; x06] ++ le 2%nat 0 ++ le 2%nat 0 ++ le 2%nat count ++ le 2%nat count
  ++ le 4%nat size ++ le 4%nat offset ++ le 2%nat 0.

(** The archive being written: the buffer behind it and the members
    added so far. *)
Record File := { fp : bytes; filelist : list ZipInfo }.

(** [ZipFile(zip_buffer, "w")] on a fresh [io.BytesIO()] *)
Definition open_w : File := {| fp := []; filelist := [] |}.

(** [zip_file.writestr(arcname, data)] at local time [now].
    [ZipInfo(arcname, now)] cuts the name at a null byte and refuses a
    year before 1980; [zinfo.filename[-1]] fails on an empty name;
    [struct.pack] in [zinfo.FileHeader()] refuses a date, a time or a
    name length that does not fit 16 bits (a year after 2107, a name
    of more than 65535 bytes).  A refused member leaves the archive as
    it was.  A name that is already in the archive is written again
    ([zipfile] only warns about it). *)
Definition writestr (zf : File) (now : DateTime) (arcname : string)
    (data : bytes) : result Error File :=
  let zi := {| filename := cut_nul arcname; date_time := now; CRC := crc32 data;
               file_size := Z.of_nat (length data);
               header_offset := Z.of_nat (length (fp zf)) |} in
  if year now <? 1980 then
    Raise (ValueError "ZIP does not support timestamps before 1980")
  else if String.eqb (filename zi) EmptyString then
    Raise (IndexError "string index out of range")
  else if ushort (dostime now) && ushort (dosdate now) && ushort (name_length zi) then
    Ok {| fp := fp zf ++ FileHeader zi ++ data; filelist := filelist zf ++ [zi] |}
  else
    Raise (struct_error "ushort format requires 0 <= number <= 65535").

(** Leaving the [with] block: the central directory and the end
    record are appended; the result is [zip_buffer.getvalue()]. *)
Definition close (zf : File) : bytes :=
  let directory := concat (central_header <$> filelist zf) in
  fp zf ++ directory
  ++ end_record (Z.of_nat (length (filelist zf)))
       (Z.of_nat (length directory)) (Z.of_nat (length (fp zf))).

(** [zip_file.read(zinfo)]: the stored bytes of a member. *)
Definition read (buffer : bytes) (zi : ZipInfo) : bytes :=
  take (Z.to_nat (file_size zi))
    (drop (Z.to_nat (header_offset zi) + 30 + String.length (filename zi))%nat buffer).

(** The members as (name, bytes), in the order of the directory. *)
Definition members (zf : File) : list (string * bytes) :=
  (λ zi, (filename zi, read (fp zf) zi)) <$> filelist zf.

(** [zip_file.namelist()] *)
Definition namelist (zf : File) : list string := filename <$> filelist zf.

(** *** Reading an archive back: [ZipFile(buffer).read(name)] for every
    name of the directory *)

(** [int.from_bytes(bs, "little")] *)
Definition uint (bs : bytes) : Z :=
  fold_right (λ b acc, Z.of_N (Byte.to_N b) + 256 * acc) 0 bs.

(** [buffer[pos : pos + len]] *)
Definition slice (buffer : bytes) (pos len : nat) : bytes :=
  take len (drop pos buffer).

Definition field (buffer : bytes) (pos len : nat) : nat :=
  Z.to_nat (uint (slice buffer pos len)).

(** The member a central directory entry at [pos] describes, read
    through its local header and checked against the recorded CRC, and
    the position of the next entry. *)
Definition read_entry (buffer : bytes) (pos : nat)
  : option ((string * bytes) * nat) :=
  if decide (slice buffer pos 4 = [x50; x4b; x01; x02]) then
    let name_len := field buffer (pos + 28) 2 in
    let extra_len := field buffer (pos + 30) 2 in
    let comment_len := field buffer (pos + 32) 2 in
    let offset := field buffer (pos + 42) 4 in
    if decide (slice buffer offset 4 = [x50; x4b; x03; x04]) then
      let start := (offset + 30 + field buffer (offset + 26) 2
                    + field buffer (offset + 28) 2)%nat in
      let data := slice buffer start (field buffer (pos + 24) 4) in
      if decide (crc32 data = uint (slice buffer (pos + 16) 4)) then
        Some ((string_of_list_byte (slice buffer (pos + 46) name_len), data),
              (pos + 46 + name_len + extra_len + comment_len)%nat)
      else None
    else None
  else None.

Fixpoint read_directory (buffer : bytes) (count pos : nat)
  : option (list (string * bytes)) :=
  match count with
  | O => Some []
  | S count' =>
      match read_entry buffer pos with
      | Some (member, next) =>
          match read_directory buffer count' next with
          | Some rest => Some (member :: rest)
          | None => None
          end
      | None => None
      end
  end.

(** The members of an archive without a comment: the end record is the
    last 22 bytes and points at the directory. *)
Definition extract (buffer : bytes) : option (list (string * bytes)) :=
  let e := (length buffer - 22)%nat in
  if decide (22 ≤ length buffer)%nat then
    if decide (slice buffer e 4 = [x50; x4b; x05; x06]) then
      read_directory buffer (field buffer (e + 10) 2) (field buffer (e + 16) 4)
    else None
  else None.

End Zip.

(** ** What an archive holds *)

Module ZipSpec.

(** The buffer holds the local header of [zi] at its offset, followed
    by the bytes [data], whose size and CRC the header records. *)
Definition stored_at (buffer : bytes) (zi : Zip.ZipInfo) (data : bytes) : Prop :=
  ∃ pre post,
    buffer = pre ++ Zip.FileHeader zi ++ data ++ post
    ∧ Zip.header_offset zi = Z.of_nat (length pre)
    ∧ Zip.file_size zi = Z.of_nat (length data)
    ∧ Zip.CRC zi = Zip.crc32 data.

(** The archive holds exactly the members [ms], in this order. *)
Definition holds (zf : Zip.File) (ms : list (string * bytes)) : Prop :=
  Forall2 (λ zi m, Zip.filename zi = m.1 ∧ stored_at (Zip.fp zf) zi m.2)
    (Zip.filelist zf) ms.

(** A local time of the calendar between 1980 and 2107, the years a
    ZIP time stamp can hold. *)
Definition calendar (now : Zip.DateTime) : Prop :=
  (1980 ≤ Zip.year now ≤ 2107 ∧ 1 ≤ Zip.month now ≤ 12 ∧ 1 ≤ Zip.day now ≤ 31
   ∧ 0 ≤ Zip.hour now ≤ 23 ∧ 0 ≤ Zip.minute now ≤ 59 ∧ 0 ≤ Zip.second now ≤ 61)%Z.

(** A member name [zipfile] stores as it is: no null byte, at most
    65535 bytes. *)
Definition plain (arcname : string) : Prop :=
  Zip.cut_nul arcname = arcname ∧ (Z.of_nat (String.length arcname) ≤ 65535)%Z.

(** The archive stays below the sizes at which [zipfile] would switch
    to ZIP64 records, and its names fit the 16-bit length field. *)
Definition within_limits (zf : Zip.File) : Prop :=
  (Z.of_nat (length (Zip.filelist zf)) < 2 ^ 16)%Z
  ∧ (Z.of_nat (length (Zip.close zf)) < 2 ^ 31)%Z
  ∧ Forall (λ zi, (Z.of_nat (String.length (Zip.filename zi)) < 2 ^ 16)%Z)
      (Zip.filelist zf).

End ZipSpec.

(** ** ImageConverter *)

Section ImageConverter.
Context {lib : Imaging}.

Definition convert_to_buffer (processed_image : ProcessedImage)
    (target_format : string) : Py (string * bytes) :=
  img_buffer ← call (Image_save (image processed_image) target_format) ;
  let base_name := Path.stem (original_name processed_image) in
  let new_name := base_name +:+ "." +:+ Str.lower target_format in
  ret (new_name, img_buffer).

(** [concurrent.futures.as_completed(futures)] hands out every future
    exactly once, in an order the program does not control (the
    futures already finished when it is entered come in the iteration
    order of a set, the others as they finish).  [sched] is that
    order: first its indices (an index counts the first time it is
    named), then the futures it does not name, in submission order. *)
Definition as_completed (n : nat) (sched : list nat) : list nat :=
  let first := remove_dups (filter (λ i, i < n)%nat sched) in
  first ++ filter (λ i, i ∉ first) (seq 0 n).

(** The body of [for future in as_completed(futures)]: the [k]-th
    future handed out is read at local time [clock k].  The [try]
    covers [future.result()] and [zip_file.writestr]: an exception of
    either is logged and the member is left out. *)
Fixpoint write_completed (futures : list (Py (string * bytes)))
    (clock : nat → Zip.DateTime) (k : nat) (order : list nat)
    (zip_file : Zip.File) : list LogRecord * Zip.File :=
  match order with
  | [] => ([], zip_file)
  | i :: order' =>
      let '(l, zf) :=
        match futures !! i with
        | Some (l0, Ok (new_name, image_data)) =>
            match Zip.writestr zip_file (clock k) new_name image_data with
            | Ok zf' => (l0 ++ [(DEBUG, "Added " +:+ new_name +:+ " to ZIP")], zf')
            | Raise e =>
                (l0 ++ [(ERROR, "Error adding file to ZIP: " +:+ Zip.Error_str e)],
                 zip_file)
            end
        | Some (l0, Raise e) =>
            (l0 ++ [(ERROR, "Error adding file to ZIP: " +:+ exn_str e)], zip_file)
        | None => ([], zip_file)
        end in
      let '(l', zf') := write_completed futures clock (S k) order' zf in
      (l ++ l', zf')
  end.

(** The archive when the [with ZipFile(...)] block is about to close. *)
Definition zip_written (processed_images : list ProcessedImage)
    (target_format : string) (sched : list nat) (clock : nat → Zip.DateTime)
  : list LogRecord * Zip.File :=
  let futures := (λ img, convert_to_buffer img target_format) <$> processed_images in
  write_completed futures clock 0 (as_completed (length futures) sched) Zip.open_w.

Definition create_zip (processed_images : list ProcessedImage)
    (target_format : string) (sched : list nat) (clock : nat → Zip.DateTime)
  : Py bytes :=
  logger INFO ("Creating ZIP with " +:+ pretty (length processed_images)
               +:+ " images in " +:+ target_format +:+ " format") ;;
  zip_file ← logged (zip_written processed_images target_format sched clock) ;
  logger SUCCESS "ZIP file created successfully" ;;
  ret (Zip.close zip_file).

(** What the loop needs, besides times of the calendar, to write every
    future that returned: names that are plain and not empty. *)
Definition writable (futures : list (Py (string * bytes))) : Prop :=
  Forall (λ f : Py (string * bytes),
            ∀ nm d, f.2 = Ok (nm, d) → ZipSpec.plain nm ∧ nm ≠ EmptyString) futures.

(** The member name the encoder derives. *)
Definition member_name (original target_format : string) : string :=
  Path.stem original +:+ "." +:+ Str.lower target_format.

(** What [convert_to_buffer] yields for an image: the member, when the
    image can be saved in the target format. *)
Definition encoded (target_format : string) (img : ProcessedImage)
  : option (string * bytes) :=
  match Image_save (image img) target_format with
  | Ok data => Some (member_name (original_name img) target_format, data)
  | Raise _ => None
  end.

(** The record the loop of [create_zip] logs for an image. *)
Definition loop_record (target_format : string) (img : ProcessedImage)
  : Level * string :=
  match Image_save (image img) target_format with
  | Ok _ =>
      (DEBUG, "Added " +:+ member_name (original_name img) target_format +:+ " to ZIP")
  | Raise e => (ERROR, "Error adding file to ZIP: " +:+ exn_str e)
  end.

End ImageConverter.

(** What a finished encode task contributes to the archive. *)
Definition written `{Imaging} (future : Py (string * bytes)) : option (string * bytes) :=
  match future.2 with Ok member => Some member | Raise _ => None end.


(** ** The page: [render_image_converter]

    Streamlit runs the script from the top at every interaction.  One run
    reads the widgets, reads and writes [st.session_state], and either
    reaches the end of the script, asks for an immediate rerun
    ([st.rerun()]), or dies of an uncaught exception (of the decoder
    under "Convert All", or of [st.image] in the gallery). *)

(** [st.session_state] once the four keys are set. *)
Record SessionState `{Imaging} := {
  processed_images : option (list ProcessedImage);
  last_files_processed : option (list UploadedFile);
  last_format : option string;
  zip_cache : gmap string bytes }.

(** The widget values of one run. *)
Record Widgets := {
  (** [st.file_uploader(..., accept_multiple_files=True)] *)
  uploaded_files : list UploadedFile;
  (** [st.selectbox("Convert to:", ["PNG", "JPEG", "WebP"])] *)
  target_format : string;
  (** [st.button("Convert All")]: true in the run its click triggers *)
  convert_all : bool;
  (** [st.toggle("Show processed images")] *)
  show_processed : bool }.

(** What a run depends on besides the widgets: the order in which the
    decode tasks finish, the order in which [as_completed] hands out
    the encode tasks, and the clock that stamps the archive members. *)
Record World := {
  decode_order : list (list nat);
  encode_order : list nat;
  localtime : nat → Zip.DateTime }.

(** What a run draws on the page. *)
Inductive Element `{Imaging} :=
| st_title (body : string)
| st_info (body : string)
| st_success (body : string)
| st_subheader (body : string)
| st_image (column : nat) (im : Image) (caption : string)
| st_download_button (label : string) (data : bytes) (file_name mime : string).

Inductive Outcome `{Imaging} :=
| Finished
| Rerun
| Uncaught (e : Exn).

Record Run `{Imaging} := {
  session : SessionState;
  log : list LogRecord;
  page : list Element;
  outcome : Outcome }.

Section Page.
Context {lib : Imaging}.

Definition selectbox_options : list string := ["PNG"; "JPEG"; "WebP"].

(** [if "processed_images" not in st.session_state: ...] *)
Definition init_session (st : option SessionState)
  : list LogRecord * SessionState :=
  match st with
  | None =>
      ([(DEBUG, "Initializing session state")],
       {| processed_images := None; last_files_processed := None;
          last_format := None; zip_cache := ∅ |})
  | Some s => ([], s)
  end.

Definition needs_processing (s : SessionState)
    (uploaded_files : list UploadedFile) (target_format : string) : bool :=
  match processed_images s, last_files_processed s with
  | Some _, Some last =>
      negb (length uploaded_files =? length last)%nat
      || existsb (λ '(f1, f2), negb (String.eqb (name f1) (name f2)))
           (zip uploaded_files last)
      || negb (bool_decide (Some target_format = last_format s))
  | _, _ => true
  end.

(** [processed_images = None; zip_cache = {}] *)
Definition reset (s : SessionState) : SessionState :=
  {| processed_images := None;
     last_files_processed := last_files_processed s;
     last_format := last_format s;
     zip_cache := ∅ |}.

(** [for idx, proc_image in enumerate(...): with cols[idx % 3]: st.image(...)]
    from index [idx] on: the images drawn, and the exception of the
    first image [st.image] cannot encode, which ends the loop. *)
Fixpoint draw_images (idx : nat) (images : list ProcessedImage)
  : list Element * option Exn :=
  match images with
  | [] => ([], None)
  | proc_image :: rest =>
      match st_image_encode (image proc_image) with
      | Ok _ =>
          let '(drawn, raised) := draw_images (S idx) rest in
          (st_image (idx mod 3) (image proc_image) (original_name proc_image) :: drawn,
           raised)
      | Raise e => ([], Some e)
      end
  end.

Definition gallery (images : list ProcessedImage) : list Element * option Exn :=
  let '(drawn, raised) := draw_images 0 images in
  (st_subheader "Processed Images" :: drawn, raised).

(** The exception that ends the gallery, if it is shown and one of its
    images cannot be encoded. *)
Definition gallery_error (w : Widgets) (images : list ProcessedImage) : option Exn :=
  if show_processed w then (gallery images).2 else None.

Definition download (zip_data : bytes) (target_format : string) : Element :=
  st_download_button "Download All Converted Images" zip_data
    ("converted_images_" +:+ Str.lower target_format +:+ ".zip")
    "application/zip".

(** [if st.session_state.processed_images is not None: ...] *)
Definition show_results (env : World) (w : Widgets) (s : SessionState) : Run :=
  match processed_images s with
  | None => {| session := s; log := []; page := []; outcome := Finished |}
  | Some images =>
      let page1 :=
        [st_success ("**" +:+ pretty (length (uploaded_files w))
                     +:+ "** images processed and ready for download!")] in
      let '(log2, page2) :=
        if show_processed w
        then ([(DEBUG, "Displaying image gallery")], (gallery images).1)
        else ([], []) in
      match gallery_error w images with
      | Some e =>
          {| session := s; log := log2; page := page1 ++ page2; outcome := Uncaught e |}
      | None =>
      (* Create ZIP only if needed *)
      match zip_cache s !! target_format w with
      | None =>
          let '(l, r) := create_zip images (target_format w)
                           (encode_order env) (localtime env) in
          let log3 := log2 ++ [(INFO, "Creating ZIP for format: " +:+ target_format w)]
                      ++ l in
          match r with
          | Ok zip_data =>
              {| session :=
                   {| processed_images := processed_images s;
                      last_files_processed := last_files_processed s;
                      last_format := last_format s;
                      zip_cache := <[target_format w := zip_data]> (zip_cache s) |};
                 log := log3;
                 page := page1 ++ page2 ++ [download zip_data (target_format w)];
                 outcome := Finished |}
          | Raise e =>
              {| session := s; log := log3; page := page1 ++ page2;
                 outcome := Uncaught e |}
          end
      | Some zip_data =>
          {| session := s;
             log := log2 ++ [(INFO, "Using cached ZIP for format: " +:+ target_format w)];
             page := page1 ++ page2 ++ [download zip_data (target_format w)];
             outcome := Finished |}
      end
      end
  end.

(** The run continues after the log records and page elements so far. *)
Definition after (l : list LogRecord) (pg : list Element) (r : Run) : Run :=
  {| session := session r; log := l ++ log r; page := pg ++ page r;
     outcome := outcome r |}.

Definition render_image_converter (env : World) (w : Widgets)
    (st : option SessionState) : Run :=
  let '(l, s) := init_session st in
  let log0 := (INFO, "Rendering image converter page") :: l in
  let page0 := [st_title "Image Converter"] in
  match uploaded_files w with
  | [] => {| session := s; log := log0; page := page0; outcome := Finished |}
  | _ :: _ =>
      if needs_processing s (uploaded_files w) (target_format w) then
        (* Reset state when files or format change *)
        let s1 := reset s in
        let log1 := log0 ++ [(INFO, "Files or format changed, showing conversion button")] in
        let page1 :=
          page0 ++ [st_info ("Ready to convert **" +:+ pretty (length (uploaded_files w))
                             +:+ "** images to: **" +:+ target_format w +:+ "**")] in
        if convert_all w then
          let '(l', r) := process_images_parallel (uploaded_files w) (decode_order env) in
          let log2 := log1 ++ [(INFO, "Starting conversion process to " +:+ target_format w)]
                      ++ l' in
          match r with
          | Ok images =>
              {| session :=
                   {| processed_images := Some images;
                      last_files_processed := Some (uploaded_files w);
                      last_format := Some (target_format w);
                      zip_cache := zip_cache s1 |};
                 log := log2 ++ [(SUCCESS, "Conversion process completed")];
                 page := page1;
                 outcome := Rerun |}
          | Raise e =>
              {| session := s1; log := log2; page := page1; outcome := Uncaught e |}
          end
        else after log1 page1 (show_results env w s1)
      else after log0 page0 (show_results env w s)
  end.

(** One interaction: the run it triggers and, when that run ends in
    [st.rerun()], the run that follows at once with the same widget
    values (the button reads False again). *)
Definition interact (env : World) (w : Widgets) (st : option SessionState) : Run :=
  let r := render_image_converter env w st in
  match outcome r with
  | Rerun =>
      let w' := {| uploaded_files := uploaded_files w;
                   target_format := target_format w;
                   convert_all := false;
                   show_processed := show_processed w |} in
      let r' := render_image_converter env w' (Some (session r)) in
      {| session := session r'; log := log r ++ log r'; page := page r';
         outcome := outcome r' |}
  | _ => r
  end.

End Page.

(** ** Reading a run *)

(** The number of times [create_zip] was entered, read off its first
    log record. *)
Definition encode_passes (l : list (Level * string)) : nat :=
  length (filter (λ r, r.1 = INFO ∧ Str.startswith r.2 "Creating ZIP with " = true) l).

(** The archives offered for download on a page. *)
Definition downloads `{Imaging} (pg : list Element) : list bytes :=
  omap (λ el, match el with
              | st_download_button _ data _ _ => Some data
              | _ => None
              end) pg.

(** The cache holds at most the archive of the format the batch was
    decoded for. *)
Definition cache_for_last_format `{Imaging} (s : SessionState) : Prop :=
  ∀ k z, zip_cache s !! k = Some z →
    last_format s = Some k ∧ processed_images s ≠ None.

(** The pictures drawn on a page: column, image, caption. *)
Definition pictures `{Imaging} (pg : list Element) : list (nat * Image * string) :=
  omap (λ el, match el with
              | st_image column im caption => Some (column, im, caption)
              | _ => None
              end) pg.

(** The sessions the page can be in: none before the first run, then
    what a run leaves behind. *)
Inductive reachable `{Imaging} : option SessionState → Prop :=
| reachable_first : reachable None
| reachable_run env w st :
    reachable st → reachable (Some (session (render_image_converter env w st))).

(** The batch in the session is the decode of the files recorded with
    it, and every cached archive was built by [create_zip] from that
    batch for the format recorded with it. *)
Definition consistent `{Imaging} (s : SessionState) : Prop :=
  (∀ batch, processed_images s = Some batch →
     ∃ files sched,
       last_files_processed s = Some files ∧ is_Some (last_format s)
       ∧ (process_images_parallel files sched).2 = Ok batch)
  ∧ (∀ k z, zip_cache s !! k = Some z →
       last_format s = Some k
       ∧ ∃ batch sched clock,
           processed_images s = Some batch
           ∧ (create_zip batch k sched clock).2 = Ok z).

(** ** An executable imaging library for the examples

    Files carry a one-byte tag: "P" an opaque raster, "A" a raster with
    an alpha channel, "T" a raster whose pixel data is cut short, "H" a
    HEIF container; anything else is not an image.  [open] identifies
    the file by its tag and does not read the pixels: a truncated raster
    opens, and fails when it is saved or shown.  The error for a file
    that is not an image quotes the file, name included, as Pillow's
    does; the error for a broken HEIF container does not.  Saving
    writes the lower-cased format label and the pixels; a raster with
    alpha cannot be written as JPEG. *)

Module Sample.

Record Raster := {
  raster_mode : string; raster_size : Z * Z; pixels : bytes; complete : bool }.

Inductive Error :=
| UnidentifiedImage (file_name : string)
| Truncated
| InvalidHeif
| UnknownDecoder (decoder : string)
| CannotWrite (mode format : string)
| UnknownFormat (format : string).

Definition Error_str (e : Error) : string :=
  match e with
  | UnidentifiedImage nm =>
      "cannot identify image file <UploadedFile name='" +:+ nm +:+ "'>"
  | Truncated => "image file is truncated"
  | InvalidHeif => "Invalid input: No 'ftyp' box"
  | UnknownDecoder d => "decoder " +:+ d +:+ " not available"
  | CannotWrite m f => "cannot write mode " +:+ m +:+ " as " +:+ f
  | UnknownFormat f => f
  end.

Definition width (px : bytes) : Z * Z := (Z.of_nat (length px), 1%Z).

Definition open (f : UploadedFile) : result Error Raster :=
  match content f with
  | x50 :: px =>
      Ok {| raster_mode := "RGB"; raster_size := width px; pixels := px;
            complete := true |}
  | x41 :: px =>
      Ok {| raster_mode := "RGBA"; raster_size := width px; pixels := px;
            complete := true |}
  | x54 :: px =>
      Ok {| raster_mode := "RGB"; raster_size := width px; pixels := px;
            complete := false |}
  | _ => Raise (UnidentifiedImage (name f))
  end.

Definition read (f : UploadedFile) : result Error HeifFile :=
  match content f with
  | x48 :: px =>
      Ok {| heif_mode := "RGB"; heif_size := width px; heif_data := px;
            heif_stride := Z.of_nat (length px) |}
  | _ => Raise InvalidHeif
  end.

Definition frombytes (m : string) (sz : Z * Z) (data : bytes)
    (decoder : string) (args : string * Z) : result Error Raster :=
  if String.eqb decoder "raw"
  then Ok {| raster_mode := m; raster_size := sz; pixels := data; complete := true |}
  else Raise (UnknownDecoder decoder).

Definition save (im : Raster) (format : string) : result Error bytes :=
  let f := Str.lower format in
  if negb (complete im) then Raise Truncated
  else if String.eqb f "jpeg" then
    if String.eqb (raster_mode im) "RGBA" then Raise (CannotWrite "RGBA" "JPEG")
    else Ok (list_byte_of_string f ++ pixels im)
  else if String.eqb f "png" || String.eqb f "webp" then
    Ok (list_byte_of_string f ++ pixels im)
  else Raise (UnknownFormat format).

Definition show (im : Raster) : result Error unit :=
  if complete im then Ok tt else Raise Truncated.

#[global] Instance lib : Imaging := {|
  Image := Raster;
  Exn := Error;
  exn_str := Error_str;
  read_heif := read;
  Image_frombytes := frombytes;
  Image_open := open;
  Image_save := save;
  st_image_encode := show |}.

Definition file (nm : string) (data : string) : UploadedFile :=
  {| name := nm; content := list_byte_of_string data |}.

(** Three uploads: a HEIF container, a raster, a raster with alpha. *)
Definition inputs : list UploadedFile :=
  [file "a.heic" "Hxyz"; file "b.png" "Pabc"; file "c.jpg" "Aqq"].

(** The batch they decode to. *)
Definition decoded : list ProcessedImage :=
  match (process_images_parallel inputs []).2 with
  | Ok batch => batch
  | Raise _ => []
  end.

Definition noon : Zip.DateTime :=
  {| Zip.year := 2024; Zip.month := 11; Zip.day := 3;
     Zip.hour := 12; Zip.minute := 0; Zip.second := 0 |}.

Definition evening : Zip.DateTime :=
  {| Zip.year := 2024; Zip.month := 11; Zip.day := 3;
     Zip.hour := 19; Zip.minute := 30; Zip.second := 8 |}.

(** Two worlds that differ in every order of the thread pools and in the clock. *)
Definition world1 : World :=
  {| decode_order := [[2]; [1]]; encode_order := [1; 0]; localtime := λ _, noon |}.

Definition world2 : World :=
  {| decode_order := []; encode_order := [2]; localtime := λ _, evening |}.

(** Two decoded images whose names differ in the extension only. *)
Definition first_twin : ProcessedImage :=
  {| original_name := "a.png";
     image := {| raster_mode := "RGB"; raster_size := (1, 1)%Z; pixels := [x01];
                 complete := true |} |}.

Definition second_twin : ProcessedImage :=
  {| original_name := "a.jpg";
     image := {| raster_mode := "RGB"; raster_size := (1, 1)%Z; pixels := [x02];
                 complete := true |} |}.

Definition twins : list ProcessedImage := [first_twin; second_twin].

(** The widgets with the three uploads in place. *)
Definition request (format : string) (click toggle : bool) : Widgets :=
  {| uploaded_files := inputs; target_format := format;
     convert_all := click; show_processed := toggle |}.

(** The session when "Convert All" has decoded the batch for "WebP"
    and the script is about to rerun. *)
Definition converted : SessionState :=
  session (render_image_converter world1 (request "WebP" true false) None).

(** The session after that rerun: the "WebP" archive is in the cache. *)
Definition cached : SessionState :=
  session (interact world1 (request "WebP" true false) None).

(** Three uploads that open, the second with its pixel data cut short. *)
Definition damaged : list UploadedFile :=
  [file "good.png" "Pab"; file "cut.png" "Tcd"; file "late.png" "Pef"].

Definition damaged_request (click toggle : bool) : Widgets :=
  {| uploaded_files := damaged; target_format := "PNG";
     convert_all := click; show_processed := toggle |}.

(** The images they open as. *)
Definition opened (nm px : string) (whole : bool) : ProcessedImage :=
  {| original_name := nm;
     image := {| raster_mode := "RGB"; raster_size := width (list_byte_of_string px);
                 pixels := list_byte_of_string px; complete := whole |} |}.

Definition good : ProcessedImage := opened "good.png" "ab" true.
Definition cut : ProcessedImage := opened "cut.png" "cd" false.
Definition late : ProcessedImage := opened "late.png" "ef" true.

(** The session after "Convert All" on them, the gallery not shown. *)
Definition damaged_session : SessionState :=
  session (interact world1 (damaged_request true false) None).

(** The clock of a machine that starts at the epoch. *)
Definition epoch : Zip.DateTime :=
  {| Zip.year := 1970; Zip.month := 1; Zip.day := 1;
     Zip.hour := 0; Zip.minute := 0; Zip.second := 0 |}.

End Sample.

(** * Facts *)

(** ** Strings *)

Section StrFacts.

Lemma substring_all (s : string) : substring 0 (String.length s) s = s.
Proof. induction s as [|c s IH]; simpl; [done | by rewrite IH]. Qed.

Lemma substring_skip (p s : string) (n : nat) :
  substring (String.length p) n (p +:+ s) = substring 0 n s.
Proof. induction p as [|c p IH]; simpl; [done | apply IH]. Qed.

Lemma substring_split (s : string) (m : nat) :
  (m ≤ String.length s)%nat →
  s = substring 0 m s +:+ substring m (String.length s - m) s.
Proof.
  revert m. induction s as [|c s IH]; intros [|m] Hm; simpl in *; try done.
  - by rewrite substring_all.
  - change (String c s = String c (substring 0 m s +:+ substring m (String.length s - m) s)).
    f_equal. apply IH. lia.
Qed.

Lemma length_append (a b : string) :
  String.length (a +:+ b) = (String.length a + String.length b)%nat.
Proof. induction a as [|c a IH]; simpl; [done | by rewrite IH]. Qed.

Lemma length_substring (s : string) (m k : nat) :
  (m + k ≤ String.length s)%nat → String.length (substring m k s) = k.
Proof.
  revert m k. induction s as [|c s IH]; intros [|m] [|k] H; simpl in *;
    try done; try lia.
  - f_equal. apply (IH 0%nat). lia.
  - apply IH. lia.
  - apply IH. lia.
Qed.

(** [endswith] holds exactly of the strings that are something
    followed by the suffix. *)
Lemma endswith_spec (s suffix : string) :
  Str.endswith s suffix = true ↔ ∃ p, s = p +:+ suffix.
Proof.
  unfold Str.endswith. rewrite andb_true_iff, Nat.leb_le, String.eqb_eq. split.
  - intros [Hle Hsub]. exists (substring 0 (String.length s - String.length suffix) s).
    pose proof (substring_split s (String.length s - String.length suffix)) as Hs.
    replace (String.length s - (String.length s - String.length suffix))%nat
      with (String.length suffix) in Hs by lia.
    rewrite Hsub in Hs. apply Hs. lia.
  - intros [p ->]. rewrite length_append. split; [lia|].
    replace (String.length p + String.length suffix - String.length suffix)%nat
      with (String.length p) by lia.
    by rewrite substring_skip, substring_all.
Qed.

Lemma lower_append (a b : string) :
  Str.lower (a +:+ b) = Str.lower a +:+ Str.lower b.
Proof. induction a as [|c a IH]; simpl; [done | by rewrite IH]. Qed.

Lemma length_lower (s : string) : String.length (Str.lower s) = String.length s.
Proof. induction s as [|c s IH]; simpl; [done | by rewrite IH]. Qed.

Lemma lower_substring (s : string) (m k : nat) :
  Str.lower (substring m k s) = substring m k (Str.lower s).
Proof.
  revert m k. induction s as [|c s IH]; intros [|m] [|k]; simpl;
    rewrite ?IH; done.
Qed.

(** The test of [process_image]: the name ends with ".heic" written in
    any mix of upper and lower case. *)
Lemma endswith_lower_spec (s suffix : string) :
  Str.endswith (Str.lower s) suffix = true ↔
  ∃ p e, s = p +:+ e ∧ Str.lower e = suffix.
Proof.
  split.
  - unfold Str.endswith. rewrite andb_true_iff, Nat.leb_le, String.eqb_eq.
    rewrite length_lower. intros [Hle Hsub].
    exists (substring 0 (String.length s - String.length suffix) s),
           (substring (String.length s - String.length suffix) (String.length suffix) s).
    split; [| by rewrite lower_substring].
    pose proof (substring_split s (String.length s - String.length suffix)) as Hs.
    replace (String.length s - (String.length s - String.length suffix))%nat
      with (String.length suffix) in Hs by lia.
    apply Hs. lia.
  - intros (p & e & -> & <-). apply endswith_spec.
    exists (Str.lower p). apply lower_append.
Qed.

Lemma lower_char_dot x : Str.lower_char x = "."%char ↔ x = "."%char.
Proof.
  destruct x as [[] [] [] [] [] [] [] []]; vm_compute; split; intros H;
    try discriminate H; auto.
Qed.

Lemma lower_char_h x : Str.lower_char x = "h"%char ↔ (x = "h" ∨ x = "H")%char.
Proof.
  destruct x as [[] [] [] [] [] [] [] []]; vm_compute; split; intros H;
    try discriminate H; try (destruct H as [H|H]; discriminate H); auto.
Qed.

Lemma lower_char_e x : Str.lower_char x = "e"%char ↔ (x = "e" ∨ x = "E")%char.
Proof.
  destruct x as [[] [] [] [] [] [] [] []]; vm_compute; split; intros H;
    try discriminate H; try (destruct H as [H|H]; discriminate H); auto.
Qed.

Lemma lower_char_i x : Str.lower_char x = "i"%char ↔ (x = "i" ∨ x = "I")%char.
Proof.
  destruct x as [[] [] [] [] [] [] [] []]; vm_compute; split; intros H;
    try discriminate H; try (destruct H as [H|H]; discriminate H); auto.
Qed.

Lemma lower_char_c x : Str.lower_char x = "c"%char ↔ (x = "c" ∨ x = "C")%char.
Proof.
  destruct x as [[] [] [] [] [] [] [] []]; vm_compute; split; intros H;
    try discriminate H; try (destruct H as [H|H]; discriminate H); auto.
Qed.

(** The test of [process_image] holds exactly of the names that end in
    ".heic" with each letter in either case. *)
Lemma ends_in_heic_spec (nm : string) :
  Str.endswith (Str.lower nm) ".heic" = true ↔ ends_in_heic nm.
Proof.
  rewrite endswith_lower_spec. unfold ends_in_heic. split.
  - intros (p & ext & -> & Hl).
    destruct ext as [|d [|h [|e [|i [|c [|]]]]]]; try discriminate Hl.
    cbn [Str.lower] in Hl. injection Hl as Hd Hh He Hi Hc.
    apply lower_char_dot in Hd as ->.
    exists p, h, e, i, c. split; [done|].
    by rewrite <- lower_char_h, <- lower_char_e, <- lower_char_i, <- lower_char_c.
  - intros (p & h & e & i & c & -> & Hh & He & Hi & Hc).
    eexists p, _. split; [done|]. cbn [Str.lower].
    apply lower_char_h in Hh as ->. apply lower_char_e in He as ->.
    apply lower_char_i in Hi as ->. apply lower_char_c in Hc as ->. done.
Qed.

End StrFacts.

(** ** The thread pool *)

Section ExecutorFacts.
Context {lib : Imaging} {A B : Type} (fn : A → Py B) (xs : list A).

Implicit Types (p : Pool (B:=B)) (i : nat).

Lemma submit_all_ok : pool_ok fn xs (submit_all xs).
Proof.
  split; simpl; [by rewrite length_replicate|].
  intros i r Hi. apply lookup_replicate in Hi as [? _]. done.
Qed.

Lemma complete_ok p i : pool_ok fn xs p → pool_ok fn xs (complete fn xs p i).
Proof.
  intros [Hlen Hdone]. unfold complete.
  destruct (xs !! i) as [x|] eqn:Hx; [|done].
  destruct (futures p !! i) as [[r0|]|] eqn:Hf; try done.
  destruct (fn x) as [l r] eqn:Hfn. split; simpl.
  - by rewrite length_insert.
  - intros j r' Hj. destruct (decide (i = j)) as [<-|Hne].
    + rewrite list_lookup_insert_eq in Hj by (by eapply lookup_lt_Some).
      exists x. rewrite Hfn. simpl. split; [done|]. split; [congruence|].
      set_solver.
    + rewrite list_lookup_insert_ne in Hj by done.
      destruct (Hdone j r' Hj) as (y & Hy & Hr & Hl).
      exists y. split; [done|]. split; [done|]. set_solver.
Qed.

Lemma run_workers_ok done p : pool_ok fn xs p → pool_ok fn xs (run_workers fn xs p done).
Proof.
  revert p. induction done as [|i done IH]; intros p Hp; simpl; [done|].
  apply IH. by apply complete_ok.
Qed.

(** A future that is read has been completed by its own task. *)
Lemma complete_lookup p i x :
  pool_ok fn xs p → xs !! i = Some x →
  futures (complete fn xs p i) !! i = Some (Some (fn x).2).
Proof.
  intros [Hlen Hdone] Hx. unfold complete. rewrite Hx.
  assert (i < length (futures p))%nat as Hlt
    by (rewrite Hlen; by eapply lookup_lt_Some).
  destruct (futures p !! i) as [[r0|]|] eqn:Hf.
  - rewrite Hf. destruct (Hdone i r0 Hf) as (y & Hy & Hr & _). congruence.
  - destruct (fn x) as [l r]. simpl. by rewrite list_lookup_insert_eq.
  - apply lookup_ge_None in Hf. lia.
Qed.

(** Reading the futures in submission order returns what the tasks
    return, in that order, whatever the schedule was. *)
Lemma result_iterator_gather k : ∀ i sched p,
  pool_ok fn xs p →
  (result_iterator fn xs (seq i k) sched p).2
  = gather ((λ x, (fn x).2) <$> take k (drop i xs)).
Proof.
  induction k as [|k IH]; intros i sched p Hp; [done|]. simpl.
  set (p1 := complete fn xs (run_workers fn xs p (hd [] sched)) i).
  assert (pool_ok fn xs p1) as Hp1 by (apply complete_ok, run_workers_ok, Hp).
  destruct (xs !! i) as [x|] eqn:Hx.
  - rewrite (drop_S _ _ _ Hx), firstn_cons, fmap_cons. cbn [gather].
    unfold p1. rewrite (complete_lookup _ _ x) by (by try apply run_workers_ok).
    fold p1. destruct (fn x).2 as [v|e]; [|done].
    specialize (IH (S i) (tl sched) p1 Hp1).
    destruct (result_iterator fn xs (seq (S i) k) (tl sched) p1) as [p2 [vs|e]];
      simpl in IH; by rewrite <- IH.
  - assert (futures p1 !! i = None) as ->.
    { apply lookup_ge_None. destruct Hp1 as [-> _]. by apply lookup_ge_None. }
    rewrite IH by done.
    apply lookup_ge_None in Hx.
    rewrite !drop_ge by lia. by rewrite !take_nil.
Qed.

Lemma executor_map_gather sched :
  (executor_map fn xs sched).2 = gather ((λ x, (fn x).2) <$> xs).
Proof.
  unfold executor_map.
  pose proof (result_iterator_gather (length xs) 0 sched (submit_all xs) submit_all_ok) as H.
  destruct (result_iterator fn xs (seq 0 (length xs)) sched (submit_all xs)) as [p r].
  simpl in *. by rewrite H, drop_0, firstn_all.
Qed.

(** The pool stays well formed, and an exception that surfaces sits in
    a finished future. *)
Lemma result_iterator_pool fs : ∀ sched p,
  pool_ok fn xs p →
  pool_ok fn xs (result_iterator fn xs fs sched p).1 ∧
  ∀ e, (result_iterator fn xs fs sched p).2 = Raise e →
    ∃ i, futures (result_iterator fn xs fs sched p).1 !! i = Some (Some (Raise e)).
Proof.
  induction fs as [|i fs IH]; intros sched p Hp; simpl.
  { split; [by apply run_workers_ok | done]. }
  set (p1 := complete fn xs (run_workers fn xs p (hd [] sched)) i).
  assert (pool_ok fn xs p1) as Hp1 by (apply complete_ok, run_workers_ok, Hp).
  specialize (IH (tl sched) p1 Hp1).
  destruct (futures p1 !! i) as [[[v|e]|]|] eqn:Hf; try done.
  - destruct (result_iterator fn xs fs (tl sched) p1) as [p2 [vs|e]]; simpl in *.
    + split; [apply IH | done].
    + split; [apply IH | apply IH].
  - simpl. split; [by apply run_workers_ok|].
    intros e' [= <-].
    clear IH. revert Hf Hp1. generalize p1. generalize (concat (tl sched)).
    intros done. induction done as [|j done IHd]; intros q Hq Hok; simpl.
    + by exists i.
    + apply IHd; [|by apply complete_ok].
      unfold complete. destruct (xs !! j) as [y|]; [|done].
      destruct (futures q !! j) as [[r0|]|] eqn:Hqj; try done.
      destruct (fn y) as [l r]. simpl.
      rewrite list_lookup_insert_ne; [done|]. intros ->. congruence.
Qed.

(** An exception that leaves [executor.map] was raised by one of the
    tasks, and that task's records are in the log. *)
Lemma executor_map_raise sched e :
  (executor_map fn xs sched).2 = Raise e →
  ∃ x, x ∈ xs ∧ (fn x).2 = Raise e ∧ (fn x).1 ⊆ (executor_map fn xs sched).1.
Proof.
  unfold executor_map.
  pose proof (result_iterator_pool (seq 0 (length xs)) sched (submit_all xs) submit_all_ok)
    as [[_ Hok] Hraise].
  destruct (result_iterator fn xs (seq 0 (length xs)) sched (submit_all xs)) as [p r].
  simpl in *. intros Hr. destruct (Hraise e Hr) as [i Hi].
  destruct (Hok i _ Hi) as (x & Hx & Hfx & Hl).
  exists x. split; [by eapply list_elem_of_lookup_2|done].
Qed.

End ExecutorFacts.

(** ** The decoder *)

Lemma gather_all_ok {E B} (rs : list (result E B)) :
  Forall (λ r, is_ok r = true) rs →
  ∃ vs, gather rs = Ok vs ∧ Forall2 (λ r v, r = Ok v) rs vs.
Proof.
  induction 1 as [|r rs Hr _ (vs & Hvs & Hall)]; simpl.
  - by exists [].
  - destruct r as [v|e]; [|done]. rewrite Hvs. exists (v :: vs).
    split; [done|]. by constructor.
Qed.

Lemma gather_first_raise {E B} (pre post : list (result E B)) (e : E) :
  Forall (λ r, is_ok r = true) pre →
  gather (pre ++ Raise e :: post) = Raise e.
Proof.
  induction 1 as [|r pre Hr _ IH]; simpl; [done|].
  destruct r; [|done]. by rewrite IH.
Qed.

Section DecoderFacts.
Context {lib : Imaging}.

(** The image a file decodes to, by the route the suffix selects. *)
Lemma process_image_result (file : UploadedFile) :
  (process_image file).2 =
  and_then
    (if Str.endswith (Str.lower (name file)) ".heic"
     then and_then (read_heif file) (λ h,
            Image_frombytes (heif_mode h) (heif_size h) (heif_data h)
              "raw" (heif_mode h, heif_stride h))
     else Image_open file)
    (λ im, Ok {| original_name := name file; image := im |}).
Proof.
  unfold process_image, process_heic.
  destruct (Str.endswith (Str.lower (name file)) ".heic"); cbn.
  - destruct (read_heif file) as [h|e]; cbn; [|done].
    by destruct (Image_frombytes _ _ _ _ _).
  - by destruct (Image_open file).
Qed.

Lemma process_image_name (file : UploadedFile) (pim : ProcessedImage) :
  (process_image file).2 = Ok pim → original_name pim = name file.
Proof.
  rewrite process_image_result.
  destruct (if Str.endswith _ _ then _ else _); cbn; [|done].
  by intros [= <-].
Qed.

(** A failed decode leaves one ERROR record that names the file. *)
Lemma process_image_error_record (file : UploadedFile) (e : Exn) :
  (process_image file).2 = Raise e →
  (ERROR, "Error processing " +:+ name file +:+ ": " +:+ exn_str e)
    ∈ (process_image file).1.
Proof.
  unfold process_image, process_heic.
  destruct (Str.endswith (Str.lower (name file)) ".heic"); cbn.
  - destruct (read_heif file) as [h|e']; cbn.
    + destruct (Image_frombytes _ _ _ _ _); cbn; [done|].
      intros [= ->]. set_solver.
    + intros [= ->]. set_solver.
  - destruct (Image_open file); cbn; [done|]. intros [= ->]. set_solver.
Qed.

(** The specialised route, and only it, leaves the DEBUG record of
    [process_heic]. *)
Lemma process_image_heic_record (file : UploadedFile) :
  (DEBUG, "Processing HEIC file: " +:+ name file) ∈ (process_image file).1
  ↔ Str.endswith (Str.lower (name file)) ".heic" = true.
Proof.
  unfold process_image, process_heic.
  destruct (Str.endswith (Str.lower (name file)) ".heic"); cbn.
  - split; [done|]. intros _.
    destruct (read_heif file) as [h|e']; cbn; [|set_solver].
    destruct (Image_frombytes _ _ _ _ _); cbn; set_solver.
  - split; [|done].
    destruct (Image_open file); cbn; rewrite !elem_of_cons, elem_of_nil;
      intros [?|[?|?]]; done.
Qed.

Lemma process_images_parallel_result files sched :
  (process_images_parallel files sched).2
  = gather ((λ f, (process_image f).2) <$> files).
Proof.
  unfold process_images_parallel. cbn.
  pose proof (executor_map_gather process_image files sched) as H.
  destruct (executor_map process_image files sched) as [l r]. by simpl in *.
Qed.

Lemma process_images_parallel_log files sched :
  (executor_map process_image files sched).1
    ⊆ (process_images_parallel files sched).1.
Proof.
  unfold process_images_parallel. cbn.
  destruct (executor_map process_image files sched) as [l r]. set_solver.
Qed.

End DecoderFacts.

(** ** The archive *)

Section ZipFacts.
Import ZipSpec.

Lemma length_le n z : length (Zip.le n z) = n.
Proof. revert z. induction n as [|n IH]; intros z; simpl; [done | by rewrite IH]. Qed.

Lemma length_list_byte_of_string s :
  length (list_byte_of_string s) = String.length s.
Proof. induction s as [|c s IH]; simpl; [done | by rewrite <- IH]. Qed.

Lemma length_FileHeader zi :
  length (Zip.FileHeader zi) = (30 + String.length (Zip.filename zi))%nat.
Proof.
  unfold Zip.FileHeader, Zip.common_fields.
  rewrite !length_app, !length_le, length_list_byte_of_string. done.
Qed.

Lemma read_stored buffer zi data :
  stored_at buffer zi data → Zip.read buffer zi = data.
Proof.
  intros (pre & post & -> & Hoff & Hsize & _). unfold Zip.read.
  rewrite Hoff, Hsize, !Nat2Z.id.
  rewrite <- Nat.add_assoc, <- length_FileHeader.
  rewrite drop_app_add, drop_app_length.
  by rewrite take_app_length.
Qed.

Lemma stored_at_app buffer more zi data :
  stored_at buffer zi data → stored_at (buffer ++ more) zi data.
Proof.
  intros (pre & post & -> & H). exists pre, (post ++ more).
  split; [|done]. by rewrite <- !app_assoc.
Qed.

Lemma holds_members zf ms : holds zf ms → Zip.members zf = ms.
Proof.
  unfold holds, Zip.members. generalize (Zip.fp zf) as buffer.
  intros buffer. induction 1 as [|zi [nm d] zis ms' [Hn Hs] _ IH]; [done|].
  rewrite fmap_cons, IH. simpl in *. by rewrite Hn, (read_stored _ _ d).
Qed.

Lemma holds_open : holds Zip.open_w [].
Proof. constructor. Qed.

(** A member that [writestr] accepts is appended under its name cut at
    the first null byte; the members before it stay. *)
Lemma holds_writestr zf zf' ms now arcname data :
  holds zf ms →
  Zip.writestr zf now arcname data = Ok zf' →
  holds zf' (ms ++ [(Zip.cut_nul arcname, data)]).
Proof.
  unfold holds, Zip.writestr. intros H.
  destruct (Zip.year now <? 1980)%Z; [done|].
  destruct (String.eqb _ EmptyString); [done|].
  destruct (_ && _ && _); [|done]. intros [= <-]. simpl. apply Forall2_app.
  - eapply Forall2_impl; [exact H|]. intros zi m [Hn Hs].
    split; [done|]. by apply stored_at_app.
  - constructor; [|constructor]. split; [done|]. simpl.
    exists (Zip.fp zf), []. rewrite app_nil_r. done.
Qed.

Lemma lor_ushort a b :
  (0 ≤ a < 2 ^ 16 → 0 ≤ b < 2 ^ 16 → 0 ≤ Z.lor a b < 2 ^ 16)%Z.
Proof.
  intros Ha Hb.
  assert (0 ≤ Z.lor a b)%Z as Hx by (apply Z.lor_nonneg; lia).
  split; [done|].
  destruct (Z.eq_dec (Z.lor a b) 0%Z) as [->|Hne]; [lia|].
  apply Z.log2_lt_pow2; [lia|].
  rewrite Z.log2_lor by lia.
  assert (Z.log2 a < 16)%Z
    by (destruct (Z.eq_dec a 0%Z) as [->|]; [simpl; lia | apply Z.log2_lt_pow2; lia]).
  assert (Z.log2 b < 16)%Z
    by (destruct (Z.eq_dec b 0%Z) as [->|]; [simpl; lia | apply Z.log2_lt_pow2; lia]).
  lia.
Qed.

(** A time of the calendar between 1980 and 2107 fits the two 16-bit
    fields of a ZIP time stamp. *)
Lemma calendar_stamps now :
  calendar now →
  (Zip.year now <? 1980)%Z = false
  ∧ Zip.ushort (Zip.dostime now) = true ∧ Zip.ushort (Zip.dosdate now) = true.
Proof.
  intros (Hy & Hm & Hd & Hh & Hmi & Hs).
  split; [apply Z.ltb_ge; lia|].
  assert (∀ z, (0 ≤ z < 2 ^ 16)%Z → Zip.ushort z = true) as Hfit.
  { intros z Hz. unfold Zip.ushort. apply andb_true_iff.
    split; [apply Z.leb_le | apply Z.leb_le]; lia. }
  split; apply Hfit.
  - unfold Zip.dostime. apply lor_ushort; [apply lor_ushort|].
    + rewrite Z.shiftl_mul_pow2 by lia. lia.
    + rewrite Z.shiftl_mul_pow2 by lia. lia.
    + split; [apply Z.div_pos; lia | apply Z.div_lt_upper_bound; lia].
  - unfold Zip.dosdate. apply lor_ushort; [apply lor_ushort|].
    + rewrite Z.shiftl_mul_pow2 by lia. lia.
    + rewrite Z.shiftl_mul_pow2 by lia. lia.
    + lia.
Qed.

(** At such a time [writestr] accepts every plain name that is not
    empty, and stores the member under that name. *)
Lemma writestr_plain zf now arcname data :
  calendar now → plain arcname → arcname ≠ EmptyString →
  ∃ zf', Zip.writestr zf now arcname data = Ok zf'.
Proof.
  intros Hnow [Hcut Hlen] Hne. destruct (calendar_stamps now Hnow) as (Hy & Ht & Hd).
  unfold Zip.writestr. rewrite Hy, Ht, Hd. cbn [Zip.filename]. rewrite Hcut.
  destruct (String.eqb_spec arcname EmptyString) as [|_]; [done|].
  unfold Zip.name_length, Zip.ushort. cbn [Zip.filename].
  destruct (Z.leb_spec 0%Z (Z.of_nat (String.length arcname))); [|lia].
  destruct (Z.leb_spec (Z.of_nat (String.length arcname)) 65535%Z); [|lia].
  by eexists.
Qed.

(** Before 1980 [writestr] refuses every member. *)
Lemma writestr_before_1980 zf now arcname data :
  (Zip.year now < 1980)%Z →
  Zip.writestr zf now arcname data
  = Raise (Zip.ValueError "ZIP does not support timestamps before 1980").
Proof.
  intros Hy. unfold Zip.writestr.
  by destruct (Z.ltb_spec (Zip.year now) 1980%Z); [|lia].
Qed.

(** The names of an archive fit the 16-bit length field. *)
Lemma writestr_names zf zf' now arcname data :
  Zip.writestr zf now arcname data = Ok zf' →
  Forall (λ zi, (Z.of_nat (String.length (Zip.filename zi)) < 2 ^ 16)%Z) (Zip.filelist zf) →
  Forall (λ zi, (Z.of_nat (String.length (Zip.filename zi)) < 2 ^ 16)%Z) (Zip.filelist zf').
Proof.
  unfold Zip.writestr. intros Hw Hall.
  destruct (Zip.year now <? 1980)%Z; [done|].
  destruct (String.eqb _ EmptyString); [done|].
  destruct (Zip.ushort (Zip.dostime now) && Zip.ushort (Zip.dosdate now)); [|done].
  simpl in Hw.
  destruct (Zip.ushort (Zip.name_length _)) eqn:Hn; [|done].
  injection Hw as <-. simpl. apply Forall_app. split; [done|].
  constructor; [|done]. simpl.
  unfold Zip.ushort, Zip.name_length in Hn. simpl in Hn.
  apply andb_true_iff in Hn as [_ Hn]. apply Z.leb_le in Hn. lia.
Qed.

End ZipFacts.

(** ** Reading the archive back *)

Section ReaderFacts.
Import ZipSpec.
Local Open Scope Z_scope.

Lemma to_N_byte_of_Z z : Z.of_N (Byte.to_N (Zip.byte_of_Z z)) = z mod 256.
Proof.
  unfold Zip.byte_of_Z.
  assert (0 <= z mod 256 < 256) as Hr by (apply Z.mod_pos_bound; lia).
  destruct (Byte.of_N (Z.to_N (z mod 256))) as [b|] eqn:Hb.
  - apply Byte.to_of_N in Hb. simpl. rewrite Hb. lia.
  - apply Byte.of_N_None_iff in Hb. lia.
Qed.

Lemma uint_le n z : 0 <= z < 256 ^ Z.of_nat n → Zip.uint (Zip.le n z) = z.
Proof.
  revert z. induction n as [|n IH]; intros z Hz.
  - simpl in *. lia.
  - cbn [Zip.le Zip.uint fold_right].
    change (fold_right _ 0 (Zip.le n (Z.shiftr z 8))) with (Zip.uint (Zip.le n (Z.shiftr z 8))).
    rewrite to_N_byte_of_Z, Z.shiftr_div_pow2 by lia.
    change (2 ^ 8) with 256.
    rewrite IH.
    + pose proof (Z.div_mod z 256). lia.
    + rewrite Nat2Z.inj_succ, Z.pow_succ_r in Hz by lia.
      split; [apply Z.div_pos; lia|]. apply Z.div_lt_upper_bound; lia.
Qed.

Lemma lxor_bound n a b :
  0 <= n → 0 <= a < 2 ^ n → 0 <= b < 2 ^ n → 0 <= Z.lxor a b < 2 ^ n.
Proof.
  intros Hn Ha Hb.
  assert (0 <= Z.lxor a b) as Hx by (apply Z.lxor_nonneg; lia).
  split; [done|].
  destruct (Z.eq_dec (Z.lxor a b) 0) as [->|Hne]; [lia|].
  assert (0 < n) as Hpos.
  { destruct (Z.eq_dec n 0) as [->|]; [|lia].
    assert (a = 0) as -> by (simpl in Ha; lia).
    assert (b = 0) as -> by (simpl in Hb; lia). done. }
  apply Z.log2_lt_pow2; [lia|].
  pose proof (Z.log2_lxor a b ltac:(lia) ltac:(lia)) as Hl.
  assert (Z.log2 a < n) by (destruct (Z.eq_dec a 0) as [->|]; [simpl; lia| apply Z.log2_lt_pow2; lia]).
  assert (Z.log2 b < n) by (destruct (Z.eq_dec b 0) as [->|]; [simpl; lia| apply Z.log2_lt_pow2; lia]).
  lia.
Qed.

Lemma crc_shift_bound c : 0 <= c < 2 ^ 32 → 0 <= Zip.crc_shift c < 2 ^ 32.
Proof.
  intros Hc. unfold Zip.crc_shift.
  assert (0 <= Z.shiftr c 1 < 2 ^ 32).
  { rewrite Z.shiftr_div_pow2 by lia. split; [apply Z.div_pos; lia|].
    apply Z.div_lt_upper_bound; lia. }
  destruct (Z.testbit c 0); [|done].
  apply lxor_bound; lia.
Qed.

Lemma crc_update_bound c b : 0 <= c < 2 ^ 32 → 0 <= Zip.crc_update c b < 2 ^ 32.
Proof.
  intros Hc. unfold Zip.crc_update.
  assert (0 <= Z.lxor c (Z.of_N (Byte.to_N b)) < 2 ^ 32) as H0.
  { apply lxor_bound; [lia|done|].
    pose proof (Byte.to_N_bounded b). lia. }
  revert H0. generalize (Z.lxor c (Z.of_N (Byte.to_N b))). intros x Hx.
  do 8 (apply crc_shift_bound in Hx). exact Hx.
Qed.

Lemma crc32_bound data : 0 <= Zip.crc32 data < 2 ^ 32.
Proof.
  unfold Zip.crc32.
  assert (forall c, 0 <= c < 2 ^ 32 → 0 <= fold_left Zip.crc_update data c < 2 ^ 32) as H.
  { induction data as [|b data IH]; intros c Hc; [done|].
    simpl. apply IH, crc_update_bound, Hc. }
  apply lxor_bound; [lia| apply H; lia | lia].
Qed.

Local Close Scope Z_scope.

Lemma slice_shift (a l : bytes) p n :
  Zip.slice (a ++ l) (length a + p) n = Zip.slice l p n.
Proof. unfold Zip.slice. by rewrite drop_app_add. Qed.

Lemma slice_here (a l : bytes) n :
  Zip.slice (a ++ l) (length a) n = Zip.slice l 0 n.
Proof. by rewrite <- (slice_shift a l 0 n), Nat.add_0_r. Qed.

Lemma field_le buffer pos k z :
  Zip.slice buffer pos k = Zip.le k z → (0 ≤ z < 256 ^ Z.of_nat k)%Z →
  Zip.field buffer pos k = Z.to_nat z.
Proof. intros Hs Hz. unfold Zip.field. by rewrite Hs, uint_le. Qed.

Lemma length_central_header zi :
  length (Zip.central_header zi) = (46 + String.length (Zip.filename zi))%nat.
Proof.
  unfold Zip.central_header, Zip.common_fields.
  rewrite !length_app, !length_le, length_list_byte_of_string. done.
Qed.

(** The fields the reader takes from a central directory entry. *)
Lemma central_header_fields (a rest : bytes) zi :
  let buffer := a ++ Zip.central_header zi ++ rest in
  Zip.slice buffer (length a) 4 = [x50; x4b; x01; x02]
  ∧ Zip.slice buffer (length a + 16) 4 = Zip.le 4 (Zip.CRC zi)
  ∧ Zip.slice buffer (length a + 24) 4 = Zip.le 4 (Zip.file_size zi)
  ∧ Zip.slice buffer (length a + 28) 2 = Zip.le 2 (Zip.name_length zi)
  ∧ Zip.slice buffer (length a + 30) 2 = Zip.le 2 0
  ∧ Zip.slice buffer (length a + 32) 2 = Zip.le 2 0
  ∧ Zip.slice buffer (length a + 42) 4 = Zip.le 4 (Zip.header_offset zi)
  ∧ Zip.slice buffer (length a + 46) (String.length (Zip.filename zi))
    = list_byte_of_string (Zip.filename zi).
Proof.
  intros buffer. unfold buffer. rewrite slice_here, !slice_shift.
  repeat (split; [reflexivity|]).
  unfold Zip.central_header, Zip.common_fields, Zip.slice. cbn [Zip.le app drop].
  rewrite <- length_list_byte_of_string. apply take_app_length.
Qed.

(** The fields the reader takes from a local header. *)
Lemma file_header_fields (pre rest : bytes) zi :
  let buffer := pre ++ Zip.FileHeader zi ++ rest in
  Zip.slice buffer (length pre) 4 = [x50; x4b; x03; x04]
  ∧ Zip.slice buffer (length pre + 26) 2 = Zip.le 2 (Zip.name_length zi)
  ∧ Zip.slice buffer (length pre + 28) 2 = Zip.le 2 0.
Proof.
  intros buffer. unfold buffer. rewrite slice_here, !slice_shift.
  repeat split; reflexivity.
Qed.

Lemma read_entry_stored buffer (a rest : bytes) zi data :
  buffer = a ++ Zip.central_header zi ++ rest →
  stored_at buffer zi data →
  (Z.of_nat (length buffer) < 2 ^ 31)%Z →
  (Z.of_nat (String.length (Zip.filename zi)) < 2 ^ 16)%Z →
  Zip.read_entry buffer (length a)
  = Some ((Zip.filename zi, data),
          (length a + 46 + String.length (Zip.filename zi))%nat).
Proof.
  intros Hdir (pre & post & Hloc & Hoff & Hsize & Hcrc) Hlen Hname.
  assert (length pre + length data ≤ length buffer)%nat as Hfit.
  { rewrite Hloc, !length_app. lia. }
  destruct (central_header_fields a rest zi)
    as (Hsig & Hc & Hs & Hn & Hx & Hk & Ho & Hnm).
  rewrite <- Hdir in Hsig, Hc, Hs, Hn, Hx, Hk, Ho, Hnm.
  destruct (file_header_fields pre (data ++ post) zi) as (Lsig & Ln & Lx).
  rewrite <- Hloc in Lsig, Ln, Lx.
  assert (Zip.field buffer (length a + 28) 2 = String.length (Zip.filename zi)) as Fn.
  { rewrite (field_le _ _ _ _ Hn); unfold Zip.name_length; [lia|]. simpl. lia. }
  assert (Zip.field buffer (length a + 30) 2 = 0%nat) as Fx
    by (by rewrite (field_le _ _ _ _ Hx)).
  assert (Zip.field buffer (length a + 32) 2 = 0%nat) as Fk
    by (by rewrite (field_le _ _ _ _ Hk)).
  assert (Zip.field buffer (length a + 42) 4 = length pre) as Fo.
  { rewrite (field_le _ _ _ _ Ho); rewrite Hoff; [lia|]. simpl. lia. }
  assert (Zip.field buffer (length a + 24) 4 = length data) as Fs.
  { rewrite (field_le _ _ _ _ Hs); rewrite Hsize; [lia|]. simpl. lia. }
  assert (Zip.field buffer (length pre + 26) 2 = String.length (Zip.filename zi)) as Gn.
  { rewrite (field_le _ _ _ _ Ln); unfold Zip.name_length; [lia|]. simpl. lia. }
  assert (Zip.field buffer (length pre + 28) 2 = 0%nat) as Gx
    by (by rewrite (field_le _ _ _ _ Lx)).
  unfold Zip.read_entry.
  rewrite Fn, Fx, Fk, Fo, Fs, Gn, Gx, Hsig, Lsig, Hc, Hnm.
  rewrite decide_True by done. rewrite decide_True by done.
  assert (Zip.slice buffer (length pre + 30 + String.length (Zip.filename zi) + 0)
            (length data) = data) as ->.
  { rewrite Nat.add_0_r, <- Nat.add_assoc, <- length_FileHeader, <- length_app.
    rewrite Hloc, app_assoc, slice_here. unfold Zip.slice. simpl.
    apply take_app_length. }
  rewrite uint_le by (rewrite Hcrc; apply crc32_bound).
  rewrite decide_True by done.
  by rewrite string_of_list_byte_of_string, !Nat.add_0_r.
Qed.

Lemma read_directory_stored buffer : ∀ zis ms (a rest : bytes),
  Forall2 (λ zi m, Zip.filename zi = m.1 ∧ stored_at buffer zi m.2) zis ms →
  buffer = a ++ concat (Zip.central_header <$> zis) ++ rest →
  (Z.of_nat (length buffer) < 2 ^ 31)%Z →
  Forall (λ zi, (Z.of_nat (String.length (Zip.filename zi)) < 2 ^ 16)%Z) zis →
  Zip.read_directory buffer (length zis) (length a) = Some ms.
Proof.
  induction zis as [|zi zis IH]; intros ms a rest Hms Hbuf Hlen Hnames.
  { by apply Forall2_nil_inv_l in Hms as ->. }
  apply Forall2_cons_inv_l in Hms as ([nm data] & ms' & [Hnm Hst] & Hms & ->).
  apply Forall_cons in Hnames as [Hname Hnames].
  simpl in Hnm, Hst. subst nm.
  rewrite fmap_cons in Hbuf. simpl in Hbuf. rewrite <- app_assoc in Hbuf.
  cbn [length Zip.read_directory].
  rewrite (read_entry_stored buffer a _ zi data Hbuf Hst Hlen Hname).
  rewrite <- Nat.add_assoc, <- length_central_header, <- length_app.
  rewrite (IH ms' (a ++ Zip.central_header zi) rest); try done.
  by rewrite <- app_assoc.
Qed.

(** Reading back a closed archive gives the members it holds. *)
Lemma extract_close zf ms :
  holds zf ms → within_limits zf → Zip.extract (Zip.close zf) = Some ms.
Proof.
  intros Hms (Hcount & Hlen & Hnames).
  set (dir := concat (Zip.central_header <$> Zip.filelist zf)).
  set (tail := Zip.end_record (Z.of_nat (length (Zip.filelist zf)))
                 (Z.of_nat (length dir)) (Z.of_nat (length (Zip.fp zf)))).
  assert (Zip.close zf = (Zip.fp zf ++ dir) ++ tail) as Hclose
    by (unfold Zip.close; by rewrite <- app_assoc).
  assert (length tail = 22%nat) as Htail by done.
  assert (length (Zip.close zf) - 22 = length (Zip.fp zf ++ dir))%nat as He.
  { rewrite Hclose, (length_app _ tail), Htail. lia. }
  assert (Z.of_nat (length (Zip.fp zf)) < 2 ^ 31)%Z as Hfp.
  { rewrite Hclose, !length_app in Hlen. lia. }
  assert (Zip.slice (Zip.close zf) (length (Zip.fp zf ++ dir)) 4
          = [x50; x4b; x05; x06]) as Hsig
    by (by rewrite Hclose, slice_here).
  assert (Zip.field (Zip.close zf) (length (Zip.fp zf ++ dir) + 10) 2
          = length (Zip.filelist zf)) as Hn.
  { unfold Zip.field. rewrite Hclose, slice_shift.
    change (Zip.slice tail 10 2) with (Zip.le 2 (Z.of_nat (length (Zip.filelist zf)))).
    rewrite uint_le, Nat2Z.id by (simpl; lia). done. }
  assert (Zip.field (Zip.close zf) (length (Zip.fp zf ++ dir) + 16) 4
          = length (Zip.fp zf)) as Ho.
  { unfold Zip.field. rewrite Hclose, slice_shift.
    change (Zip.slice tail 16 4) with (Zip.le 4 (Z.of_nat (length (Zip.fp zf)))).
    rewrite uint_le, Nat2Z.id by (simpl; lia). done. }
  unfold Zip.extract. rewrite He, Hsig, Hn, Ho.
  rewrite decide_True by (rewrite Hclose, (length_app _ tail), Htail; lia).
  rewrite decide_True by done.
  apply (read_directory_stored _ _ _ _ tail); [|by unfold Zip.close|done|done].
  unfold holds in Hms. eapply Forall2_impl; [exact Hms|].
  intros zi m [? Hst]. split; [done|].
  unfold Zip.close. by apply stored_at_app.
Qed.

End ReaderFacts.


(** ** The encoder and the archive builder *)

Section ConverterFacts.
Context {lib : Imaging}.
Import ZipSpec.

Lemma convert_to_buffer_eq (pim : ProcessedImage) (target_format : string) :
  convert_to_buffer pim target_format =
  ([], and_then (Image_save (image pim) target_format)
         (λ data, Ok (member_name (original_name pim) target_format, data))).
Proof.
  unfold convert_to_buffer, member_name. cbn.
  by destruct (Image_save (image pim) target_format).
Qed.

Lemma as_completed_once n sched : as_completed n sched ≡ₚ seq 0 n.
Proof.
  unfold as_completed.
  set (first := remove_dups (filter (λ i, i < n)%nat sched)).
  assert (∀ i, i ∈ first → i < n)%nat as Hfirst.
  { intros i. unfold first.
    rewrite elem_of_remove_dups, list_elem_of_filter. tauto. }
  apply NoDup_Permutation.
  - apply NoDup_app. split; [apply NoDup_remove_dups|]. split.
    + intros i Hi. rewrite list_elem_of_filter. tauto.
    + apply NoDup_filter, NoDup_seq.
  - apply NoDup_seq.
  - intros i. rewrite elem_of_app, list_elem_of_filter, elem_of_seq. split.
    + intros [Hi|[_ Hi]]; [apply Hfirst in Hi|]; lia.
    + intros Hi. destruct (decide (i ∈ first)); [by left | by right].
Qed.

Lemma omap_lookup_seq {A B} (f : A → option B) (l : list A) : ∀ pre,
  omap (λ i, (pre ++ l) !! i ≫= f) (seq (length pre) (length l)) = omap f l.
Proof.
  induction l as [|x l IH]; intros pre; [done|]. simpl.
  rewrite list_lookup_middle by done. simpl.
  specialize (IH (pre ++ [x])).
  rewrite length_app, Nat.add_1_r, <- app_assoc in IH. simpl in IH.
  destruct (f x); [f_equal|]; apply IH.
Qed.

Lemma omap_lookup_order {A B} (f : A → option B) (l : list A) (order : list nat) :
  order ≡ₚ seq 0 (length l) → omap (λ i, l !! i ≫= f) order ≡ₚ omap f l.
Proof. intros ->. by rewrite <- (omap_lookup_seq f l []). Qed.

(** With times of the calendar and writable names the loop appends one member per future that returned, in the
    order the futures are handed out, and nothing else. *)
Lemma write_completed_holds futures clock order : ∀ k zf ms,
  (∀ k, calendar (clock k)) → writable futures →
  holds zf ms →
  holds (write_completed futures clock k order zf).2
    (ms ++ omap (λ i, futures !! i ≫= written) order).
Proof.
  induction order as [|i order IH]; intros k zf ms Hclock Hnames Hzf; simpl.
  { by rewrite app_nil_r. }
  destruct (futures !! i) as [[l0 [[nm d]|e]]|] eqn:Hi; simpl.
  - destruct (Forall_lookup_1 _ _ _ _ Hnames Hi nm d eq_refl) as [Hplain Hne].
    destruct (writestr_plain zf (clock k) nm d (Hclock k) Hplain Hne) as [zf1 Hw].
    rewrite Hw.
    pose proof (holds_writestr zf zf1 ms (clock k) nm d Hzf Hw) as Hzf1.
    rewrite (proj1 Hplain) in Hzf1.
    specialize (IH (S k) _ _ Hclock Hnames Hzf1).
    destruct (write_completed futures clock (S k) order _) as [l' zf'].
    unfold written at 1. simpl in *. by rewrite <- app_assoc in IH.
  - specialize (IH (S k) _ _ Hclock Hnames Hzf).
    by destruct (write_completed futures clock (S k) order zf) as [l' zf'].
  - specialize (IH (S k) _ _ Hclock Hnames Hzf).
    by destruct (write_completed futures clock (S k) order zf) as [l' zf'].
Qed.

(** The names the loop writes fit the 16-bit length field, whatever
    the times and the names it is given. *)
Lemma write_completed_names futures clock order : ∀ k zf,
  Forall (λ zi, (Z.of_nat (String.length (Zip.filename zi)) < 2 ^ 16)%Z) (Zip.filelist zf) →
  Forall (λ zi, (Z.of_nat (String.length (Zip.filename zi)) < 2 ^ 16)%Z)
    (Zip.filelist (write_completed futures clock k order zf).2).
Proof.
  induction order as [|i order IH]; intros k zf Hzf; simpl; [done|].
  destruct (futures !! i) as [[l0 [[nm d]|e]]|] eqn:Hi; simpl.
  - destruct (Zip.writestr zf (clock k) nm d) as [zf1|e] eqn:Hw.
    + specialize (IH (S k) zf1 (writestr_names _ _ _ _ _ Hw Hzf)).
      by destruct (write_completed futures clock (S k) order zf1) as [l' zf'].
    + specialize (IH (S k) zf Hzf).
      by destruct (write_completed futures clock (S k) order zf) as [l' zf'].
  - specialize (IH (S k) zf Hzf).
    by destruct (write_completed futures clock (S k) order zf) as [l' zf'].
  - specialize (IH (S k) zf Hzf).
    by destruct (write_completed futures clock (S k) order zf) as [l' zf'].
Qed.

(** A future that raised leaves an ERROR record with the text of its
    exception. *)
Lemma write_completed_error futures clock order i l0 e : ∀ k zf,
  i ∈ order → futures !! i = Some (l0, Raise e) →
  (ERROR, "Error adding file to ZIP: " +:+ exn_str e)
    ∈ (write_completed futures clock k order zf).1.
Proof.
  induction order as [|j order IH]; intros k zf Hin Hi; [by apply elem_of_nil in Hin|].
  simpl. apply elem_of_cons in Hin as [Heq|Hin].
  - subst j. unfold Py in *. rewrite Hi.
    destruct (write_completed futures clock (S k) order zf) as [l' zf'].
    set_solver.
  - specialize (IH (S k)).
    destruct (futures !! j) as [[l1 [[nm d]|e1]]|];
      try destruct (Zip.writestr zf (clock k) nm d) as [zf1|e1];
      match goal with
      | |- context [write_completed futures clock (S k) order ?z] =>
          specialize (IH z Hin Hi);
          destruct (write_completed futures clock (S k) order z) as [l' zf']
      end; set_solver.
Qed.

(** The loop itself logs at DEBUG and ERROR only. *)
Lemma write_completed_levels futures clock order : ∀ k zf,
  Forall (λ f, f.1 = []) futures →
  Forall (λ r, r.1 = DEBUG ∨ r.1 = ERROR) (write_completed futures clock k order zf).1.
Proof.
  induction order as [|i order IH]; intros k zf Hf; simpl; [constructor|].
  assert (∀ f, futures !! i = Some f → f.1 = []) as Hl.
  { intros f Hi. by eapply (Forall_lookup_1 _ _ _ _ Hf). }
  match goal with
  | |- context [match ?t with Some _ => _ | None => _ end] =>
      destruct t as [[l0 [[nm d]|e]]|] eqn:Hi
  end;
    try (specialize (Hl _ Hi); simpl in Hl; subst l0); simpl;
    try destruct (Zip.writestr zf (clock k) nm d) as [zf1|e1];
    match goal with
    | |- context [write_completed futures clock (S k) order ?z] =>
        specialize (IH (S k) z Hf);
        destruct (write_completed futures clock (S k) order z) as [l' zf']
    end; simpl in *;
    [constructor; [by left|done] | constructor; [by right|done]
     | constructor; [by right|done] | done].
Qed.

Lemma member_name_nonempty (original target_format : string) :
  member_name original target_format ≠ EmptyString.
Proof.
  unfold member_name. intros H. apply (f_equal String.length) in H.
  rewrite !length_append in H. simpl in H. lia.
Qed.

(** The futures of a batch whose member names are plain can all be
    written. *)
Lemma writable_plain images target_format :
  Forall (λ img, plain (member_name (original_name img) target_format)) images →
  writable ((λ img, convert_to_buffer img target_format) <$> images).
Proof.
  intros Hall. apply Forall_fmap. eapply Forall_impl; [exact Hall|].
  intros img Hplain nm d. simpl. rewrite convert_to_buffer_eq. simpl.
  destruct (Image_save (image img) target_format); [|done].
  simpl. intros [= <- _]. split; [done | apply member_name_nonempty].
Qed.

Lemma zip_written_holds images target_format sched clock :
  (∀ k, calendar (clock k)) →
  Forall (λ img, plain (member_name (original_name img) target_format)) images →
  ∃ ms,
    holds (zip_written images target_format sched clock).2 ms
    ∧ ms ≡ₚ omap (λ img, written (convert_to_buffer img target_format)) images.
Proof.
  intros Hclock Hnames. unfold zip_written.
  set (futures := (λ img, convert_to_buffer img target_format) <$> images).
  exists (omap (λ i, futures !! i ≫= written) (as_completed (length futures) sched)).
  split.
  - apply (write_completed_holds futures clock _ 0 Zip.open_w [] Hclock
             (writable_plain _ _ Hnames) holds_open).
  - rewrite (omap_lookup_order written futures) by apply as_completed_once.
    unfold futures. clear. induction images as [|img images IH]; [done|].
    cbn. destruct (written _); by rewrite IH.
Qed.

(** [create_zip] returns: it closes the archive that the loop wrote. *)
Lemma create_zip_result images target_format sched clock :
  (create_zip images target_format sched clock).2
  = Ok (Zip.close (zip_written images target_format sched clock).2).
Proof.
  unfold create_zip. cbn.
  by destruct (zip_written images target_format sched clock).
Qed.

Lemma create_zip_log images target_format sched clock :
  (create_zip images target_format sched clock).1
  = (INFO, "Creating ZIP with " +:+ pretty (length images) +:+ " images in "
           +:+ target_format +:+ " format")
    :: (zip_written images target_format sched clock).1
    ++ [(SUCCESS, "ZIP file created successfully")].
Proof.
  unfold create_zip. cbn.
  by destruct (zip_written images target_format sched clock).
Qed.

End ConverterFacts.

(** ** Path.stem on an ordinary file name *)

Section StemFacts.

Lemma rfind_app (c : ascii) (a b : string) :
  Str.rfind c (a +:+ b) =
  match Str.rfind c b with
  | Some i => Some (String.length a + i)%nat
  | None => Str.rfind c a
  end.
Proof.
  induction a as [|x a IH].
  - change (EmptyString +:+ b) with b. by destruct (Str.rfind c b).
  - change (String x a +:+ b) with (String x (a +:+ b)). simpl.
    rewrite IH. by destruct (Str.rfind c b), (Str.rfind c a).
Qed.

Lemma split_absent (sep : ascii) (s : string) :
  Str.rfind sep s = None → Str.split sep s = [s].
Proof.
  induction s as [|x s IH]; simpl; [done|].
  destruct (Str.rfind sep s); [done|].
  destruct (Ascii.eqb x sep); [done|]. intros _. by rewrite IH.
Qed.

Lemma substring_prefix (a b : string) :
  substring 0 (String.length a) (a +:+ b) = a.
Proof.
  induction a as [|x a IH]; [by destruct b|].
  change (String x a +:+ b) with (String x (a +:+ b)). simpl. by rewrite IH.
Qed.

(** A name "base.ext" without directories, with a non-empty base and a
    non-empty extension that has no further dot, loses exactly ".ext". *)
Lemma stem_strips_extension (base ext : string) :
  base ≠ EmptyString → ext ≠ EmptyString →
  Str.rfind "/" base = None → Str.rfind "/" ext = None →
  Str.rfind "." ext = None →
  Path.stem (base +:+ "." +:+ ext) = base.
Proof.
  intros Hbase Hext Hb He Hdot.
  assert (0 < String.length base)%nat by (destruct base; [done | simpl; lia]).
  assert (0 < String.length ext)%nat by (destruct ext; [done | simpl; lia]).
  assert (String.length (base +:+ "." +:+ ext)
          = String.length base + S (String.length ext))%nat as Hlen
    by (by rewrite !length_append).
  assert (Path.name (base +:+ "." +:+ ext) = base +:+ "." +:+ ext) as Hname.
  { unfold Path.name, Path.parts. rewrite split_absent.
    - rewrite filter_cons_True; [done|].
      split; intros Heq; apply (f_equal String.length) in Heq;
        rewrite Hlen in Heq; simpl in Heq; lia.
    - rewrite !rfind_app, He. by rewrite Hb. }
  unfold Path.stem. rewrite Hname, !rfind_app, Hdot, Hlen.
  cbn [Str.rfind Ascii.eqb Bool.eqb String.length].
  rewrite Nat.add_0_r.
  destruct (Nat.ltb_spec 0 (String.length base)); [|lia].
  destruct (Nat.ltb_spec (String.length base)
              (String.length base + S (String.length ext) - 1)); [|lia].
  simpl. apply substring_prefix.
Qed.

Example stem_examples :
  Path.stem "photo.HEIC" = "photo"
  ∧ Path.stem "archive.tar.gz" = "archive.tar"
  ∧ Path.stem ".bashrc" = ".bashrc"
  ∧ Path.stem "holiday/photo.png" = "photo"
  ∧ Path.stem "noext" = "noext".
Proof. repeat split. Qed.

End StemFacts.

(** ** The page and its cache *)

Section PageFacts.
Context {lib : Imaging}.

Lemma encode_passes_app l1 l2 :
  encode_passes (l1 ++ l2) = (encode_passes l1 + encode_passes l2)%nat.
Proof. unfold encode_passes. by rewrite filter_app, length_app. Qed.

Lemma encode_passes_other l :
  Forall (λ r, r.1 ≠ INFO ∨ Str.startswith r.2 "Creating ZIP with " = false) l →
  encode_passes l = 0%nat.
Proof.
  unfold encode_passes. induction 1 as [|r l Hr _ IH]; [done|].
  rewrite filter_cons_False; [done|].
  intros [? ?]. destruct Hr; congruence.
Qed.

Lemma encode_passes_create_zip images target_format sched clock :
  encode_passes (create_zip images target_format sched clock).1 = 1%nat.
Proof.
  rewrite create_zip_log.
  change (?x :: ?l ++ ?t) with ([x] ++ l ++ t). rewrite !encode_passes_app.
  rewrite (encode_passes_other (zip_written _ _ _ _).1).
  - unfold encode_passes. rewrite filter_cons_True by (split; reflexivity).
    by rewrite filter_cons_False by (by intros [? ?]).
  - unfold zip_written.
    eapply Forall_impl; [apply write_completed_levels|].
    + apply Forall_fmap, Forall_forall. intros img _. simpl.
      by rewrite convert_to_buffer_eq.
    + intros r [Hr|Hr]; left; by rewrite Hr.
Qed.

Lemma downloads_app pg1 pg2 : downloads (pg1 ++ pg2) = downloads pg1 ++ downloads pg2.
Proof. apply omap_app. Qed.

Lemma downloads_draw images : ∀ idx, downloads (draw_images idx images).1 = [].
Proof.
  induction images as [|im images IH]; intros idx; simpl; [done|].
  destruct (st_image_encode (image im)); [|done].
  specialize (IH (S idx)). by destruct (draw_images (S idx) images).
Qed.

Lemma downloads_gallery images : downloads (gallery images).1 = [].
Proof.
  unfold gallery. pose proof (downloads_draw images 0) as H.
  by destruct (draw_images 0 images).
Qed.

(** The loop of the gallery on images that can all be encoded. *)
Lemma draw_images_ok images : ∀ idx,
  Forall (λ im, is_ok (st_image_encode (image im)) = true) images →
  draw_images idx images
  = (imap (λ i im, st_image ((idx + i) mod 3) (image im) (original_name im)) images,
     None).
Proof.
  induction images as [|im images IH]; intros idx Hall; [done|].
  apply Forall_cons in Hall as [Him Hall]. simpl.
  destruct (st_image_encode (image im)); [|done].
  rewrite (IH (S idx) Hall), Nat.add_0_r. f_equal. f_equal.
  apply imap_ext. intros i x _. simpl. by rewrite Nat.add_succ_r.
Qed.

(** The loop of the gallery up to the first image that cannot be
    encoded. *)
Lemma draw_images_raise pre bad post e : ∀ idx,
  Forall (λ im, is_ok (st_image_encode (image im)) = true) pre →
  st_image_encode (image bad) = Raise e →
  draw_images idx (pre ++ bad :: post)
  = (imap (λ i im, st_image ((idx + i) mod 3) (image im) (original_name im)) pre,
     Some e).
Proof.
  induction pre as [|im pre IH]; intros idx Hall Hbad; simpl.
  { by rewrite Hbad. }
  apply Forall_cons in Hall as [Him Hall].
  destruct (st_image_encode (image im)); [|done].
  rewrite (IH (S idx) Hall Hbad), Nat.add_0_r. f_equal. f_equal.
  apply imap_ext. intros i x _. simpl. by rewrite Nat.add_succ_r.
Qed.

(** The gallery ends in an exception exactly when one of its images
    cannot be encoded: the exception is that of the first such image. *)
Lemma draw_images_error images e : ∀ idx,
  (draw_images idx images).2 = Some e →
  ∃ pre bad post,
    images = pre ++ bad :: post
    ∧ Forall (λ im, is_ok (st_image_encode (image im)) = true) pre
    ∧ st_image_encode (image bad) = Raise e.
Proof.
  induction images as [|im images IH]; intros idx; simpl; [done|].
  destruct (st_image_encode (image im)) as [[]|e'] eqn:Him.
  - specialize (IH (S idx)). destruct (draw_images (S idx) images) as [drawn raised].
    simpl in *. intros Hr. destruct (IH Hr) as (pre & bad & post & -> & Hpre & Hbad).
    exists (im :: pre), bad, post. split; [done|]. split; [|done].
    constructor; [by rewrite Him | done].
  - simpl. intros [= ->]. by exists [], im, images.
Qed.

Lemma gallery_snd images : (gallery images).2 = (draw_images 0 images).2.
Proof. unfold gallery. by destruct (draw_images 0 images). Qed.

Lemma gallery_error_ok w images :
  (show_processed w = true →
   Forall (λ im, is_ok (st_image_encode (image im)) = true) images) →
  gallery_error w images = None.
Proof.
  unfold gallery_error. destruct (show_processed w); [|done]. intros Hall.
  by rewrite gallery_snd, (draw_images_ok images 0 (Hall eq_refl)).
Qed.

(** The gallery ends the run: the cache step is not reached, nothing
    is built or offered, the session is left alone. *)
Lemma show_results_dies env w s images e :
  processed_images s = Some images →
  gallery_error w images = Some e →
  session (show_results env w s) = s
  ∧ downloads (page (show_results env w s)) = []
  ∧ encode_passes (log (show_results env w s)) = 0%nat
  ∧ outcome (show_results env w s) = Uncaught e.
Proof.
  intros Himg Hdie. unfold show_results. rewrite Himg, Hdie.
  unfold gallery_error in Hdie.
  destruct (show_processed w); [|done]. cbn [session page log outcome].
  by rewrite !downloads_app, downloads_gallery.
Qed.

(** The cache step on a miss: the archive is built once, stored under
    the label and offered for download. *)
Lemma show_results_miss env w s images :
  processed_images s = Some images →
  gallery_error w images = None →
  zip_cache s !! target_format w = None →
  let zip_data := Zip.close (zip_written images (target_format w)
                               (encode_order env) (localtime env)).2 in
  session (show_results env w s)
    = {| processed_images := processed_images s;
         last_files_processed := last_files_processed s;
         last_format := last_format s;
         zip_cache := <[target_format w := zip_data]> (zip_cache s) |}
  ∧ downloads (page (show_results env w s)) = [zip_data]
  ∧ encode_passes (log (show_results env w s)) = 1%nat
  ∧ outcome (show_results env w s) = Finished.
Proof.
  intros Himg Hgal Hmiss. unfold show_results. rewrite Himg, Hgal, Hmiss.
  pose proof (create_zip_result images (target_format w) (encode_order env) (localtime env)) as Hres.
  pose proof (encode_passes_create_zip images (target_format w) (encode_order env) (localtime env)) as Hn.
  destruct (create_zip images (target_format w) (encode_order env) (localtime env)) as [l r].
  simpl in Hres, Hn. subst r.
  destruct (show_processed w); cbn [session page log outcome];
    rewrite !downloads_app, ?downloads_gallery, !encode_passes_app, Hn; done.
Qed.

(** The cache step on a hit: the stored archive is offered again,
    nothing is built, the session is left alone. *)
Lemma show_results_hit env w s images zip_data :
  processed_images s = Some images →
  gallery_error w images = None →
  zip_cache s !! target_format w = Some zip_data →
  session (show_results env w s) = s
  ∧ downloads (page (show_results env w s)) = [zip_data]
  ∧ encode_passes (log (show_results env w s)) = 0%nat
  ∧ outcome (show_results env w s) = Finished.
Proof.
  intros Himg Hgal Hhit. unfold show_results. rewrite Himg, Hgal, Hhit.
  destruct (show_processed w); cbn [session page log outcome];
    rewrite !downloads_app, ?downloads_gallery, ?encode_passes_app; done.
Qed.

Lemma show_results_none env w s :
  processed_images s = None →
  show_results env w s = {| session := s; log := []; page := []; outcome := Finished |}.
Proof. intros H. unfold show_results. by rewrite H. Qed.

(** A run on an unchanged input set and format goes straight to the
    results. *)
Lemma render_steady env w s :
  uploaded_files w ≠ [] →
  needs_processing s (uploaded_files w) (target_format w) = false →
  render_image_converter env w (Some s)
  = after [(INFO, "Rendering image converter page")] [st_title "Image Converter"]
      (show_results env w s).
Proof.
  intros Hfiles Hsteady. unfold render_image_converter, init_session.
  destruct (uploaded_files w); [done|]. by rewrite Hsteady.
Qed.

(** A run that finds the input set or the format changed empties the
    cache and offers no download. *)
Lemma render_changed env w s :
  uploaded_files w ≠ [] →
  needs_processing s (uploaded_files w) (target_format w) = true →
  zip_cache (session (render_image_converter env w (Some s))) = ∅
  ∧ downloads (page (render_image_converter env w (Some s))) = []
  ∧ (outcome (render_image_converter env w (Some s)) = Rerun
     ∨ processed_images (session (render_image_converter env w (Some s))) = None).
Proof.
  intros Hfiles Hchanged. unfold render_image_converter, init_session.
  destruct (uploaded_files w) as [|f fs] eqn:Hw; [done|]. rewrite Hchanged.
  destruct (convert_all w).
  - destruct (process_images_parallel (f :: fs) (decode_order env)) as [l [images|e]];
      simpl; auto.
  - rewrite show_results_none by done. simpl. auto.
Qed.

Lemma needs_processing_format s files target_format :
  last_format s ≠ Some target_format →
  needs_processing s files target_format = true.
Proof.
  intros Hne. unfold needs_processing.
  destruct (processed_images s); [|done].
  destruct (last_files_processed s); [|done].
  rewrite bool_decide_eq_false_2 by congruence.
  by rewrite orb_true_r.
Qed.

(** A decode that fails under "Convert All" ends the run with the
    exception uncaught; the session is left without a batch and with an
    empty cache. *)
Lemma render_decode_failure env w s e :
  uploaded_files w ≠ [] →
  needs_processing s (uploaded_files w) (target_format w) = true →
  convert_all w = true →
  (process_images_parallel (uploaded_files w) (decode_order env)).2 = Raise e →
  outcome (render_image_converter env w (Some s)) = Uncaught e
  ∧ processed_images (session (render_image_converter env w (Some s))) = None
  ∧ zip_cache (session (render_image_converter env w (Some s))) = ∅
  ∧ downloads (page (render_image_converter env w (Some s))) = [].
Proof.
  intros Hfiles Hn Hclick Hraise. unfold render_image_converter, init_session.
  destruct (uploaded_files w) as [|f fs] eqn:Hw; [done|]. rewrite Hn, Hclick.
  destruct (process_images_parallel (f :: fs) (decode_order env)) as [l r].
  simpl in Hraise. by subst r.
Qed.

End PageFacts.

(** * The properties of the specification *)

Section DecoderClaims.
Context {lib : Imaging}.

(** C1.  When every input decodes, [process_images_parallel] returns a
    batch as long as the input whose i-th image was decoded from the
    i-th file, whatever order the decode tasks finished in. *)
Theorem process_images_parallel_in_order
    (files : list UploadedFile) (sched : list (list nat)) :
  Forall (λ f, is_ok (process_image f).2 = true) files →
  ∃ batch,
    (process_images_parallel files sched).2 = Ok batch
    ∧ length batch = length files
    ∧ ∀ i f, files !! i = Some f →
        ∃ pim, batch !! i = Some pim
               ∧ (process_image f).2 = Ok pim
               ∧ original_name pim = name f.
Proof.
  intros Hall. rewrite process_images_parallel_result.
  destruct (gather_all_ok ((λ f, (process_image f).2) <$> files)) as (batch & -> & H2).
  { by apply Forall_fmap. }
  exists batch. split; [done|].
  pose proof (Forall2_length _ _ _ H2) as Hlen. rewrite length_fmap in Hlen.
  split; [done|]. intros i f Hi.
  destruct (Forall2_lookup_l _ _ _ i ((process_image f).2) H2) as (pim & Hpim & Hok).
  { by rewrite list_lookup_fmap, Hi. }
  exists pim. split; [done|]. split; [done|]. by apply process_image_name.
Qed.

(** C2, as the code has it.  When one input cannot be decoded and the
    others can, [process_images_parallel] returns no batch: it raises
    the exception of that input's decoder call ([read_heif] or
    [Image.frombytes] for a name that ends in ".heic", [Image.open]
    otherwise), unchanged, whatever the schedule; the code wraps it in
    nothing and adds nothing to it.  The name of the input is in the
    ERROR record logged before the exception is passed on.  On the page
    the run ends with this exception; the session has no batch and an
    empty cache. *)
Theorem process_images_parallel_one_bad
    (pre post : list UploadedFile) (bad : UploadedFile) (e : Exn)
    (sched : list (list nat)) :
  Forall (λ f, is_ok (process_image f).2 = true) (pre ++ post) →
  (if Str.endswith (Str.lower (name bad)) ".heic"
   then and_then (read_heif bad) (λ h,
          Image_frombytes (heif_mode h) (heif_size h) (heif_data h)
            "raw" (heif_mode h, heif_stride h))
   else Image_open bad) = Raise e →
  (process_images_parallel (pre ++ bad :: post) sched).2 = Raise e
  ∧ (ERROR, "Error processing " +:+ name bad +:+ ": " +:+ exn_str e)
      ∈ (process_images_parallel (pre ++ bad :: post) sched).1
  ∧ ∀ env w s,
      uploaded_files w = pre ++ bad :: post →
      decode_order env = sched →
      convert_all w = true →
      needs_processing s (uploaded_files w) (target_format w) = true →
      outcome (render_image_converter env w (Some s)) = Uncaught e
      ∧ processed_images (session (render_image_converter env w (Some s))) = None
      ∧ zip_cache (session (render_image_converter env w (Some s))) = ∅
      ∧ downloads (page (render_image_converter env w (Some s))) = [].
Proof.
  intros Hall Hbad.
  assert ((process_image bad).2 = Raise e) as Hraise
    by (by rewrite process_image_result, Hbad).
  apply Forall_app in Hall as [Hpre Hpost].
  assert ((process_images_parallel (pre ++ bad :: post) sched).2 = Raise e) as Hres.
  { rewrite process_images_parallel_result, fmap_app, fmap_cons, Hraise.
    apply gather_first_raise. by apply Forall_fmap. }
  split; [done|]. split.
  - apply process_images_parallel_log.
    rewrite process_images_parallel_result in Hres.
    rewrite <- (executor_map_gather process_image _ sched) in Hres.
    destruct (executor_map_raise _ _ _ _ Hres) as (f & Hf & Hfe & Hlog).
    assert (f = bad) as ->.
    { apply elem_of_app in Hf as [Hf|Hf].
      - rewrite Forall_forall in Hpre. apply Hpre in Hf. by rewrite Hfe in Hf.
      - apply elem_of_cons in Hf as [->|Hf]; [done|].
        rewrite Forall_forall in Hpost. apply Hpost in Hf. by rewrite Hfe in Hf. }
    apply Hlog. by apply process_image_error_record.
  - intros env w s Hw Hsched Hclick Hn.
    apply render_decode_failure; try done.
    + rewrite Hw. by destruct pre.
    + by rewrite Hw, Hsched.
Qed.

(** C7.  [process_image] looks at the end of the file name without
    regard to letter case: a name that ends in ".heic", ".HEIC" or any
    other mix of the two cases goes through [read_heif] and
    [Image.frombytes] on the container's mode, size, data and stride
    (and leaves the DEBUG record of [process_heic]); every other name
    goes to [Image.open]. *)
Theorem process_image_dispatch (file : UploadedFile) :
  (ends_in_heic (name file) →
   (process_image file).2 =
     and_then
       (and_then (read_heif file) (λ h,
          Image_frombytes (heif_mode h) (heif_size h) (heif_data h)
            "raw" (heif_mode h, heif_stride h)))
       (λ im, Ok {| original_name := name file; image := im |})
   ∧ (DEBUG, "Processing HEIC file: " +:+ name file) ∈ (process_image file).1)
  ∧ (¬ ends_in_heic (name file) →
     (process_image file).2 =
       and_then (Image_open file)
         (λ im, Ok {| original_name := name file; image := im |})
     ∧ (DEBUG, "Processing HEIC file: " +:+ name file) ∉ (process_image file).1).
Proof.
  pose proof (process_image_result file) as Hres.
  pose proof (process_image_heic_record file) as Hrec.
  pose proof (ends_in_heic_spec (name file)) as Hspec.
  destruct (Str.endswith (Str.lower (name file)) ".heic").
  - split; [intros _; split; [done | by apply Hrec]|].
    intros Hno. destruct Hno. by apply Hspec.
  - split.
    + intros Hyes. apply Hspec in Hyes. done.
    + intros _. split; [done|]. intros Hin. apply Hrec in Hin. done.
Qed.

End DecoderClaims.

Section ConverterClaims.
Context {lib : Imaging}.
Import ZipSpec.

Lemma written_convert (target_format : string) (img : ProcessedImage) :
  written (convert_to_buffer img target_format) = encoded target_format img.
Proof.
  rewrite convert_to_buffer_eq. unfold written, encoded. simpl.
  by destruct (Image_save (image img) target_format).
Qed.

Lemma zip_written_members images target_format sched clock :
  (∀ k, calendar (clock k)) →
  Forall (λ img, plain (member_name (original_name img) target_format)) images →
  Zip.members (zip_written images target_format sched clock).2
  ≡ₚ omap (encoded target_format) images.
Proof.
  intros Hclock Hnames.
  destruct (zip_written_holds images target_format sched clock Hclock Hnames)
    as (ms & Hms & Hperm).
  rewrite (holds_members _ _ Hms), Hperm.
  rewrite (list_omap_ext _ (encoded target_format) images images); [done|].
  apply Forall_Forall2_diag, Forall_forall. intros img _. apply written_convert.
Qed.

Lemma zip_written_error images target_format sched clock img e :
  img ∈ images → Image_save (image img) target_format = Raise e →
  (ERROR, "Error adding file to ZIP: " +:+ exn_str e)
    ∈ (zip_written images target_format sched clock).1.
Proof.
  intros Hin Hsave. apply list_elem_of_lookup in Hin as [i Hi].
  unfold zip_written. eapply (write_completed_error _ _ _ i []).
  - rewrite as_completed_once, elem_of_seq, length_fmap.
    apply lookup_lt_Some in Hi. lia.
  - rewrite list_lookup_fmap, Hi. simpl.
    by rewrite convert_to_buffer_eq, Hsave.
Qed.

Lemma namelist_members zf : Zip.namelist zf = (Zip.members zf).*1.
Proof. unfold Zip.namelist, Zip.members. by rewrite <- list_fmap_compose. Qed.

Lemma omap_encoded_all_ok images target_format :
  Forall (λ img, is_ok (Image_save (image img) target_format) = true) images →
  (omap (encoded target_format) images).*1
  = (λ img, member_name (original_name img) target_format) <$> images.
Proof.
  induction 1 as [|img images Hok _ IH]; [done|]. cbn.
  unfold encoded at 1. destruct (Image_save (image img) target_format); [|done].
  cbn. by rewrite <- IH.
Qed.

(** Whatever was refused, what the loop wrote is stored in the buffer. *)
Lemma write_completed_stored futures clock order : ∀ k zf ms,
  holds zf ms → ∃ ms', holds (write_completed futures clock k order zf).2 ms'.
Proof.
  induction order as [|i order IH]; intros k zf ms Hzf; simpl; [by exists ms|].
  destruct (futures !! i) as [[l0 [[nm d]|e]]|] eqn:Hi; simpl.
  - destruct (Zip.writestr zf (clock k) nm d) as [zf1|e] eqn:Hw.
    + destruct (IH (S k) zf1 _ (holds_writestr _ _ _ _ _ _ Hzf Hw)) as [ms' H].
      destruct (write_completed futures clock (S k) order zf1) as [l' zf'].
      by exists ms'.
    + destruct (IH (S k) zf ms Hzf) as [ms' H].
      destruct (write_completed futures clock (S k) order zf) as [l' zf'].
      by exists ms'.
  - destruct (IH (S k) zf ms Hzf) as [ms' H].
    destruct (write_completed futures clock (S k) order zf) as [l' zf'].
    by exists ms'.
  - destruct (IH (S k) zf ms Hzf) as [ms' H].
    destruct (write_completed futures clock (S k) order zf) as [l' zf'].
    by exists ms'.
Qed.

(** The loop writes at most one member per future it is handed. *)
Lemma write_completed_count futures clock order : ∀ k zf,
  (length (Zip.filelist (write_completed futures clock k order zf).2)
   ≤ length (Zip.filelist zf) + length order)%nat.
Proof.
  induction order as [|i order IH]; intros k zf; simpl; [lia|].
  destruct (futures !! i) as [[l0 [[nm d]|e]]|] eqn:Hi; simpl.
  - destruct (Zip.writestr zf (clock k) nm d) as [zf1|e] eqn:Hw.
    + specialize (IH (S k) zf1).
      destruct (write_completed futures clock (S k) order zf1) as [l' zf'].
      simpl in *. unfold Zip.writestr in Hw.
      destruct (Zip.year (clock k) <? 1980)%Z; [done|].
      destruct (String.eqb _ EmptyString); [done|].
      destruct (_ && _ && _); [|done]. injection Hw as <-.
      simpl in IH. rewrite length_app in IH. simpl in IH. lia.
    + specialize (IH (S k) zf).
      destruct (write_completed futures clock (S k) order zf) as [l' zf'].
      simpl in *. lia.
  - specialize (IH (S k) zf).
    destruct (write_completed futures clock (S k) order zf) as [l' zf'].
    simpl in *. lia.
  - specialize (IH (S k) zf).
    destruct (write_completed futures clock (S k) order zf) as [l' zf'].
    simpl in *. lia.
Qed.

(** Read back, the bytes [create_zip] returns give the members the
    loop wrote, for an archive of fewer than 2^16 images and less than
    2 GiB. *)
Lemma zip_written_extract images target_format sched clock :
  (Z.of_nat (length images) < 2 ^ 16)%Z →
  (Z.of_nat (length (Zip.close (zip_written images target_format sched clock).2))
   < 2 ^ 31)%Z →
  Zip.extract (Zip.close (zip_written images target_format sched clock).2)
  = Some (Zip.members (zip_written images target_format sched clock).2).
Proof.
  intros Hcount Hsize.
  destruct (write_completed_stored
              ((λ img, convert_to_buffer img target_format) <$> images) clock
              (as_completed (length ((λ img, convert_to_buffer img target_format)
                                       <$> images)) sched)
              0 Zip.open_w [] holds_open) as [ms Hms].
  fold (zip_written images target_format sched clock) in Hms.
  rewrite (holds_members _ _ Hms). apply extract_close; [done|].
  split; [|split; [done|]].
  - pose proof (write_completed_count
                  ((λ img, convert_to_buffer img target_format) <$> images) clock
                  (as_completed (length ((λ img, convert_to_buffer img target_format)
                                           <$> images)) sched) 0 Zip.open_w) as Hn.
    fold (zip_written images target_format sched clock) in Hn.
    rewrite (Permutation_length (as_completed_once _ _)), length_seq, length_fmap in Hn.
    simpl in Hn. lia.
  - apply write_completed_names. constructor.
Qed.

(** C3.  With the clock within the years a ZIP time stamp can hold and
    member names [zipfile] stores as they are, [create_zip] returns an
    archive whatever fails to encode: an image that cannot be saved in
    the target format leaves an ERROR record and no member, and the
    archive holds exactly the images that could be saved, each under
    its member name with the bytes [save] produced; read back, the
    returned bytes give these members. *)
Theorem create_zip_skips_failures
    (images : list ProcessedImage) (target_format : string)
    (sched : list nat) (clock : nat → Zip.DateTime) :
  (∀ k, calendar (clock k)) →
  Forall (λ img, plain (Path.stem (original_name img) +:+ "."
                        +:+ Str.lower target_format)) images →
  ∃ zip_data ms,
    (create_zip images target_format sched clock).2 = Ok zip_data
    ∧ Zip.members (zip_written images target_format sched clock).2 = ms
    ∧ ms ≡ₚ omap (λ img,
                    match Image_save (image img) target_format with
                    | Ok data =>
                        Some (Path.stem (original_name img) +:+ "."
                              +:+ Str.lower target_format, data)
                    | Raise _ => None
                    end) images
    ∧ (∀ img e, img ∈ images → Image_save (image img) target_format = Raise e →
         (ERROR, "Error adding file to ZIP: " +:+ exn_str e)
           ∈ (create_zip images target_format sched clock).1)
    ∧ ((Z.of_nat (length images) < 2 ^ 16)%Z →
       (Z.of_nat (length zip_data) < 2 ^ 31)%Z →
       Zip.extract zip_data = Some ms).
Proof.
  intros Hclock Hnames. eexists _, _.
  split; [apply create_zip_result|]. split; [done|].
  split; [by apply zip_written_members|].
  split; [|apply zip_written_extract].
  intros img e Hin Hsave. rewrite create_zip_log.
  apply elem_of_cons. right. apply elem_of_app. left.
  by eapply zip_written_error.
Qed.

(** C4.  The encoder names a member after the stem of the original name
    followed by a dot and the lower-cased format label, so "photo.HEIC"
    saved as "PNG" becomes "photo.png"; when every image of the batch
    can be saved (the clock within the years of a ZIP time stamp, the
    names stored as they are), the archive that is returned has one
    member per image, under these names. *)
Theorem archive_member_names
    (images : list ProcessedImage) (target_format : string)
    (sched : list nat) (clock : nat → Zip.DateTime) :
  (∀ k, calendar (clock k)) →
  Forall (λ img, plain (Path.stem (original_name img) +:+ "."
                        +:+ Str.lower target_format)) images →
  Forall (λ img, is_ok (Image_save (image img) target_format) = true) images →
  (∀ img, img ∈ images →
     ∃ data, Image_save (image img) target_format = Ok data
       ∧ convert_to_buffer img target_format
         = ([], Ok (Path.stem (original_name img) +:+ "." +:+ Str.lower target_format,
                    data)))
  ∧ (∃ zip_data ms,
       (create_zip images target_format sched clock).2 = Ok zip_data
       ∧ Zip.members (zip_written images target_format sched clock).2 = ms
       ∧ ms.*1 ≡ₚ (λ img, Path.stem (original_name img) +:+ "."
                          +:+ Str.lower target_format) <$> images
       ∧ length ms = length images
       ∧ ((Z.of_nat (length images) < 2 ^ 16)%Z →
          (Z.of_nat (length zip_data) < 2 ^ 31)%Z →
          Zip.extract zip_data = Some ms))
  ∧ Path.stem "photo.HEIC" +:+ "." +:+ Str.lower "PNG" = "photo.png".
Proof.
  intros Hclock Hplain Hall.
  assert ((Zip.members (zip_written images target_format sched clock).2).*1
          ≡ₚ (λ img, member_name (original_name img) target_format) <$> images) as Hnames.
  { rewrite zip_written_members by done. by rewrite omap_encoded_all_ok. }
  split; [|split; [|done]].
  - intros img Hin. rewrite Forall_forall in Hall. specialize (Hall img Hin).
    rewrite convert_to_buffer_eq.
    destruct (Image_save (image img) target_format) as [data|]; [|done].
    by exists data.
  - eexists _, _. split; [apply create_zip_result|]. split; [done|].
    split; [exact Hnames|]. split; [|apply zip_written_extract].
    apply Permutation_length in Hnames. by rewrite !length_fmap in Hnames.
Qed.

Lemma filter_two {A} (P : A → Prop) `{∀ x, Decision (P x)} (l : list A) i j a b :
  i ≠ j → l !! i = Some a → l !! j = Some b → P a → P b →
  (2 ≤ length (filter P l))%nat.
Proof.
  revert i j. induction l as [|x l IH]; intros i j Hne Hi Hj Ha Hb; [done|].
  destruct i as [|i], j as [|j]; simpl in *; try done.
  - injection Hi as ->. rewrite filter_cons_True by done. simpl.
    assert (b ∈ filter P l).
    { apply list_elem_of_filter. split; [done|]. by eapply list_elem_of_lookup_2. }
    destruct (filter P l); [by apply elem_of_nil in H0 | simpl; lia].
  - injection Hj as ->. rewrite filter_cons_True by done. simpl.
    assert (a ∈ filter P l).
    { apply list_elem_of_filter. split; [done|]. by eapply list_elem_of_lookup_2. }
    destruct (filter P l); [by apply elem_of_nil in H0 | simpl; lia].
  - assert (2 ≤ length (filter P l))%nat by (eapply (IH i j); eauto).
    destruct (decide (P x)).
    + rewrite filter_cons_True by done. simpl. lia.
    + by rewrite filter_cons_False.
Qed.

(** C9.  Two images of the batch whose original names have the same
    stem, both saved, give two members with one and the same name:
    nothing is dropped or renamed, the archive that is returned has as
    many members as images that could be saved, and read back it shows
    the name twice. *)
Theorem colliding_names_kept
    (images : list ProcessedImage) (target_format : string)
    (sched : list nat) (clock : nat → Zip.DateTime)
    (i j : nat) (a b : ProcessedImage) :
  (∀ k, calendar (clock k)) →
  Forall (λ img, plain (Path.stem (original_name img) +:+ "."
                        +:+ Str.lower target_format)) images →
  i ≠ j → images !! i = Some a → images !! j = Some b →
  Path.stem (original_name a) = Path.stem (original_name b) →
  is_ok (Image_save (image a) target_format) = true →
  is_ok (Image_save (image b) target_format) = true →
  ∃ zip_data ms,
    (create_zip images target_format sched clock).2 = Ok zip_data
    ∧ Zip.members (zip_written images target_format sched clock).2 = ms
    ∧ (2 ≤ length (filter (λ nm, nm = Path.stem (original_name a) +:+ "."
                                     +:+ Str.lower target_format) ms.*1))%nat
    ∧ length ms
      = length (filter (λ img, is_ok (Image_save (image img) target_format) = true)
                  images)
    ∧ ((Z.of_nat (length images) < 2 ^ 16)%Z →
       (Z.of_nat (length zip_data) < 2 ^ 31)%Z →
       Zip.extract zip_data = Some ms).
Proof.
  intros Hclock Hplain Hne Hi Hj Hstem Ha Hb.
  pose proof (zip_written_members images target_format sched clock Hclock Hplain) as Hm.
  eexists _, _. split; [apply create_zip_result|]. split; [done|].
  split; [|split; [|apply zip_written_extract]].
  - rewrite Hm.
    set (nm := Path.stem (original_name a) +:+ "." +:+ Str.lower target_format).
    assert (∀ l : list ProcessedImage,
              length (filter (λ n, n = nm) (omap (encoded target_format) l).*1)
              = length (filter (λ img, fst <$> encoded target_format img = Some nm) l))
      as Hcount.
    { induction l as [|x l IHl]; [done|].
      change (omap (encoded target_format) (x :: l))
        with (match encoded target_format x with
              | Some y => y :: omap (encoded target_format) l
              | None => omap (encoded target_format) l
              end).
      destruct (encoded target_format x) as [[n d]|] eqn:Hx.
      - rewrite fmap_cons. change ((n, d).1) with n.
        destruct (decide (n = nm)) as [->|Hn].
        + rewrite !filter_cons_True by (by rewrite ?Hx). simpl. by rewrite IHl.
        + rewrite !filter_cons_False; [done| |done].
          rewrite Hx. simpl. congruence.
      - rewrite filter_cons_False; [done|]. by rewrite Hx. }
    rewrite Hcount. eapply (filter_two _ _ i j a b); try done.
    + unfold encoded. by destruct (Image_save (image a) target_format).
    + unfold encoded, member_name. rewrite <- Hstem.
      by destruct (Image_save (image b) target_format).
  - apply Permutation_length in Hm. rewrite Hm. clear.
    induction images as [|x l IH]; [done|].
    change (omap (encoded target_format) (x :: l))
      with (match encoded target_format x with
            | Some y => y :: omap (encoded target_format) l
            | None => omap (encoded target_format) l
            end).
    unfold encoded at 1.
    destruct (Image_save (image x) target_format) eqn:Hx.
    + rewrite filter_cons_True by (by rewrite Hx). simpl. by rewrite IH.
    + rewrite filter_cons_False by (by rewrite Hx). done.
Qed.

(** C10.  For an empty batch [create_zip] returns, for every format and
    schedule, the 22 bytes of an archive without members: the end
    record "PK\005\006" with both counts, the size and the offset of
    the directory at zero; read back, they give no member. *)
Theorem create_zip_empty
    (target_format : string) (sched : list nat) (clock : nat → Zip.DateTime) :
  (create_zip [] target_format sched clock).2
    = Ok [x50; x4b; x05; x06; x00; x00; x00; x00; x00; x00; x00; x00;
          x00; x00; x00; x00; x00; x00; x00; x00; x00; x00]
  ∧ Zip.members (zip_written [] target_format sched clock).2 = []
  ∧ Zip.extract [x50; x4b; x05; x06; x00; x00; x00; x00; x00; x00; x00; x00;
                 x00; x00; x00; x00; x00; x00; x00; x00; x00; x00] = Some [].
Proof.
  assert (zip_written [] target_format sched clock = ([], Zip.open_w)) as Hw.
  { unfold zip_written. cbn [fmap list_fmap length].
    assert (as_completed 0 sched = []) as ->; [|done].
    apply Permutation_nil_r. apply as_completed_once. }
  rewrite create_zip_result, Hw. done.
Qed.

End ConverterClaims.

Section PageClaims.
Context {lib : Imaging}.

Lemma needs_processing_cache s files target_format cache :
  needs_processing
    {| processed_images := processed_images s;
       last_files_processed := last_files_processed s;
       last_format := last_format s;
       zip_cache := cache |} files target_format
  = needs_processing s files target_format.
Proof. done. Qed.

Lemma encode_passes_banner l :
  encode_passes ([(INFO, "Rendering image converter page")] ++ l) = encode_passes l.
Proof. by rewrite encode_passes_app. Qed.

Lemma downloads_title pg :
  downloads ([st_title "Image Converter"] ++ pg) = downloads pg.
Proof. by rewrite downloads_app. Qed.

(** C5.  With the batch decoded and no archive cached for the format,
    the first request builds the archive in one pass of [create_zip]; a
    second request for the same files and format enters [create_zip] no
    more, whatever the thread pool and the clock would do, and offers
    the very same bytes, read back from the cache.  Both runs must
    reach the cache step: where the gallery is shown, its images can
    be drawn. *)
Theorem second_request_served_from_cache
    (env1 env2 : World) (w1 w2 : Widgets) (s : SessionState)
    (images : list ProcessedImage) :
  uploaded_files w1 ≠ [] →
  uploaded_files w2 = uploaded_files w1 →
  target_format w2 = target_format w1 →
  processed_images s = Some images →
  needs_processing s (uploaded_files w1) (target_format w1) = false →
  zip_cache s !! target_format w1 = None →
  (show_processed w1 = true →
   Forall (λ img, is_ok (st_image_encode (image img)) = true) images) →
  (show_processed w2 = true →
   Forall (λ img, is_ok (st_image_encode (image img)) = true) images) →
  ∃ zip_data,
    (create_zip images (target_format w1) (encode_order env1) (localtime env1)).2
      = Ok zip_data
    ∧ downloads (page (render_image_converter env1 w1 (Some s))) = [zip_data]
    ∧ encode_passes (log (render_image_converter env1 w1 (Some s))) = 1%nat
    ∧ zip_cache (session (render_image_converter env1 w1 (Some s))) !! target_format w1
      = Some zip_data
    ∧ downloads (page (render_image_converter env2 w2
                         (Some (session (render_image_converter env1 w1 (Some s))))))
      = [zip_data]
    ∧ encode_passes (log (render_image_converter env2 w2
                            (Some (session (render_image_converter env1 w1 (Some s))))))
      = 0%nat
    ∧ session (render_image_converter env2 w2
                 (Some (session (render_image_converter env1 w1 (Some s)))))
      = session (render_image_converter env1 w1 (Some s)).
Proof.
  intros Hfiles Hsame Hfmt Himg Hsteady Hmiss Hshow1 Hshow2.
  pose proof (gallery_error_ok w1 images Hshow1) as Hg1.
  pose proof (gallery_error_ok w2 images Hshow2) as Hg2.
  set (zip_data := Zip.close (zip_written images (target_format w1)
                                (encode_order env1) (localtime env1)).2).
  exists zip_data. split; [apply create_zip_result|].
  rewrite render_steady by done.
  destruct (show_results_miss env1 w1 s images Himg Hg1 Hmiss) as (Hs1 & Hd1 & Hn1 & _).
  fold zip_data in Hs1, Hd1.
  cbn [after session page log].
  rewrite downloads_title, encode_passes_banner, Hd1, Hn1, Hs1.
  cbn [zip_cache]. rewrite lookup_insert_eq.
  split; [done|]. split; [done|]. split; [done|].
  set (s1 := {| processed_images := processed_images s;
                last_files_processed := last_files_processed s;
                last_format := last_format s;
                zip_cache := <[target_format w1:=zip_data]> (zip_cache s) |}).
  assert (zip_cache s1 !! target_format w2 = Some zip_data) as Hhit
    by (rewrite Hfmt; apply lookup_insert_eq).
  assert (processed_images s1 = Some images) as Himg1 by done.
  rewrite render_steady.
  - destruct (show_results_hit env2 w2 s1 images zip_data Himg1 Hg2 Hhit)
      as (Hs2 & Hd2 & Hn2 & _).
    cbn [after session page log].
    by rewrite downloads_title, encode_passes_banner, Hd2, Hn2, Hs2.
  - by rewrite Hsame.
  - unfold s1. by rewrite needs_processing_cache, Hsame, Hfmt.
Qed.

(** Every run either empties the cache, leaves it alone, or adds the
    archive of the requested format under a free key. *)
Lemma cache_cleared_kept_or_extended (env : World) (w : Widgets)
    (st : option SessionState) :
  zip_cache (session (render_image_converter env w st)) = ∅
  ∨ ∃ s, st = Some s
      ∧ (zip_cache (session (render_image_converter env w st)) = zip_cache s
         ∨ ∃ zip_data,
             zip_cache s !! target_format w = None
             ∧ zip_cache (session (render_image_converter env w st))
               = <[target_format w := zip_data]> (zip_cache s)).
Proof.
  destruct st as [s|].
  - destruct (decide (uploaded_files w = [])) as [Hw|Hw].
    { right. exists s. split; [done|]. left.
      unfold render_image_converter. by rewrite Hw. }
    destruct (needs_processing s (uploaded_files w) (target_format w)) eqn:Hn.
    + left. by apply render_changed.
    + right. exists s. split; [done|].
      rewrite render_steady by done. cbn [after session].
      destruct (processed_images s) as [images|] eqn:Himg.
      * destruct (gallery_error w images) as [e|] eqn:Hg.
        { left. by destruct (show_results_dies env w s images e Himg Hg) as [-> _]. }
        destruct (zip_cache s !! target_format w) as [z|] eqn:Hc.
        -- left. by destruct (show_results_hit env w s images z Himg Hg Hc) as [-> _].
        -- right. destruct (show_results_miss env w s images Himg Hg Hc) as [-> _].
           eexists. by split.
      * left. by rewrite show_results_none.
  - left. unfold render_image_converter, init_session.
    destruct (uploaded_files w) as [|f fs]; [done|].
    cbn [needs_processing processed_images].
    destruct (convert_all w).
    + by destruct (process_images_parallel (f :: fs) (decode_order env)) as [l [images|e]].
    + by rewrite show_results_none.
Qed.

(** The cache never holds archives of two formats: what it holds
    belongs to the format the batch was decoded for. *)
Lemma cache_for_last_format_kept (env : World) (w : Widgets)
    (st : option SessionState) :
  (∀ s, st = Some s → cache_for_last_format s) →
  cache_for_last_format (session (render_image_converter env w st)).
Proof.
  intros Hinv.
  assert (∀ s : SessionState, zip_cache s = ∅ → cache_for_last_format s) as Hempty.
  { intros s Hs k z. by rewrite Hs, lookup_empty. }
  destruct st as [s|].
  - specialize (Hinv s eq_refl).
    destruct (decide (uploaded_files w = [])) as [Hw|Hw].
    { unfold render_image_converter. by rewrite Hw. }
    destruct (needs_processing s (uploaded_files w) (target_format w)) eqn:Hn.
    + by apply Hempty, render_changed.
    + rewrite render_steady by done. cbn [after session].
      destruct (processed_images s) as [images|] eqn:Himg;
        [|by rewrite show_results_none].
      destruct (gallery_error w images) as [e|] eqn:Hg.
      { by destruct (show_results_dies env w s images e Himg Hg) as [-> _]. }
      destruct (zip_cache s !! target_format w) as [z|] eqn:Hc.
      * by destruct (show_results_hit env w s images z Himg Hg Hc) as [-> _].
      * destruct (show_results_miss env w s images Himg Hg Hc) as [-> _].
        intros k z'. cbn [zip_cache last_format processed_images].
        rewrite Himg. destruct (decide (k = target_format w)) as [->|Hk].
        -- intros _. split; [|done].
           unfold needs_processing in Hn. rewrite Himg in Hn.
           destruct (last_files_processed s); [|done].
           apply orb_false_elim in Hn as [_ Hn].
           apply negb_false_iff, bool_decide_eq_true in Hn. done.
        -- rewrite lookup_insert_ne by done. intros Hk'.
           destruct (Hinv k z' Hk') as [? _]. done.
  - apply Hempty.
    destruct (cache_cleared_kept_or_extended env w None) as [H|(s & [=] & _)]. done.
Qed.

(** A run that finds nothing changed keeps every entry of the cache. *)
Lemma cache_kept_when_steady (env : World) (w : Widgets) (s : SessionState) k z :
  needs_processing s (uploaded_files w) (target_format w) = false →
  zip_cache s !! k = Some z →
  zip_cache (session (render_image_converter env w (Some s))) !! k = Some z.
Proof.
  intros Hn Hk.
  destruct (decide (uploaded_files w = [])) as [Hw|Hw].
  { unfold render_image_converter. by rewrite Hw. }
  rewrite render_steady by done. cbn [after session].
  destruct (processed_images s) as [images|] eqn:Himg;
    [|by rewrite show_results_none].
  destruct (gallery_error w images) as [e|] eqn:Hg.
  { by destruct (show_results_dies env w s images e Himg Hg) as [-> _]. }
  destruct (zip_cache s !! target_format w) as [z'|] eqn:Hc.
  - by destruct (show_results_hit env w s images z' Himg Hg Hc) as [-> _].
  - destruct (show_results_miss env w s images Himg Hg Hc) as [-> _].
    cbn [zip_cache]. rewrite lookup_insert_ne; [done|]. congruence.
Qed.

(** C6, as the code has it.  A request for a format other than the one
    the batch was decoded for finds the session in need of processing:
    the batch is dropped and the cache is emptied, archives of other
    formats included, and nothing is offered for download until the
    files are converted again.  The cache is never cut back key by key:
    a run that finds the files or the format changed empties it, a run
    that finds nothing changed keeps every entry, and no run does
    anything but empty it, leave it alone, or add one archive. *)
Theorem format_change_clears_cache
    (env : World) (w : Widgets) (s : SessionState) :
  uploaded_files w ≠ [] →
  last_format s ≠ Some (target_format w) →
  needs_processing s (uploaded_files w) (target_format w) = true
  ∧ zip_cache (session (render_image_converter env w (Some s))) = ∅
  ∧ downloads (page (render_image_converter env w (Some s))) = []
  ∧ (outcome (render_image_converter env w (Some s)) = Rerun
     ∨ processed_images (session (render_image_converter env w (Some s))) = None)
  ∧ (∀ env' w' s',
       uploaded_files w' ≠ [] →
       needs_processing s' (uploaded_files w') (target_format w') = true →
       zip_cache (session (render_image_converter env' w' (Some s'))) = ∅)
  ∧ (∀ env' w' s' k z,
       needs_processing s' (uploaded_files w') (target_format w') = false →
       zip_cache s' !! k = Some z →
       zip_cache (session (render_image_converter env' w' (Some s'))) !! k = Some z)
  ∧ ∀ env' w' st,
      zip_cache (session (render_image_converter env' w' st)) = ∅
      ∨ ∃ s', st = Some s'
          ∧ (zip_cache (session (render_image_converter env' w' st)) = zip_cache s'
             ∨ ∃ zip_data,
                 zip_cache s' !! target_format w' = None
                 ∧ zip_cache (session (render_image_converter env' w' st))
                   = <[target_format w' := zip_data]> (zip_cache s')).
Proof.
  intros Hfiles Hfmt.
  pose proof (needs_processing_format s (uploaded_files w) _ Hfmt) as Hn.
  split; [done|].
  destruct (render_changed env w s Hfiles Hn) as (H1 & H2 & H3).
  split; [done|]. split; [done|]. split; [done|].
  split; [|split].
  - intros env' w' s' Hw' Hn'. by apply render_changed.
  - intros env' w' s' k z. apply cache_kept_when_steady.
  - apply cache_cleared_kept_or_extended.
Qed.

(** C8, as the code has it.  The cache is looked up and filled under
    the format label as it stands, with no change of letter case: a run
    on a decoded batch that reaches the cache step serves the archive
    stored under exactly the requested label, and otherwise builds one
    and stores it under exactly that label.  The labels the select box
    offers differ in more than letter case. *)
Theorem cache_key_is_the_label
    (env : World) (w : Widgets) (s : SessionState) (images : list ProcessedImage) :
  uploaded_files w ≠ [] →
  processed_images s = Some images →
  needs_processing s (uploaded_files w) (target_format w) = false →
  (show_processed w = true →
   Forall (λ img, is_ok (st_image_encode (image img)) = true) images) →
  match zip_cache s !! target_format w with
  | Some zip_data =>
      session (render_image_converter env w (Some s)) = s
      ∧ downloads (page (render_image_converter env w (Some s))) = [zip_data]
      ∧ encode_passes (log (render_image_converter env w (Some s))) = 0%nat
  | None =>
      ∃ zip_data,
        (create_zip images (target_format w) (encode_order env) (localtime env)).2
          = Ok zip_data
        ∧ zip_cache (session (render_image_converter env w (Some s)))
          = <[target_format w := zip_data]> (zip_cache s)
        ∧ downloads (page (render_image_converter env w (Some s))) = [zip_data]
        ∧ encode_passes (log (render_image_converter env w (Some s))) = 1%nat
  end
  ∧ ∀ a b, a ∈ selectbox_options → b ∈ selectbox_options →
      Str.lower a = Str.lower b → a = b.
Proof.
  intros Hfiles Himg Hsteady Hshow.
  pose proof (gallery_error_ok w images Hshow) as Hg. split.
  - rewrite render_steady by done. cbn [after session page log].
    rewrite downloads_title, encode_passes_banner.
    destruct (zip_cache s !! target_format w) as [z|] eqn:Hc.
    + by destruct (show_results_hit env w s images z Himg Hg Hc) as (-> & -> & -> & _).
    + destruct (show_results_miss env w s images Himg Hg Hc) as (-> & -> & -> & _).
      eexists. split; [apply create_zip_result|done].
  - intros a b Ha Hb. unfold selectbox_options in *.
    repeat (apply elem_of_cons in Ha as [->|Ha]);
      repeat (apply elem_of_cons in Hb as [->|Hb]);
      try (by apply elem_of_nil in Ha); try (by apply elem_of_nil in Hb);
      try done; vm_compute; discriminate.
Qed.

End PageClaims.

(** * The properties on a sample session *)

Section Examples.
Import Sample ZipSpec.

(** C1 on the three sample uploads, the last one decoded first. *)
Lemma process_images_parallel_in_order_witness :
  Forall (λ f, is_ok (process_image f).2 = true) inputs
  ∧ ∃ batch,
      (process_images_parallel inputs [[2]; [1]]).2 = Ok batch
      ∧ length batch = length inputs
      ∧ ∀ i f, inputs !! i = Some f →
          ∃ pim, batch !! i = Some pim
                 ∧ (process_image f).2 = Ok pim
                 ∧ original_name pim = name f.
Proof.
  assert (Forall (λ f, is_ok (process_image f).2 = true) inputs) as H
    by (repeat constructor).
  split; [exact H|].
  exact (process_images_parallel_in_order inputs [[2]; [1]] H).
Defined.

(** C2 fails as stated: two HEIF uploads with different names and the
    same unreadable content make [process_images_parallel] raise one and
    the same exception, so no name can be read off what is raised. *)
Lemma decode_error_carries_no_name :
  name (file "a.heic" "junk") ≠ name (file "b.heic" "junk")
  ∧ (process_images_parallel [file "a.heic" "junk"] []).2 = Raise InvalidHeif
  ∧ (process_images_parallel [file "b.heic" "junk"] []).2 = Raise InvalidHeif
  ∧ ¬ ∃ name_of : Error → string,
        ∀ (files : list UploadedFile) (sched : list (list nat)) bad e,
          bad ∈ files → is_ok (process_image bad).2 = false →
          (process_images_parallel files sched).2 = Raise e →
          name_of e = name bad.
Proof.
  split; [done|]. split; [done|]. split; [done|].
  intros [name_of H].
  pose proof (H [file "a.heic" "junk"] [] (file "a.heic" "junk") InvalidHeif) as Ha.
  pose proof (H [file "b.heic" "junk"] [] (file "b.heic" "junk") InvalidHeif) as Hb.
  assert (name_of InvalidHeif = "a.heic") as Ea
    by (apply Ha; [by apply list_elem_of_singleton|done|done]).
  assert (name_of InvalidHeif = "b.heic") as Eb
    by (apply Hb; [by apply list_elem_of_singleton|done|done]).
  rewrite Ea in Eb. discriminate Eb.
Qed.

(** C2, amended, on a corrupt upload between two good ones: what is
    raised is the exception of [Image.open], as the library made it. *)
Lemma process_images_parallel_one_bad_witness :
  Forall (λ f, is_ok (process_image f).2 = true)
    ([file "a.heic" "Hxyz"] ++ [file "c.jpg" "Aqq"])
  ∧ Image_open (file "b.png" "junk") = Raise (UnidentifiedImage "b.png")
  ∧ (process_images_parallel
       ([file "a.heic" "Hxyz"] ++ file "b.png" "junk" :: [file "c.jpg" "Aqq"]) [[2]]).2
    = Raise (UnidentifiedImage "b.png")
  ∧ (ERROR, "Error processing b.png: "
            +:+ "cannot identify image file <UploadedFile name='b.png'>")
      ∈ (process_images_parallel
           ([file "a.heic" "Hxyz"] ++ file "b.png" "junk" :: [file "c.jpg" "Aqq"]) [[2]]).1.
Proof.
  assert (Forall (λ f, is_ok (process_image f).2 = true)
            ([file "a.heic" "Hxyz"] ++ [file "c.jpg" "Aqq"])) as H
    by (repeat constructor).
  split; [exact H|]. split; [reflexivity|].
  destruct (process_images_parallel_one_bad (lib := Sample.lib)
              [file "a.heic" "Hxyz"] [file "c.jpg" "Aqq"]
              (file "b.png" "junk") (UnidentifiedImage "b.png") [[2]] H eq_refl)
    as (Hraise & Hlog & _).
  split; [exact Hraise | exact Hlog].
Defined.

(** C7 on an upper-case suffix and on a suffix that only contains
    ".heic": the first upload goes through [read_heif], the second to
    [Image.open], which does not know the container. *)
Lemma process_image_dispatch_witness :
  ends_in_heic (name (file "photo.HEIC" "Hxyz"))
  ∧ (process_image (file "photo.HEIC" "Hxyz")).2
    = Ok {| original_name := "photo.HEIC";
            image := {| raster_mode := "RGB"; raster_size := (3, 1)%Z;
                        pixels := list_byte_of_string "xyz"; complete := true |} |}
  ∧ (DEBUG, "Processing HEIC file: photo.HEIC")
      ∈ (process_image (file "photo.HEIC" "Hxyz")).1
  ∧ ¬ ends_in_heic (name (file "photo.heic.png" "Hxyz"))
  ∧ (process_image (file "photo.heic.png" "Hxyz")).2
    = Raise (UnidentifiedImage "photo.heic.png").
Proof.
  assert (ends_in_heic (name (file "photo.HEIC" "Hxyz"))) as Hyes.
  { exists "photo", "H"%char, "E"%char, "I"%char, "C"%char.
    split; [reflexivity|]. repeat split; right; reflexivity. }
  assert (¬ ends_in_heic (name (file "photo.heic.png" "Hxyz"))) as Hno.
  { intros H. apply ends_in_heic_spec in H. discriminate H. }
  split; [exact Hyes|].
  destruct (process_image_dispatch (lib := Sample.lib) (file "photo.HEIC" "Hxyz"))
    as [Hheic _].
  destruct (Hheic Hyes) as [Hres Hlog].
  split; [exact Hres|]. split; [exact Hlog|]. split; [exact Hno|].
  destruct (process_image_dispatch (lib := Sample.lib) (file "photo.heic.png" "Hxyz"))
    as [_ Hopen].
  exact (proj1 (Hopen Hno)).
Defined.

(** C3 on the sample batch saved as "JPEG": the image with alpha cannot
    be written and is left out; the returned archive reads back as the
    other two. *)
Lemma create_zip_skips_failures_witness :
  (∀ k : nat, calendar ((λ _, noon) k))
  ∧ Forall (λ img, plain (Path.stem (original_name img) +:+ "." +:+ Str.lower "JPEG"))
      decoded
  ∧ ∃ zip_data,
      (create_zip decoded "JPEG" [1; 0] (λ _, noon)).2 = Ok zip_data
      ∧ (Z.of_nat (length zip_data) < 2 ^ 31)%Z
      ∧ (ERROR, "Error adding file to ZIP: cannot write mode RGBA as JPEG")
          ∈ (create_zip decoded "JPEG" [1; 0] (λ _, noon)).1
      ∧ Zip.extract zip_data
        = Some [("b.jpeg", list_byte_of_string "jpegabc");
                ("a.jpeg", list_byte_of_string "jpegxyz")].
Proof.
  assert (∀ k : nat, calendar ((λ _, noon) k)) as Hclock
    by (intros _; unfold calendar; simpl; lia).
  assert (Forall (λ img, plain (Path.stem (original_name img) +:+ "."
                                +:+ Str.lower "JPEG")) decoded) as Hplain
    by (repeat constructor; simpl; lia).
  split; [exact Hclock|]. split; [exact Hplain|].
  destruct (create_zip_skips_failures decoded "JPEG" [1; 0] (λ _, noon) Hclock Hplain)
    as (zip_data & ms & Hok & Hms & _ & Hlog & Hread).
  exists zip_data. split; [exact Hok|].
  assert (zip_data = Zip.close (zip_written decoded "JPEG" [1; 0] (λ _, noon)).2) as Hz.
  { rewrite create_zip_result in Hok. by injection Hok. }
  assert (Z.of_nat (length zip_data) < 2 ^ 31)%Z as Hsize by (rewrite Hz; reflexivity).
  split; [exact Hsize|]. split.
  - eapply (Hlog _ (CannotWrite "RGBA" "JPEG"));
      [apply list_elem_of_lookup_2 with 2%nat; reflexivity | reflexivity].
  - rewrite (Hread ltac:(reflexivity) Hsize), <- Hms. reflexivity.
Defined.

(** C4 on the sample batch saved as "PNG". *)
Lemma archive_member_names_witness :
  (∀ k : nat, calendar ((λ _, noon) k))
  ∧ Forall (λ img, plain (Path.stem (original_name img) +:+ "." +:+ Str.lower "PNG"))
      decoded
  ∧ Forall (λ img, is_ok (Image_save (image img) "PNG") = true) decoded
  ∧ ∃ zip_data ms,
      (create_zip decoded "PNG" [1; 0] (λ _, noon)).2 = Ok zip_data
      ∧ (Z.of_nat (length zip_data) < 2 ^ 31)%Z
      ∧ Zip.extract zip_data = Some ms
      ∧ ms.*1 ≡ₚ ["a.png"; "b.png"; "c.png"]
      ∧ length ms = 3%nat.
Proof.
  assert (∀ k : nat, calendar ((λ _, noon) k)) as Hclock
    by (intros _; unfold calendar; simpl; lia).
  assert (Forall (λ img, plain (Path.stem (original_name img) +:+ "."
                                +:+ Str.lower "PNG")) decoded) as Hplain
    by (repeat constructor; simpl; lia).
  assert (Forall (λ img, is_ok (Image_save (image img) "PNG") = true) decoded) as H
    by (repeat constructor).
  split; [exact Hclock|]. split; [exact Hplain|]. split; [exact H|].
  destruct (archive_member_names decoded "PNG" [1; 0] (λ _, noon) Hclock Hplain H)
    as (_ & (zip_data & ms & Hok & _ & Hnames & Hlen & Hread) & _).
  exists zip_data, ms. split; [exact Hok|].
  assert (zip_data = Zip.close (zip_written decoded "PNG" [1; 0] (λ _, noon)).2) as Hz.
  { rewrite create_zip_result in Hok. by injection Hok. }
  assert (Z.of_nat (length zip_data) < 2 ^ 31)%Z as Hsize by (rewrite Hz; reflexivity).
  split; [exact Hsize|]. split; [exact (Hread ltac:(reflexivity) Hsize)|].
  split; [exact Hnames | exact Hlen].
Defined.

(** C9 on "a.png" and "a.jpg": the returned archive has two members
    "a.webp". *)
Lemma colliding_names_kept_witness :
  (∀ k : nat, calendar ((λ _, noon) k))
  ∧ Forall (λ img, plain (Path.stem (original_name img) +:+ "." +:+ Str.lower "WebP"))
      twins
  ∧ Path.stem (original_name first_twin) = Path.stem (original_name second_twin)
  ∧ ∃ zip_data ms,
      (create_zip twins "WebP" [] (λ _, noon)).2 = Ok zip_data
      ∧ (Z.of_nat (length zip_data) < 2 ^ 31)%Z
      ∧ Zip.extract zip_data = Some ms
      ∧ ms.*1 = ["a.webp"; "a.webp"]
      ∧ (2 ≤ length (filter (λ nm, nm = "a.webp") ms.*1))%nat.
Proof.
  assert (∀ k : nat, calendar ((λ _, noon) k)) as Hclock
    by (intros _; unfold calendar; simpl; lia).
  assert (Forall (λ img, plain (Path.stem (original_name img) +:+ "."
                                +:+ Str.lower "WebP")) twins) as Hplain
    by (repeat constructor; simpl; lia).
  split; [exact Hclock|]. split; [exact Hplain|]. split; [reflexivity|].
  destruct (colliding_names_kept twins "WebP" [] (λ _, noon) 0 1
              first_twin second_twin Hclock Hplain)
    as (zip_data & ms & Hok & Hms & Htwice & _ & Hread);
    [lia | reflexivity | reflexivity | reflexivity | reflexivity | reflexivity |].
  exists zip_data, ms. split; [exact Hok|].
  assert (zip_data = Zip.close (zip_written twins "WebP" [] (λ _, noon)).2) as Hz.
  { rewrite create_zip_result in Hok. by injection Hok. }
  assert (Z.of_nat (length zip_data) < 2 ^ 31)%Z as Hsize by (rewrite Hz; reflexivity).
  split; [exact Hsize|]. split; [exact (Hread ltac:(reflexivity) Hsize)|].
  split; [by rewrite <- Hms | exact Htwice].
Defined.

(** C5 on the sample session: the archive built at noon is offered
    again in the evening, byte for byte, without a second pass. *)
Lemma second_request_served_from_cache_witness :
  uploaded_files (request "WebP" false false) ≠ []
  ∧ processed_images converted = Some decoded
  ∧ needs_processing converted inputs "WebP" = false
  ∧ zip_cache converted !! "WebP" = None
  ∧ ∃ zip_data,
      (create_zip decoded "WebP" [1; 0] (λ _, noon)).2 = Ok zip_data
      ∧ downloads (page (render_image_converter world1 (request "WebP" false false)
                           (Some converted))) = [zip_data]
      ∧ encode_passes (log (render_image_converter world1 (request "WebP" false false)
                              (Some converted))) = 1%nat
      ∧ downloads (page (render_image_converter world2 (request "WebP" false true)
                           (Some cached))) = [zip_data]
      ∧ encode_passes (log (render_image_converter world2 (request "WebP" false true)
                              (Some cached))) = 0%nat.
Proof.
  split; [discriminate|]. split; [reflexivity|]. split; [reflexivity|].
  split; [reflexivity|].
  destruct (second_request_served_from_cache world1 world2
              (request "WebP" false false) (request "WebP" false true)
              converted decoded)
    as (zip_data & H1 & H2 & H3 & _ & H5 & H6 & _);
    [discriminate | reflexivity | reflexivity | reflexivity | reflexivity | reflexivity
     | discriminate | intros _; repeat constructor |].
  exists zip_data. repeat split; assumption.
Defined.

(** C6 fails as stated: with the "WebP" archive cached, asking for
    "PNG" leaves no entry for "WebP", no batch and no download, and the
    entry is still gone when the files have been converted again. *)
Lemma cached_archive_discarded_on_format_change :
  zip_cache cached !! "WebP" ≠ None
  ∧ zip_cache (session (interact world1 (request "PNG" false false) (Some cached)))
      !! "WebP" = None
  ∧ processed_images (session (interact world1 (request "PNG" false false) (Some cached)))
    = None
  ∧ downloads (page (interact world1 (request "PNG" false false) (Some cached))) = []
  ∧ zip_cache (session (interact world1 (request "PNG" true false) (Some cached)))
      !! "WebP" = None
  ∧ zip_cache (session (interact world1 (request "PNG" true false) (Some cached)))
      !! "PNG" ≠ None.
Proof. vm_compute. repeat split; discriminate || reflexivity. Qed.

(** C6, amended, on that request. *)
Lemma format_change_clears_cache_witness :
  uploaded_files (request "PNG" false false) ≠ []
  ∧ last_format cached ≠ Some "PNG"
  ∧ zip_cache (session (render_image_converter world1 (request "PNG" false false)
                          (Some cached))) = ∅
  ∧ downloads (page (render_image_converter world1 (request "PNG" false false)
                       (Some cached))) = [].
Proof.
  split; [discriminate|]. split; [discriminate|].
  destruct (format_change_clears_cache world1 (request "PNG" false false) cached)
    as (_ & H1 & H2 & _); [discriminate | discriminate |].
  split; [exact H1 | exact H2].
Defined.

(** C8 fails as stated: after "Convert All" for the label "WebP" of the
    select box the archive is stored under "WebP" as it stands and
    under no other key, the lower-cased label "webp" that names the
    download file included: no key of another letter case leads to
    it. *)
Lemma cache_key_is_not_normalised :
  "WebP" ∈ selectbox_options
  ∧ reachable (Some cached)
  ∧ downloads (page (interact world1 (request "WebP" true false) None)) ≠ []
  ∧ zip_cache cached !! "WebP" ≠ None
  ∧ Str.lower "WebP" = "webp"
  ∧ zip_cache cached !! "webp" = None
  ∧ zip_cache cached !! "WEBP" = None
  ∧ ∀ canonical : string → string,
      canonical "WebP" ≠ "WebP" → zip_cache cached !! canonical "WebP" = None.
Proof.
  split; [apply list_elem_of_lookup_2 with 2%nat; reflexivity|].
  split.
  { exact (reachable_run world1 (request "WebP" false false) _
             (reachable_run world1 (request "WebP" true false) None reachable_first)). }
  split; [vm_compute; discriminate|]. split; [vm_compute; discriminate|].
  split; [reflexivity|].
  assert (zip_cache cached
          = {[ "WebP" := Zip.close (zip_written decoded "WebP" [1; 0] (λ _, noon)).2 ]})
    as -> by (apply map_eq; intros k; reflexivity).
  split; [by apply lookup_singleton_ne|]. split; [by apply lookup_singleton_ne|].
  intros canonical Hne. apply lookup_singleton_ne. congruence.
Qed.

(** C8, amended, on a request for the label the archive is cached
    under. *)
Lemma cache_key_is_the_label_witness :
  uploaded_files (request "WebP" false false) ≠ []
  ∧ processed_images cached = Some decoded
  ∧ needs_processing cached inputs "WebP" = false
  ∧ session (render_image_converter world2 (request "WebP" false false) (Some cached))
    = cached.
Proof.
  split; [discriminate|]. split; [reflexivity|]. split; [reflexivity|].
  pose proof (cache_key_is_the_label world2 (request "WebP" false false) cached decoded)
    as [H _]; [discriminate | reflexivity | reflexivity | discriminate |].
  destruct (zip_cache cached !! target_format (request "WebP" false false)) eqn:E.
  - exact (proj1 H).
  - discriminate E.
Defined.

End Examples.

(** * Further properties of the code *)

(** ** The thread pool: every task runs once *)

Section ExecutorMore.
Context {lib : Imaging} {A B : Type} (fn : A → Py B) (xs : list A).

Implicit Types (p : Pool (B:=B)) (i : nat).

Lemma sink_ok_submit : sink_ok fn xs (submit_all xs).
Proof.
  split; [simpl; by rewrite length_replicate|]. unfold done_logs. simpl.
  assert (∀ n, concat (zip_with (λ x (f : option (result Exn B)),
                                   match f with Some _ => (fn x).1 | None => [] end)
                         xs (replicate n None)) = []) as H; [|by rewrite H].
  induction xs as [|x l IH]; intros [|n]; simpl; done.
Qed.

Lemma done_logs_insert (ys : list A) : ∀ (fs : list (option (result Exn B))) i x r,
  ys !! i = Some x → fs !! i = Some None →
  concat (zip_with (λ x f, match f with Some _ => (fn x).1 | None => [] end)
            ys (<[i := Some r]> fs))
  ≡ₚ concat (zip_with (λ x f, match f with Some _ => (fn x).1 | None => [] end) ys fs)
     ++ (fn x).1.
Proof.
  induction ys as [|y ys IH]; intros [|f fs] [|i] x r Hx Hf; simpl in *; try done.
  - injection Hx as ->. injection Hf as ->. simpl. apply Permutation_app_comm.
  - rewrite (IH fs i x r Hx Hf). by rewrite app_assoc.
Qed.

Lemma sink_ok_complete p i : sink_ok fn xs p → sink_ok fn xs (complete fn xs p i).
Proof.
  intros [Hlen Hsink]. unfold complete.
  destruct (xs !! i) as [x|] eqn:Hx; [|done].
  destruct (futures p !! i) as [[r0|]|] eqn:Hf; try done.
  destruct (fn x) as [l r] eqn:Hfn.
  split; [simpl; by rewrite length_insert|]. unfold done_logs in *. simpl.
  rewrite (done_logs_insert xs (futures p) i x r Hx Hf), Hsink, Hfn. done.
Qed.

Lemma sink_ok_run_workers done p : sink_ok fn xs p → sink_ok fn xs (run_workers fn xs p done).
Proof.
  revert p. induction done as [|i done IH]; intros p Hp; simpl; [done|].
  apply IH. by apply sink_ok_complete.
Qed.

(** A finished future stays finished. *)
Lemma complete_keeps p i j r :
  futures p !! j = Some (Some r) → futures (complete fn xs p i) !! j = Some (Some r).
Proof.
  intros Hj. unfold complete.
  destruct (xs !! i) as [x|]; [|done].
  destruct (futures p !! i) as [[r0|]|] eqn:Hf; try done.
  destruct (fn x) as [l r']. simpl.
  rewrite list_lookup_insert_ne; [done|]. intros ->. congruence.
Qed.

Lemma run_workers_keeps done p j r :
  futures p !! j = Some (Some r) →
  futures (run_workers fn xs p done) !! j = Some (Some r).
Proof.
  revert p. induction done as [|i done IH]; intros p Hj; simpl; [done|].
  by apply IH, complete_keeps.
Qed.

Lemma result_iterator_sink fs : ∀ sched p,
  sink_ok fn xs p → sink_ok fn xs (result_iterator fn xs fs sched p).1.
Proof.
  induction fs as [|i fs IH]; intros sched p Hp; simpl.
  { by apply sink_ok_run_workers. }
  set (p1 := complete fn xs (run_workers fn xs p (hd [] sched)) i).
  assert (sink_ok fn xs p1) as Hp1 by (apply sink_ok_complete, sink_ok_run_workers, Hp).
  specialize (IH (tl sched) p1 Hp1).
  destruct (futures p1 !! i) as [[[v|e]|]|]; try done.
  - by destruct (result_iterator fn xs fs (tl sched) p1) as [p2 [vs|e]].
  - simpl. by apply sink_ok_run_workers.
Qed.

Lemma result_iterator_keeps fs : ∀ sched p j r,
  futures p !! j = Some (Some r) →
  futures (result_iterator fn xs fs sched p).1 !! j = Some (Some r).
Proof.
  induction fs as [|i fs IH]; intros sched p j r Hj; simpl.
  { by apply run_workers_keeps. }
  set (p1 := complete fn xs (run_workers fn xs p (hd [] sched)) i).
  assert (futures p1 !! j = Some (Some r)) as Hp1
    by (by apply complete_keeps, run_workers_keeps).
  specialize (IH (tl sched) p1 j r Hp1).
  destruct (futures p1 !! i) as [[[v|e]|]|]; try done.
  - by destruct (result_iterator fn xs fs (tl sched) p1) as [p2 [?|?]].
  - simpl. by apply run_workers_keeps.
Qed.

(** When the iteration returns, every future it was to read is finished. *)
Lemma result_iterator_all_done fs : ∀ sched p vs,
  pool_ok fn xs p →
  (result_iterator fn xs fs sched p).2 = Ok vs →
  ∀ i, i ∈ fs → (i < length xs)%nat →
    ∃ r, futures (result_iterator fn xs fs sched p).1 !! i = Some (Some r).
Proof.
  induction fs as [|i fs IH]; intros sched p vs Hp Hres j Hj Hlt.
  { by apply elem_of_nil in Hj. }
  simpl in *.
  set (p1 := complete fn xs (run_workers fn xs p (hd [] sched)) i) in *.
  assert (pool_ok fn xs p1) as Hp1 by (apply complete_ok, run_workers_ok, Hp).
  assert (∃ x, futures p1 !! i = Some (Some (fn x).2) ∨ (length xs ≤ i)%nat) as [x Hi].
  { destruct (xs !! i) as [x|] eqn:Hx.
    - exists x. left. unfold p1. apply complete_lookup; [by apply run_workers_ok|done].
    - apply lookup_ge_None in Hx.
      destruct xs as [|x0 ?]; [|by exists x0; right].
      simpl in Hlt. lia. }
  apply elem_of_cons in Hj as [->|Hj].
  - destruct Hi as [Hi|Hi]; [|lia]. rewrite Hi in Hres |- *.
    destruct (fn x).2 as [v|e] eqn:Hfx; [|done].
    pose proof (result_iterator_keeps fs (tl sched) p1 i (Ok v) Hi) as Hkeep.
    destruct (result_iterator fn xs fs (tl sched) p1) as [p2 [vs'|e]];
      simpl in *; [|done]. by exists (Ok v).
  - destruct (futures p1 !! i) as [[[v|e]|]|] eqn:Hf; try done.
    + specialize (IH (tl sched) p1).
      destruct (result_iterator fn xs fs (tl sched) p1) as [p2 [vs'|e]];
        simpl in *; [|done]. by eapply (IH vs').
    + by eapply (IH (tl sched) p1 vs).
    + by eapply (IH (tl sched) p1 vs).
Qed.

Lemma done_logs_all p :
  length (futures p) = length xs →
  (∀ i, (i < length xs)%nat → ∃ r, futures p !! i = Some (Some r)) →
  done_logs fn xs p = concat ((λ x, (fn x).1) <$> xs).
Proof.
  unfold done_logs. generalize (futures p) as fs. clear p.
  induction xs as [|x l IH]; intros [|f fs] Hlen Hall; simpl in *; try done.
  destruct (Hall 0%nat ltac:(lia)) as [r [= ->]]. f_equal.
  apply IH; [lia|]. intros i Hi. apply (Hall (S i)). lia.
Qed.

(** When every task returns, the log of [executor.map] is the records
    of the tasks, each task's once, in some interleaving. *)
Lemma executor_map_log_ok sched vs :
  (executor_map fn xs sched).2 = Ok vs →
  (executor_map fn xs sched).1 ≡ₚ concat ((λ x, (fn x).1) <$> xs).
Proof.
  unfold executor_map.
  pose proof (result_iterator_sink (seq 0 (length xs)) sched _ sink_ok_submit) as [Hlen Hsink].
  pose proof (result_iterator_all_done (seq 0 (length xs)) sched (submit_all xs) vs
                (submit_all_ok fn xs)) as Hdone.
  destruct (result_iterator fn xs (seq 0 (length xs)) sched (submit_all xs)) as [p r].
  simpl in *. intros ->. rewrite Hsink. rewrite done_logs_all; [done|done|].
  intros i Hi. apply Hdone; [done| |done]. apply elem_of_seq. lia.
Qed.

End ExecutorMore.

(** ** The batch decoder *)

Section DecoderMore.
Context {lib : Imaging}.

(** X1.  The trace of one decode: the start record, the record of
    [process_heic] on the specialised route, and one closing record
    that agrees with the outcome. *)
Theorem process_image_trace (file : UploadedFile) :
  (process_image file).1
  = (INFO, "Processing image: " +:+ name file)
    :: (if Str.endswith (Str.lower (name file)) ".heic"
        then [(DEBUG, "Processing HEIC file: " +:+ name file)] else [])
    ++ [match (process_image file).2 with
        | Ok _ => (SUCCESS, "Successfully processed: " +:+ name file)
        | Raise e => (ERROR, "Error processing " +:+ name file +:+ ": " +:+ exn_str e)
        end].
Proof.
  unfold process_image, process_heic.
  destruct (Str.endswith (Str.lower (name file)) ".heic"); cbn.
  - destruct (read_heif file) as [h|e]; cbn; [|done].
    by destruct (Image_frombytes _ _ _ _ _).
  - by destruct (Image_open file).
Qed.

(** X2.  What [process_images_parallel] returns or raises does not depend on
    the order in which the workers finish. *)
Theorem process_images_parallel_any_order
    (files : list UploadedFile) (sched1 sched2 : list (list nat)) :
  (process_images_parallel files sched1).2 = (process_images_parallel files sched2).2.
Proof. by rewrite !process_images_parallel_result. Qed.

(** X3.  With several undecodable inputs the exception that surfaces is the
    one of the first of them in input order, whatever the schedule and
    whatever comes after it. *)
Theorem process_images_parallel_first_error
    (pre post : list UploadedFile) (bad : UploadedFile) (e : Exn)
    (sched : list (list nat)) :
  Forall (λ f, is_ok (process_image f).2 = true) pre →
  (process_image bad).2 = Raise e →
  (process_images_parallel (pre ++ bad :: post) sched).2 = Raise e.
Proof.
  intros Hpre Hbad.
  rewrite process_images_parallel_result, fmap_app, fmap_cons, Hbad.
  apply gather_first_raise. by apply Forall_fmap.
Qed.

(** X4.  When every input decodes, the log is the start record and the
    traces of the files, each file's exactly once, in some
    interleaving: no file is decoded twice and none is skipped. *)
Theorem process_images_parallel_log_ok
    (files : list UploadedFile) (sched : list (list nat))
    (batch : list ProcessedImage) :
  (process_images_parallel files sched).2 = Ok batch →
  (process_images_parallel files sched).1
  ≡ₚ (INFO, "Starting parallel processing of " +:+ pretty (length files) +:+ " images")
     :: concat ((λ f, (process_image f).1) <$> files).
Proof.
  unfold process_images_parallel. cbn.
  pose proof (executor_map_log_ok process_image files sched) as H.
  destruct (executor_map process_image files sched) as [l r]. simpl in *.
  intros ->. by rewrite (H batch).
Qed.

End DecoderMore.

(** ** The archive builder *)

Section ConverterMore.
Context {lib : Imaging}.
Import ZipSpec.

(** The records of the loop, one per future in the order they are
    handed out, when [record] tells what the loop logs for an image. *)
Lemma write_completed_log futures clock order target_format images
    (record : ProcessedImage → Level * string) : ∀ k zf,
  futures = (λ img, convert_to_buffer img target_format) <$> images →
  (∀ k zf img data,
     img ∈ images → Image_save (image img) target_format = Ok data →
     match Zip.writestr zf (clock k)
             (member_name (original_name img) target_format) data with
     | Ok _ =>
         (DEBUG, "Added " +:+ member_name (original_name img) target_format
                 +:+ " to ZIP")
     | Raise e => (ERROR, "Error adding file to ZIP: " +:+ Zip.Error_str e)
     end = record img) →
  (∀ img e,
     img ∈ images → Image_save (image img) target_format = Raise e →
     (ERROR, "Error adding file to ZIP: " +:+ exn_str e) = record img) →
  (write_completed futures clock k order zf).1
  = omap (λ i, images !! i ≫= λ img, Some (record img)) order.
Proof.
  intros k zf -> Hok Hraise. revert k zf.
  induction order as [|i order IH]; intros k zf; [done|]. simpl.
  rewrite list_lookup_fmap. destruct (images !! i) as [img|] eqn:Hi; simpl.
  - assert (img ∈ images) as Hin by (by eapply list_elem_of_lookup_2).
    rewrite convert_to_buffer_eq.
    destruct (Image_save (image img) target_format) as [data|e] eqn:Hsave; simpl.
    + specialize (Hok k zf img data Hin Hsave).
      destruct (Zip.writestr zf (clock k) _ data) as [zf1|e];
        match goal with
        | |- context [write_completed ?f clock (S k) order ?z] =>
            specialize (IH (S k) z);
            destruct (write_completed f clock (S k) order z) as [l' zf']
        end; simpl in *; by rewrite IH, Hok.
    + specialize (Hraise img e Hin Hsave).
      specialize (IH (S k) zf).
      destruct (write_completed _ clock (S k) order zf) as [l' zf'].
      simpl in *. by rewrite IH, Hraise.
  - specialize (IH (S k) zf).
    destruct (write_completed _ clock (S k) order zf) as [l' zf'].
    simpl in *. by rewrite IH.
Qed.

Lemma omap_lookup_records {A B} (f : A → B) (l : list A) (order : list nat) :
  order ≡ₚ seq 0 (length l) →
  omap (λ i, l !! i ≫= λ x, Some (f x)) order ≡ₚ f <$> l.
Proof.
  intros Hperm. rewrite (omap_lookup_order (λ x, Some (f x)) l order Hperm).
  clear. induction l as [|x l IH]; [done|].
  rewrite fmap_cons, <- IH. reflexivity.
Qed.

(** X6.  With the clock within the years of a ZIP time stamp and member
    names [zipfile] stores as they are, the loop of [create_zip] logs
    one record for every image of the batch: "Added ..." for an image
    that was written, "Error adding ..." for one that could not be
    saved; the SUCCESS record closes the log in either case. *)
Theorem create_zip_log_accounts
    (images : list ProcessedImage) (target_format : string)
    (sched : list nat) (clock : nat → Zip.DateTime) :
  (∀ k, calendar (clock k)) →
  Forall (λ img, plain (Path.stem (original_name img) +:+ "."
                        +:+ Str.lower target_format)) images →
  ∃ loop,
    (create_zip images target_format sched clock).1
    = (INFO, "Creating ZIP with " +:+ pretty (length images) +:+ " images in "
             +:+ target_format +:+ " format")
      :: loop ++ [(SUCCESS, "ZIP file created successfully")]
    ∧ loop ≡ₚ (λ img,
                 match Image_save (image img) target_format with
                 | Ok _ =>
                     (DEBUG, "Added " +:+ (Path.stem (original_name img) +:+ "."
                                          +:+ Str.lower target_format) +:+ " to ZIP")
                 | Raise e => (ERROR, "Error adding file to ZIP: " +:+ exn_str e)
                 end) <$> images.
Proof.
  intros Hclock Hplain.
  exists (zip_written images target_format sched clock).1.
  split; [apply create_zip_log|].
  unfold zip_written.
  rewrite (write_completed_log _ _ _ target_format images (loop_record target_format));
    [|done| |].
  - rewrite length_fmap. apply omap_lookup_records, as_completed_once.
  - intros k zf img data Hin Hsave. unfold loop_record. rewrite Hsave.
    rewrite Forall_forall in Hplain.
    destruct (writestr_plain zf (clock k) (member_name (original_name img) target_format)
                data (Hclock k) (Hplain img Hin) (member_name_nonempty _ _)) as [zf1 ->].
    done.
  - intros img e Hin Hsave. unfold loop_record. by rewrite Hsave.
Qed.

(** The loop under a clock before 1980 writes nothing. *)
Lemma write_completed_refused futures clock order : ∀ k zf,
  (∀ k, (Zip.year (clock k) < 1980)%Z) →
  (write_completed futures clock k order zf).2 = zf.
Proof.
  induction order as [|i order IH]; intros k zf Hclock; [done|]. simpl.
  destruct (futures !! i) as [[l0 [[nm d]|e]]|]; simpl;
    rewrite ?writestr_before_1980 by done;
    specialize (IH (S k) zf Hclock);
    by destruct (write_completed futures clock (S k) order zf) as [l' zf'].
Qed.

(** X17.  Under a clock before 1980 (a machine that starts at the epoch)
    [zipfile] refuses every member: [create_zip] still returns, the 22
    bytes of an archive without members, and its log has an ERROR
    record for every image of the batch, with the reason of [zipfile]
    for an image that was saved and the reason of [save] for one that
    was not. *)
Theorem create_zip_before_1980
    (images : list ProcessedImage) (target_format : string)
    (sched : list nat) (clock : nat → Zip.DateTime) :
  (∀ k, (Zip.year (clock k) < 1980)%Z) →
  ∃ loop,
    (create_zip images target_format sched clock).2
    = Ok [x50; x4b; x05; x06; x00; x00; x00; x00; x00; x00; x00; x00;
          x00; x00; x00; x00; x00; x00; x00; x00; x00; x00]
    ∧ (create_zip images target_format sched clock).1
      = (INFO, "Creating ZIP with " +:+ pretty (length images) +:+ " images in "
               +:+ target_format +:+ " format")
        :: loop ++ [(SUCCESS, "ZIP file created successfully")]
    ∧ loop ≡ₚ (λ img,
                 match Image_save (image img) target_format with
                 | Ok _ =>
                     (ERROR, "Error adding file to ZIP: "
                             +:+ "ZIP does not support timestamps before 1980")
                 | Raise e => (ERROR, "Error adding file to ZIP: " +:+ exn_str e)
                 end) <$> images.
Proof.
  intros Hclock.
  exists (zip_written images target_format sched clock).1.
  split; [|split; [apply create_zip_log|]].
  - rewrite create_zip_result. unfold zip_written.
    by rewrite write_completed_refused.
  - unfold zip_written.
    rewrite (write_completed_log _ _ _ target_format images
               (λ img,
                  match Image_save (image img) target_format with
                  | Ok _ =>
                      (ERROR, "Error adding file to ZIP: "
                              +:+ "ZIP does not support timestamps before 1980")
                  | Raise e => (ERROR, "Error adding file to ZIP: " +:+ exn_str e)
                  end)); [|done| |].
    + rewrite length_fmap.
      apply (omap_lookup_records
               (λ img,
                  match Image_save (image img) target_format with
                  | Ok _ =>
                      (ERROR, "Error adding file to ZIP: "
                              +:+ "ZIP does not support timestamps before 1980")
                  | Raise e => (ERROR, "Error adding file to ZIP: " +:+ exn_str e)
                  end)), as_completed_once.
    + intros k zf img data _ Hsave. rewrite Hsave.
      by rewrite writestr_before_1980.
    + intros img e _ Hsave. by rewrite Hsave.
Qed.

End ConverterMore.

(** ** Member names *)

Section NamesMore.
Context {lib : Imaging}.

Lemma rfind_cons_None (c a : ascii) (s : string) :
  Str.rfind c (String a s) = None ↔ Ascii.eqb a c = false ∧ Str.rfind c s = None.
Proof.
  simpl. destruct (Str.rfind c s); [by split; [|intros [_ ?]]|].
  destruct (Ascii.eqb a c); by split; [|intros [? _]].
Qed.

(** A piece of a split has no separator in it. *)
Lemma split_pieces (sep : ascii) (s piece : string) :
  piece ∈ Str.split sep s → Str.rfind sep piece = None.
Proof.
  revert piece. induction s as [|a s IH]; intros piece; simpl.
  { intros ->%list_elem_of_singleton. done. }
  destruct (Ascii.eqb a sep) eqn:Ha.
  - intros [->|Hin]%elem_of_cons; [done | by apply IH].
  - destruct (Str.split sep s) as [|h t].
    + intros ->%list_elem_of_singleton. by apply rfind_cons_None.
    + intros [->|Hin]%elem_of_cons.
      * apply rfind_cons_None. split; [done|]. apply IH, list_elem_of_here.
      * by apply IH, list_elem_of_further.
Qed.

Lemma last_default_or_elem {A} (l : list A) (d : A) :
  List.last l d = d ∨ List.last l d ∈ l.
Proof.
  induction l as [|x [|y l] IH]; [by left | right; apply list_elem_of_here |].
  destruct IH as [IH|IH].
  - left. exact IH.
  - right. by apply list_elem_of_further.
Qed.

Lemma name_no_separator (p : string) : Str.rfind "/" (Path.name p) = None.
Proof.
  unfold Path.name, Path.parts.
  destruct (last_default_or_elem
              (filter (λ c, c ≠ EmptyString ∧ c ≠ ".") (Str.split "/" p)) EmptyString)
    as [->|Hin]; [done|].
  apply list_elem_of_filter in Hin as [_ Hin]. by eapply split_pieces.
Qed.

Lemma substring_no_char (c : ascii) (s : string) : ∀ n,
  Str.rfind c s = None → Str.rfind c (substring 0 n s) = None.
Proof.
  induction s as [|a s IH]; intros [|n] Hs; try done.
  apply rfind_cons_None in Hs as [Ha Hs].
  change (substring 0 (S n) (String a s)) with (String a (substring 0 n s)).
  apply rfind_cons_None. split; [done|]. by apply IH.
Qed.

Lemma stem_no_separator (p : string) : Str.rfind "/" (Path.stem p) = None.
Proof.
  unfold Path.stem. pose proof (name_no_separator p) as Hn.
  destruct (Str.rfind "." (Path.name p)) as [i|]; [|done].
  destruct (_ && _); [by apply substring_no_char | done].
Qed.

Lemma lower_char_slash (a : ascii) :
  Ascii.eqb (Str.lower_char a) "/" = Ascii.eqb a "/".
Proof. by destruct a as [[] [] [] [] [] [] [] []]. Qed.

Lemma lower_no_separator (s : string) :
  Str.rfind "/" s = None → Str.rfind "/" (Str.lower s) = None.
Proof.
  induction s as [|a s IH]; [done|]. intros [Ha Hs]%rfind_cons_None.
  change (Str.lower (String a s)) with (String (Str.lower_char a) (Str.lower s)).
  apply rfind_cons_None. split; [by rewrite lower_char_slash | by apply IH].
Qed.

(** X7.  The name of a member never has a directory part: whatever path the
    original name carried, the member sits at the top of the archive,
    and its name ends in the dot and the lower-cased format label. *)
Theorem member_names_are_flat
    (img : ProcessedImage) (target_format new_name : string) (data : bytes) :
  Str.rfind "/" target_format = None →
  (convert_to_buffer img target_format).2 = Ok (new_name, data) →
  Str.rfind "/" new_name = None
  ∧ Str.endswith new_name ("." +:+ Str.lower target_format) = true.
Proof.
  intros Hfmt. rewrite convert_to_buffer_eq. simpl.
  destruct (Image_save (image img) target_format); [|done].
  simpl. intros [= <- _]. unfold member_name. split.
  - rewrite !rfind_app, (lower_no_separator _ Hfmt). simpl.
    apply stem_no_separator.
  - apply endswith_spec. by exists (Path.stem (original_name img)).
Qed.

End NamesMore.

(** ** The page *)

Section PageMore.
Context {lib : Imaging}.

(** Same length and no pair of differing names: the same names in the
    same order. *)
Lemma names_compared (files last : list UploadedFile) :
  negb (length files =? length last)%nat
  || existsb (λ '(f1, f2), negb (String.eqb (name f1) (name f2))) (zip files last)
  = false
  ↔ name <$> files = name <$> last.
Proof.
  revert last. induction files as [|f files IH]; intros [|g last];
    rewrite ?fmap_cons; simpl; try (split; done).
  specialize (IH last).
  destruct (String.eqb_spec (name f) (name g)) as [Heq|Hne]; simpl.
  - rewrite IH, Heq. split; [by intros -> | by intros [= ?]].
  - rewrite orb_true_r. split; [done | by intros [= ? ?]].
Qed.

(** X8.  The session is taken as up to date exactly when it holds a batch
    and the uploads have the names, in order, and the format recorded
    with it. *)
Theorem needs_processing_false_iff
    (s : SessionState) (files : list UploadedFile) (target_format : string) :
  needs_processing s files target_format = false
  ↔ ∃ batch last,
      processed_images s = Some batch
      ∧ last_files_processed s = Some last
      ∧ name <$> files = name <$> last
      ∧ last_format s = Some target_format.
Proof.
  unfold needs_processing.
  destruct (processed_images s) as [batch|]; [|split; [done | by intros (? & ? & ? & _)]].
  destruct (last_files_processed s) as [last|];
    [|split; [done | by intros (? & ? & _ & ? & _)]].
  rewrite orb_false_iff, names_compared, negb_false_iff, bool_decide_eq_true. split.
  - intros [Hnames Hfmt]. by exists batch, last.
  - intros (? & ? & _ & [= <-] & Hnames & Hfmt). done.
Qed.

Lemma needs_processing_names (s : SessionState) (files files' : list UploadedFile)
    (target_format : string) :
  name <$> files' = name <$> files →
  needs_processing s files' target_format = needs_processing s files target_format.
Proof.
  intros Hnames. unfold needs_processing.
  destruct (processed_images s); [|done].
  destruct (last_files_processed s) as [last|]; [|done]. f_equal.
  destruct (negb _ || existsb _ (zip files last)) eqn:H.
  - apply not_false_iff_true. rewrite names_compared, Hnames.
    intros H'. apply names_compared in H'. congruence.
  - apply names_compared. rewrite Hnames. by apply names_compared.
Qed.

(** How a run ends and what it leaves, by the branch it takes. *)
Lemma render_cases (env : World) (w : Widgets) (st : option SessionState) :
  (uploaded_files w = []
   ∧ session (render_image_converter env w st) = (init_session st).2
   ∧ page (render_image_converter env w st) = [st_title "Image Converter"]
   ∧ outcome (render_image_converter env w st) = Finished)
  ∨ (uploaded_files w ≠ []
     ∧ needs_processing (init_session st).2 (uploaded_files w) (target_format w) = true
     ∧ downloads (page (render_image_converter env w st)) = []
     ∧ pictures (page (render_image_converter env w st)) = []
     ∧ ((convert_all w = false
         ∧ session (render_image_converter env w st) = reset (init_session st).2
         ∧ outcome (render_image_converter env w st) = Finished)
        ∨ (convert_all w = true
           ∧ ∃ batch,
               (process_images_parallel (uploaded_files w) (decode_order env)).2 = Ok batch
               ∧ session (render_image_converter env w st)
                 = {| processed_images := Some batch;
                      last_files_processed := Some (uploaded_files w);
                      last_format := Some (target_format w);
                      zip_cache := ∅ |}
               ∧ outcome (render_image_converter env w st) = Rerun)
        ∨ (convert_all w = true
           ∧ ∃ e,
               (process_images_parallel (uploaded_files w) (decode_order env)).2 = Raise e
               ∧ session (render_image_converter env w st) = reset (init_session st).2
               ∧ outcome (render_image_converter env w st) = Uncaught e)))
  ∨ (uploaded_files w ≠ []
     ∧ needs_processing (init_session st).2 (uploaded_files w) (target_format w) = false
     ∧ session (render_image_converter env w st)
       = session (show_results env w (init_session st).2)
     ∧ page (render_image_converter env w st)
       = [st_title "Image Converter"] ++ page (show_results env w (init_session st).2)
     ∧ outcome (render_image_converter env w st)
       = outcome (show_results env w (init_session st).2)).
Proof.
  unfold render_image_converter.
  destruct (init_session st) as [l s]. cbn [snd].
  destruct (uploaded_files w) as [|f fs] eqn:Hw; [by left|]. right.
  destruct (needs_processing s (f :: fs) (target_format w)) eqn:Hn; [left|by right].
  split; [done|]. split; [done|].
  destruct (convert_all w).
  - destruct (process_images_parallel (f :: fs) (decode_order env)) as [l' [batch|e]].
    + split; [done|]. split; [done|]. right. left. split; [done|]. by exists batch.
    + split; [done|]. split; [done|]. right. right. split; [done|]. by exists e.
  - rewrite show_results_none by done.
    split; [done|]. split; [done|]. by left.
Qed.

(** The pictures of a gallery, whatever the column of each index. *)
Lemma pictures_imap (col : nat → nat) (batch : list ProcessedImage) :
  omap (λ el, match el with
              | st_image column im caption => Some (column, im, caption)
              | _ => None
              end)
    (imap (λ idx im, st_image (col idx) (image im) (original_name im)) batch)
  = imap (λ idx im, (col idx, image im, original_name im)) batch.
Proof.
  revert col. induction batch as [|im batch IH]; intros col; [done|].
  rewrite !imap_cons.
  change (omap ?f (st_image ?c ?i ?n :: ?l)) with ((c, i, n) :: omap f l).
  f_equal. apply (IH (col ∘ S)).
Qed.

Lemma pictures_app (pg1 pg2 : list Element) :
  pictures (pg1 ++ pg2) = pictures pg1 ++ pictures pg2.
Proof. apply omap_app. Qed.

(** The pictures of a gallery whose images can all be encoded. *)
Lemma pictures_gallery_ok (batch : list ProcessedImage) :
  Forall (λ im, is_ok (st_image_encode (image im)) = true) batch →
  pictures (gallery batch).1
  = imap (λ idx im, (idx mod 3, image im, original_name im)) batch.
Proof.
  intros Hall. unfold gallery. rewrite (draw_images_ok batch 0 Hall).
  cbn [fst]. unfold pictures.
  change (omap ?f (st_subheader ?b :: ?l)) with (omap f l).
  apply (pictures_imap (λ idx, idx mod 3)).
Qed.

(** The pictures of a gallery that stops at an image. *)
Lemma pictures_gallery_raise (pre post : list ProcessedImage) (bad : ProcessedImage)
    (e : Exn) :
  Forall (λ im, is_ok (st_image_encode (image im)) = true) pre →
  st_image_encode (image bad) = Raise e →
  pictures (gallery (pre ++ bad :: post)).1
  = imap (λ idx im, (idx mod 3, image im, original_name im)) pre
  ∧ (gallery (pre ++ bad :: post)).2 = Some e.
Proof.
  intros Hall Hbad. unfold gallery. rewrite (draw_images_raise pre bad post e 0 Hall Hbad).
  cbn [fst snd]. split; [|done]. unfold pictures.
  change (omap ?f (st_subheader ?b :: ?l)) with (omap f l).
  apply (pictures_imap (λ idx, idx mod 3)).
Qed.

(** What the results part of a run draws. *)
Lemma show_results_pictures (env : World) (w : Widgets) (s : SessionState)
    (batch : list ProcessedImage) :
  processed_images s = Some batch →
  pictures (page (show_results env w s))
  = if show_processed w then pictures (gallery batch).1 else [].
Proof.
  intros Himg. unfold show_results, gallery_error. rewrite Himg.
  pose proof (create_zip_result batch (target_format w) (encode_order env)
                (localtime env)) as Hres.
  destruct (create_zip batch (target_format w) (encode_order env) (localtime env))
    as [l r]. simpl in Hres. subst r.
  destruct (show_processed w).
  - destruct (gallery batch).2; [|destruct (zip_cache s !! target_format w)];
      cbn [page]; rewrite !pictures_app; simpl; by rewrite ?app_nil_r.
  - destruct (zip_cache s !! target_format w); done.
Qed.

(** What the results part of a run leaves when there is a batch: the
    gallery ends the run, or the cache step serves or builds the
    archive. *)
Lemma show_results_cases (env : World) (w : Widgets) (s : SessionState)
    (batch : list ProcessedImage) :
  processed_images s = Some batch →
  (∃ e, gallery_error w batch = Some e
        ∧ session (show_results env w s) = s
        ∧ downloads (page (show_results env w s)) = []
        ∧ outcome (show_results env w s) = Uncaught e)
  ∨ (gallery_error w batch = None
     ∧ ∃ zip_data,
         downloads (page (show_results env w s)) = [zip_data]
         ∧ zip_cache (session (show_results env w s)) !! target_format w = Some zip_data
         ∧ outcome (show_results env w s) = Finished
         ∧ ((zip_cache s !! target_format w = Some zip_data
             ∧ session (show_results env w s) = s)
            ∨ (zip_cache s !! target_format w = None
               ∧ (create_zip batch (target_format w) (encode_order env)
                    (localtime env)).2 = Ok zip_data
               ∧ session (show_results env w s)
                 = {| processed_images := processed_images s;
                      last_files_processed := last_files_processed s;
                      last_format := last_format s;
                      zip_cache := <[target_format w := zip_data]> (zip_cache s) |}))).
Proof.
  intros Himg. destruct (gallery_error w batch) as [e|] eqn:Hg.
  { left. exists e.
    destruct (show_results_dies env w s batch e Himg Hg) as (Hs & Hd & _ & Ho). done. }
  right. split; [done|].
  destruct (zip_cache s !! target_format w) as [z|] eqn:Hc.
  - exists z. destruct (show_results_hit env w s batch z Himg Hg Hc) as (Hs & Hd & _ & Ho).
    split; [done|]. split; [by rewrite Hs|]. split; [done|]. by left.
  - eexists. destruct (show_results_miss env w s batch Himg Hg Hc) as (Hs & Hd & _ & Ho).
    split; [exact Hd|]. split; [by rewrite Hs; cbn; rewrite lookup_insert_eq|].
    split; [done|]. right. split; [done|]. split; [apply create_zip_result | done].
Qed.

Lemma steady_batch (s : SessionState) (files : list UploadedFile)
    (target_format : string) :
  needs_processing s files target_format = false →
  ∃ batch, processed_images s = Some batch ∧ last_format s = Some target_format.
Proof.
  unfold needs_processing. destruct (processed_images s) as [batch|]; [|done].
  destruct (last_files_processed s); [|done]. intros Hn.
  apply orb_false_elim in Hn as [_ Hn].
  apply negb_false_iff, bool_decide_eq_true in Hn. by exists batch.
Qed.

(** The results part reads the widgets for the number of uploads, the
    format and the toggle only. *)
Lemma show_results_widgets (env : World) (w w' : Widgets) (s : SessionState) :
  length (uploaded_files w') = length (uploaded_files w) →
  target_format w' = target_format w →
  show_processed w' = show_processed w →
  show_results env w' s = show_results env w s.
Proof.
  intros Hlen Hf Ht. unfold show_results, gallery_error. by rewrite Hlen, Hf, Ht.
Qed.

(** X9.  Uploads are told apart by their names only: with the session up to
    date for one set of uploads, a run on any other set with the same
    names in the same order, whatever the files contain, is the run on
    the first set: nothing is decoded, and the session, the page, the
    log and the outcome are the same. *)
Theorem uploads_known_by_name (env : World) (w w' : Widgets) (s : SessionState) :
  name <$> uploaded_files w' = name <$> uploaded_files w →
  target_format w' = target_format w →
  show_processed w' = show_processed w →
  needs_processing s (uploaded_files w) (target_format w) = false →
  needs_processing s (uploaded_files w') (target_format w') = false
  ∧ render_image_converter env w' (Some s) = render_image_converter env w (Some s).
Proof.
  intros Hnames Hf Ht Hsteady.
  assert (needs_processing s (uploaded_files w') (target_format w') = false) as Hsteady'.
  { by rewrite Hf, (needs_processing_names s (uploaded_files w)). }
  split; [done|].
  destruct (decide (uploaded_files w = [])) as [Hw|Hw].
  - assert (uploaded_files w' = []) as Hw'.
    { apply (fmap_nil_inv name). by rewrite Hnames, Hw. }
    unfold render_image_converter. cbn [init_session]. by rewrite Hw, Hw'.
  - assert (uploaded_files w' ≠ []) as Hw'.
    { intros Hnil. rewrite Hnil in Hnames. symmetry in Hnames.
      by apply fmap_nil_inv in Hnames. }
    rewrite !render_steady by done.
    rewrite (show_results_widgets env w w' s); [done| |done|done].
    apply (f_equal length) in Hnames. by rewrite !length_fmap in Hnames.
Qed.

(** X10.  A run dies of an exception in two places only.  Under
    "Convert All" on a changed input set or format it dies of the
    exception of the decoder; with the session up to date and the
    gallery shown it dies of the exception of [st.image] for the first
    image of the batch that cannot be encoded.  It asks for a rerun
    exactly when the decoding under "Convert All" succeeded. *)
Theorem render_outcome (env : World) (w : Widgets) (st : option SessionState) :
  (∀ e, outcome (render_image_converter env w st) = Uncaught e
        ↔ uploaded_files w ≠ []
          ∧ ((needs_processing (init_session st).2 (uploaded_files w) (target_format w)
              = true
              ∧ convert_all w = true
              ∧ (process_images_parallel (uploaded_files w) (decode_order env)).2
                = Raise e)
             ∨ (needs_processing (init_session st).2 (uploaded_files w) (target_format w)
                = false
                ∧ show_processed w = true
                ∧ ∃ pre bad post,
                    processed_images (init_session st).2 = Some (pre ++ bad :: post)
                    ∧ Forall (λ im, is_ok (st_image_encode (image im)) = true) pre
                    ∧ st_image_encode (image bad) = Raise e)))
  ∧ (outcome (render_image_converter env w st) = Rerun
     ↔ uploaded_files w ≠ []
       ∧ needs_processing (init_session st).2 (uploaded_files w) (target_format w) = true
       ∧ convert_all w = true
       ∧ ∃ batch,
           (process_images_parallel (uploaded_files w) (decode_order env)).2 = Ok batch).
Proof.
  destruct (render_cases env w st)
    as [(Hw & _ & _ & Ho)
       |[(Hw & Hn & _ & _ & [(Hc & _ & Ho)|[(Hc & batch & Hr & _ & Ho)|(Hc & e' & Hr & _ & Ho)]])
        |(Hw & Hn & _ & _ & Ho)]].
  - rewrite Ho. split; [intros e|]; (split; [done | by intros [? _]]).
  - rewrite Ho, Hc, Hn. split; [intros e|].
    + split; [done | by intros (_ & [(_ & ? & _)|(? & _)])].
    + split; [done | by intros (_ & _ & ? & _)].
  - rewrite Ho, Hr, Hn. split; [intros e|].
    + split; [done | by intros (_ & [(_ & _ & ?)|(? & _)])].
    + split; [intros _; eauto 10 | done].
  - rewrite Ho, Hr, Hn. split; [intros e|].
    + split; [intros [= ->]; split; [done|]; by left|].
      by intros (_ & [(_ & _ & [= ->])|(? & _)]).
    + split; [done | by intros (_ & _ & _ & ? & ?)].
  - destruct (steady_batch _ _ _ Hn) as (batch & Hb & _).
    rewrite Ho, Hn. split; [intros e|]; cycle 1.
    { split; [|by intros (_ & ? & _)].
      destruct (show_results_cases env w _ batch Hb)
        as [(e' & _ & _ & _ & ->)|(_ & z & _ & _ & -> & _)]; done. }
    split.
    + intros Hout.
      destruct (show_results_cases env w _ batch Hb)
        as [(e' & Hg & _ & _ & Ho')|(_ & z & _ & _ & Ho' & _)];
        rewrite Ho' in Hout; [|done]. injection Hout as ->.
      unfold gallery_error in Hg. destruct (show_processed w) eqn:Ht; [|done].
      rewrite gallery_snd in Hg.
      destruct (draw_images_error batch e 0 Hg) as (pre & bad & post & -> & Hpre & Hbad).
      split; [done|]. right. split; [done|]. split; [done|].
      by exists pre, bad, post.
    + intros (_ & [(? & _)|(_ & Ht & pre & bad & post & Hb' & Hpre & Hbad)]); [done|].
      assert (batch = pre ++ bad :: post) as -> by congruence.
      assert (gallery_error w (pre ++ bad :: post) = Some e) as Hg.
      { unfold gallery_error. rewrite Ht.
        apply (pictures_gallery_raise pre post bad e Hpre Hbad). }
      by destruct (show_results_dies env w _ _ e Hb Hg) as (_ & _ & _ & ->).
Qed.

Lemma interact_no_rerun (env : World) (w : Widgets) (st : option SessionState) :
  outcome (interact env w st) ≠ Rerun.
Proof.
  unfold interact.
  destruct (outcome (render_image_converter env w st)) eqn:Ho; [by rewrite Ho| |by rewrite Ho].
  cbn [outcome].
  set (w' := {| uploaded_files := uploaded_files w; target_format := target_format w;
                convert_all := false; show_processed := show_processed w |}).
  destruct (render_cases env w' (Some (session (render_image_converter env w st))))
    as [(_ & _ & _ & ->)
       |[(_ & _ & _ & _ & [(_ & _ & ->)|[(Hc & _)|(Hc & _)]])
        |(_ & Hn & _ & _ & ->)]]; try done.
  cbn [init_session snd] in Hn |- *.
  destruct (steady_batch _ _ _ Hn) as (batch & Hb & _).
  destruct (show_results_cases env w' _ batch Hb)
    as [(e' & _ & _ & _ & ->)|(_ & z & _ & _ & -> & _)]; done.
Qed.

(** X11.  The script reruns at most once in a row: an interaction, the rerun
    after a conversion included, ends at the end of the script or in
    an uncaught exception, never in another [st.rerun()]. *)
Theorem rerun_runs_once (env : World) (w : Widgets) (st : option SessionState) :
  outcome (interact env w st) = Finished
  ∨ ∃ e, outcome (interact env w st) = Uncaught e.
Proof.
  pose proof (interact_no_rerun env w st) as H.
  destruct (outcome (interact env w st)) as [| |e]; [by left | done | right; by exists e].
Qed.

(** X12.  A click on "Convert All" whose decoding succeeds ends, after the
    rerun, with the batch, the uploads and the format in the session,
    the archive of the batch as the only cache entry, and that archive
    offered for download, provided the rerun reaches the cache step:
    where the gallery is shown, its images can be drawn. *)
Theorem convert_all_then_download (env : World) (w : Widgets)
    (st : option SessionState) (batch : list ProcessedImage) :
  uploaded_files w ≠ [] →
  needs_processing (init_session st).2 (uploaded_files w) (target_format w) = true →
  convert_all w = true →
  (process_images_parallel (uploaded_files w) (decode_order env)).2 = Ok batch →
  (show_processed w = true →
   Forall (λ img, is_ok (st_image_encode (image img)) = true) batch) →
  ∃ zip_data,
    (create_zip batch (target_format w) (encode_order env) (localtime env)).2 = Ok zip_data
    ∧ session (interact env w st)
      = {| processed_images := Some batch;
           last_files_processed := Some (uploaded_files w);
           last_format := Some (target_format w);
           zip_cache := {[ target_format w := zip_data ]} |}
    ∧ downloads (page (interact env w st)) = [zip_data]
    ∧ outcome (interact env w st) = Finished.
Proof.
  intros Hw Hn Hc Hr Hshow. unfold interact.
  destruct (render_cases env w st)
    as [(Hw' & _)
       |[(_ & _ & _ & _ & [(Hc' & _)|[(_ & batch' & Hr' & Hs & Ho)|(_ & e' & Hr' & _)]])
        |(_ & Hn' & _)]]; try congruence.
  assert (batch' = batch) as -> by congruence.
  rewrite Ho, Hs. cbn [outcome session page].
  set (s1 := {| processed_images := Some batch;
                last_files_processed := Some (uploaded_files w);
                last_format := Some (target_format w);
                zip_cache := ∅ |}).
  set (w' := {| uploaded_files := uploaded_files w; target_format := target_format w;
                convert_all := false; show_processed := show_processed w |}).
  assert (needs_processing s1 (uploaded_files w') (target_format w') = false) as Hsteady.
  { unfold needs_processing, s1, w'.
    cbn [processed_images last_files_processed last_format uploaded_files target_format].
    rewrite (proj2 (names_compared (uploaded_files w) (uploaded_files w)) eq_refl).
    by rewrite bool_decide_eq_true_2. }
  assert (gallery_error w' batch = None) as Hg by (by apply gallery_error_ok).
  rewrite render_steady by done. cbn [after session page outcome].
  rewrite downloads_app.
  destruct (show_results_miss env w' s1 batch eq_refl Hg (lookup_empty _))
    as (Hs1 & Hd & _ & Hout).
  eexists. split; [apply create_zip_result|]. rewrite Hs1, Hd, Hout.
  cbn [processed_images last_files_processed last_format zip_cache s1 target_format w'].
  by rewrite insert_empty.
Qed.

(** X13.  A page offers at most one download, and what it offers is what the
    session then holds in the cache under the requested format; a run
    that offers one reaches the end of the script. *)
Theorem download_is_cache_entry (env : World) (w : Widgets) (st : option SessionState) :
  downloads (page (render_image_converter env w st)) = []
  ∨ ∃ zip_data,
      downloads (page (render_image_converter env w st)) = [zip_data]
      ∧ zip_cache (session (render_image_converter env w st)) !! target_format w
        = Some zip_data
      ∧ outcome (render_image_converter env w st) = Finished.
Proof.
  destruct (render_cases env w st)
    as [(_ & _ & -> & _)|[(_ & _ & -> & _)|(_ & Hn & -> & -> & ->)]]; [by left..|].
  rewrite downloads_app.
  destruct (steady_batch _ _ _ Hn) as (batch & Hb & _).
  destruct (show_results_cases env w _ batch Hb)
    as [(e & _ & _ & Hd & _)|(_ & z & Hd & Hc & Ho & _)].
  - left. by rewrite Hd.
  - right. exists z. by rewrite Hd.
Qed.

(** X14.  With the session up to date and the toggle on, the page draws
    the images of the batch in order, the i-th in column i mod 3 and
    captioned with the name of its upload: all of them when [st.image]
    can encode them all; otherwise those before the first image it
    cannot encode, where the run ends with the exception of [st.image],
    before the cache step: no download is offered and the session is
    left as it was.  With the toggle off the page draws none. *)
Theorem gallery_shows_batch (env : World) (w : Widgets) (s : SessionState)
    (batch : list ProcessedImage) :
  uploaded_files w ≠ [] →
  needs_processing s (uploaded_files w) (target_format w) = false →
  processed_images s = Some batch →
  (show_processed w = true →
   Forall (λ im, is_ok (st_image_encode (image im)) = true) batch →
   pictures (page (render_image_converter env w (Some s)))
   = imap (λ idx im, (idx mod 3, image im, original_name im)) batch)
  ∧ (∀ pre bad post e,
       show_processed w = true →
       batch = pre ++ bad :: post →
       Forall (λ im, is_ok (st_image_encode (image im)) = true) pre →
       st_image_encode (image bad) = Raise e →
       pictures (page (render_image_converter env w (Some s)))
       = imap (λ idx im, (idx mod 3, image im, original_name im)) pre
       ∧ outcome (render_image_converter env w (Some s)) = Uncaught e
       ∧ downloads (page (render_image_converter env w (Some s))) = []
       ∧ session (render_image_converter env w (Some s)) = s)
  ∧ (show_processed w = false →
     pictures (page (render_image_converter env w (Some s))) = []).
Proof.
  intros Hw Hn Hb. rewrite render_steady by done. cbn [after page session outcome].
  rewrite pictures_app, downloads_app, (show_results_pictures env w s batch Hb).
  split; [|split].
  - intros -> Hall. by rewrite pictures_gallery_ok.
  - intros pre bad post e Ht -> Hpre Hbad.
    destruct (pictures_gallery_raise pre post bad e Hpre Hbad) as [Hp Hg].
    rewrite Ht, Hp.
    assert (gallery_error w (pre ++ bad :: post) = Some e) as Hge
      by (unfold gallery_error; by rewrite Ht).
    by destruct (show_results_dies env w s _ e Hb Hge) as (-> & -> & _ & ->).
  - by intros ->.
Qed.

Lemma init_consistent : consistent (init_session None).2.
Proof.
  split; [done|]. intros k z. cbn. by rewrite lookup_empty.
Qed.

Lemma reset_consistent (s : SessionState) : consistent (reset s).
Proof.
  split; [done|]. intros k z. cbn. by rewrite lookup_empty.
Qed.

(** A run keeps the session consistent. *)
Lemma render_consistent (env : World) (w : Widgets) (st : option SessionState) :
  (∀ s, st = Some s → consistent s) →
  consistent (session (render_image_converter env w st)).
Proof.
  intros Hst.
  assert (consistent (init_session st).2) as H0.
  { destruct st as [s|]; [by apply Hst | apply init_consistent]. }
  destruct (render_cases env w st)
    as [(_ & -> & _)
       |[(_ & _ & _ & _ & [(_ & -> & _)|[(_ & batch & Hr & -> & _)|(_ & e & _ & -> & _)]])
        |(_ & Hn & -> & _)]];
    [done | apply reset_consistent | | apply reset_consistent | ].
  - split.
    + intros ? [= <-]. cbn. by exists (uploaded_files w), (decode_order env).
    + intros k z. cbn. by rewrite lookup_empty.
  - destruct (steady_batch _ _ _ Hn) as (batch & Hb & Hfmt).
    destruct (show_results_cases env w _ batch Hb)
      as [(e & _ & -> & _)|(_ & z & _ & _ & _ & [[_ ->]|(Hmiss & Hz & ->)])];
      [done|done|].
    destruct H0 as [Hbatch Hcache]. split; [exact Hbatch|].
    intros k z'. cbn [zip_cache last_format processed_images].
    destruct (decide (k = target_format w)) as [->|Hk].
    * rewrite lookup_insert_eq. intros [= <-]. split; [done|].
      by exists batch, (encode_order env), (localtime env).
    * rewrite lookup_insert_ne by done. apply Hcache.
Qed.

(** A map whose keys all equal one key has at most one entry. *)
Lemma one_key_size (cache : gmap string bytes) (key : option string) :
  (∀ k z, cache !! k = Some z → key = Some k) →
  (size cache ≤ 1)%nat.
Proof.
  intros Hkeys. destruct key as [k|].
  - destruct (cache !! k) as [z|] eqn:Hk.
    + assert (cache = {[ k := z ]}) as ->; [|by rewrite map_size_singleton].
      apply map_eq. intros i. destruct (decide (i = k)) as [->|Hi].
      * by rewrite lookup_singleton_eq.
      * rewrite lookup_singleton_ne by done.
        destruct (cache !! i) as [z'|] eqn:Hi'; [|done].
        apply Hkeys in Hi'. congruence.
    + assert (cache = ∅) as ->; [|by rewrite map_size_empty; lia].
      apply map_empty. intros i. destruct (cache !! i) as [z'|] eqn:Hi'; [|done].
      pose proof (Hkeys _ _ Hi') as [= ->]. congruence.
  - assert (cache = ∅) as ->; [|by rewrite map_size_empty; lia].
    apply map_empty. intros i. destruct (cache !! i) as [z'|] eqn:Hi'; [|done].
    by apply Hkeys in Hi'.
Qed.

(** X16.  Whatever the sequence of runs that led to it, the session is
    consistent: a stored batch is the decode of the uploads recorded
    with it, and the cache holds at most one archive, keyed by the
    recorded format and built by [create_zip] from the stored batch. *)
Theorem reachable_consistent (s : SessionState) :
  reachable (Some s) → consistent s ∧ (size (zip_cache s) ≤ 1)%nat.
Proof.
  intros Hreach.
  assert (consistent s) as Hs.
  { remember (Some s) as st eqn:Hst. revert s Hst.
    induction Hreach as [|env w st Hreach IH]; intros s Hst; [done|].
    injection Hst as <-. apply render_consistent.
    intros s' ->. by apply IH. }
  split; [done|]. apply (one_key_size _ (last_format s)).
  intros k z Hk. by destruct (proj2 Hs k z Hk).
Qed.

End PageMore.

(** * The further properties on a sample session *)

Section MoreExamples.
Import Sample ZipSpec.

(** Two undecodable uploads after a good one: the exception of the
    first of them surfaces, although the last upload is decoded first. *)
Lemma process_images_parallel_first_error_witness :
  Forall (λ f, is_ok (process_image f).2 = true) [file "a.heic" "Hxyz"]
  ∧ (process_image (file "b.png" "junk")).2 = Raise (UnidentifiedImage "b.png")
  ∧ (process_image (file "c.heic" "junk")).2 = Raise InvalidHeif
  ∧ (process_images_parallel
       ([file "a.heic" "Hxyz"] ++ file "b.png" "junk" :: [file "c.heic" "junk"]) [[2]]).2
    = Raise (UnidentifiedImage "b.png").
Proof.
  assert (Forall (λ f, is_ok (process_image f).2 = true) [file "a.heic" "Hxyz"]) as H
    by (repeat constructor).
  split; [exact H|]. split; [reflexivity|]. split; [reflexivity|].
  exact (process_images_parallel_first_error (lib := Sample.lib)
           [file "a.heic" "Hxyz"] [file "c.heic" "junk"] (file "b.png" "junk")
           (UnidentifiedImage "b.png") [[2]] H eq_refl).
Defined.

(** The log of decoding the three sample uploads, the last one first. *)
Lemma process_images_parallel_log_ok_witness :
  (process_images_parallel inputs [[2]; [1]]).2 = Ok decoded
  ∧ (process_images_parallel inputs [[2]; [1]]).1
    ≡ₚ (INFO, "Starting parallel processing of " +:+ pretty (length inputs) +:+ " images")
       :: concat ((λ f, (process_image f).1) <$> inputs).
Proof.
  split; [reflexivity|].
  exact (process_images_parallel_log_ok (lib := Sample.lib) inputs [[2]; [1]] decoded
           eq_refl).
Defined.

(** The log of saving the sample batch as "JPEG" at noon: two members
    added, the image with alpha refused by [save]. *)
Lemma create_zip_log_accounts_witness :
  (∀ k : nat, calendar ((λ _, noon) k))
  ∧ Forall (λ img, plain (Path.stem (original_name img) +:+ "." +:+ Str.lower "JPEG"))
      decoded
  ∧ ∃ loop,
      (create_zip decoded "JPEG" [1; 0] (λ _, noon)).1
      = (INFO, "Creating ZIP with 3 images in JPEG format")
        :: loop ++ [(SUCCESS, "ZIP file created successfully")]
      ∧ loop ≡ₚ [(DEBUG, "Added a.jpeg to ZIP"); (DEBUG, "Added b.jpeg to ZIP");
                 (ERROR, "Error adding file to ZIP: cannot write mode RGBA as JPEG")].
Proof.
  assert (∀ k : nat, calendar ((λ _, noon) k)) as Hclock
    by (intros _; unfold calendar; simpl; lia).
  assert (Forall (λ img, plain (Path.stem (original_name img) +:+ "."
                                +:+ Str.lower "JPEG")) decoded) as Hplain
    by (repeat constructor; simpl; lia).
  split; [exact Hclock|]. split; [exact Hplain|].
  destruct (create_zip_log_accounts (lib := Sample.lib) decoded "JPEG" [1; 0]
              (λ _, noon) Hclock Hplain) as (loop & Hlog & Hloop).
  exists loop. split; [exact Hlog | exact Hloop].
Defined.

(** The sample batch saved as "PNG" on a machine whose clock says
    1970: an archive without members, three refusals in the log. *)
Lemma create_zip_before_1980_witness :
  (∀ k : nat, (Zip.year ((λ _, epoch) k) < 1980)%Z)
  ∧ Forall (λ img, is_ok (Image_save (image img) "PNG") = true) decoded
  ∧ Zip.extract [x50; x4b; x05; x06; x00; x00; x00; x00; x00; x00; x00; x00;
                 x00; x00; x00; x00; x00; x00; x00; x00; x00; x00] = Some []
  ∧ ∃ loop,
      (create_zip decoded "PNG" [1; 0] (λ _, epoch)).2
      = Ok [x50; x4b; x05; x06; x00; x00; x00; x00; x00; x00; x00; x00;
            x00; x00; x00; x00; x00; x00; x00; x00; x00; x00]
      ∧ (create_zip decoded "PNG" [1; 0] (λ _, epoch)).1
        = (INFO, "Creating ZIP with 3 images in PNG format")
          :: loop ++ [(SUCCESS, "ZIP file created successfully")]
      ∧ loop ≡ₚ replicate 3
                  (ERROR, "Error adding file to ZIP: "
                          +:+ "ZIP does not support timestamps before 1980").
Proof.
  assert (∀ k : nat, (Zip.year ((λ _, epoch) k) < 1980)%Z) as Hclock
    by (intros _; reflexivity).
  split; [exact Hclock|]. split; [repeat constructor|]. split; [reflexivity|].
  destruct (create_zip_before_1980 (lib := Sample.lib) decoded "PNG" [1; 0]
              (λ _, epoch) Hclock) as (loop & Hres & Hlog & Hloop).
  exists loop. split; [exact Hres|]. split; [exact Hlog | exact Hloop].
Defined.

(** An upload named with a directory part lands at the top of the
    archive. *)
Lemma member_names_are_flat_witness :
  Str.rfind "/" "PNG" = None
  ∧ (convert_to_buffer {| original_name := "holiday/photo.png";
                          image := image first_twin |} "PNG").2
    = Ok ("photo.png", list_byte_of_string "png" ++ [x01])
  ∧ Str.rfind "/" "photo.png" = None
  ∧ Str.endswith "photo.png" ("." +:+ Str.lower "PNG") = true.
Proof.
  split; [reflexivity|]. split; [reflexivity|].
  exact (member_names_are_flat (lib := Sample.lib)
           {| original_name := "holiday/photo.png"; image := image first_twin |}
           "PNG" "photo.png" (list_byte_of_string "png" ++ [x01]) eq_refl eq_refl).
Defined.

(** Three unreadable uploads under the names of the sample uploads are
    taken for them: the run is the run on the sample uploads, and the
    archive of the sample batch is offered. *)
Lemma uploads_known_by_name_witness :
  needs_processing cached (uploaded_files (request "WebP" false false)) "WebP" = false
  ∧ Forall (λ f, is_ok (process_image f).2 = false)
      [file "a.heic" "junk"; file "b.png" "junk"; file "c.jpg" "junk"]
  ∧ render_image_converter world2
      {| uploaded_files := [file "a.heic" "junk"; file "b.png" "junk";
                            file "c.jpg" "junk"];
         target_format := "WebP"; convert_all := false; show_processed := false |}
      (Some cached)
    = render_image_converter world2 (request "WebP" false false) (Some cached)
  ∧ downloads (page (render_image_converter world2 (request "WebP" false false)
                       (Some cached)))
    = [Zip.close (zip_written decoded "WebP" [1; 0] (λ _, noon)).2].
Proof.
  split; [reflexivity|]. split; [repeat constructor|]. split; [|reflexivity].
  exact (proj2 (uploads_known_by_name (lib := Sample.lib) world2
                  (request "WebP" false false)
                  {| uploaded_files := [file "a.heic" "junk"; file "b.png" "junk";
                                        file "c.jpg" "junk"];
                     target_format := "WebP"; convert_all := false;
                     show_processed := false |}
                  cached eq_refl eq_refl eq_refl eq_refl)).
Defined.

(** The first click on "Convert All" in a fresh session, the gallery
    shown in the rerun. *)
Lemma convert_all_then_download_witness :
  uploaded_files (request "WebP" true true) ≠ []
  ∧ needs_processing (init_session None).2 inputs "WebP" = true
  ∧ (process_images_parallel inputs (decode_order world1)).2 = Ok decoded
  ∧ Forall (λ img, is_ok (st_image_encode (image img)) = true) decoded
  ∧ ∃ zip_data,
      (create_zip decoded "WebP" (encode_order world1) (localtime world1)).2 = Ok zip_data
      ∧ session (interact world1 (request "WebP" true true) None)
        = {| processed_images := Some decoded;
             last_files_processed := Some inputs;
             last_format := Some "WebP";
             zip_cache := {[ "WebP" := zip_data ]} |}
      ∧ downloads (page (interact world1 (request "WebP" true true) None)) = [zip_data]
      ∧ outcome (interact world1 (request "WebP" true true) None) = Finished.
Proof.
  assert (uploaded_files (request "WebP" true true) ≠ []) as H by discriminate.
  assert (Forall (λ img, is_ok (st_image_encode (image img)) = true) decoded) as Hshow
    by (repeat constructor).
  split; [exact H|]. split; [reflexivity|]. split; [reflexivity|]. split; [exact Hshow|].
  exact (convert_all_then_download (lib := Sample.lib) world1 (request "WebP" true true)
           None decoded H eq_refl eq_refl eq_refl (λ _, Hshow)).
Defined.

(** The gallery of a batch whose second image is cut short: the first
    picture is drawn, then the run ends in the error of [st.image]
    and offers no download, although the archive is in the cache. *)
Lemma gallery_shows_batch_witness :
  uploaded_files (damaged_request false true) ≠ []
  ∧ needs_processing damaged_session damaged "PNG" = false
  ∧ is_Some (zip_cache damaged_session !! "PNG")
  ∧ processed_images damaged_session = Some ([good] ++ cut :: [late])
  ∧ st_image_encode (image cut) = Raise Truncated
  ∧ pictures (page (render_image_converter world2 (damaged_request false true)
                      (Some damaged_session)))
    = [(0%nat, image good, "good.png")]
  ∧ outcome (render_image_converter world2 (damaged_request false true)
               (Some damaged_session))
    = Uncaught Truncated
  ∧ downloads (page (render_image_converter world2 (damaged_request false true)
                       (Some damaged_session))) = []
  ∧ session (render_image_converter world2 (damaged_request false true)
               (Some damaged_session)) = damaged_session.
Proof.
  assert (uploaded_files (damaged_request false true) ≠ []) as H by discriminate.
  split; [exact H|]. split; [reflexivity|]. split; [by eexists|].
  split; [reflexivity|]. split; [reflexivity|].
  destruct (gallery_shows_batch (lib := Sample.lib) world2 (damaged_request false true)
              damaged_session ([good] ++ cut :: [late]) H eq_refl eq_refl)
    as (_ & Hcut & _).
  exact (Hcut [good] cut [late] Truncated eq_refl eq_refl
           ltac:(repeat constructor) eq_refl).
Defined.

(** The sample session after the click and its rerun is reached in two
    runs and is consistent. *)
Lemma reachable_consistent_witness :
  reachable (Some cached) ∧ consistent cached ∧ (size (zip_cache cached) ≤ 1)%nat.
Proof.
  assert (reachable (Some cached)) as H
    by exact (reachable_run world1 (request "WebP" false false) _
                (reachable_run world1 (request "WebP" true false) None reachable_first)).
  split; [exact H|].
  exact (reachable_consistent (lib := Sample.lib) cached H).
Defined.

End MoreExamples.
